(** * SPIRV-Cross control-flow graph and dominator analysis (spirv_cfg.cpp)

    A shallow embedding of [CFG] and [DominatorBuilder] and the properties
    of the post-order traversal, the adjacency lists and the immediate
    dominators that the specification states.

    Conventions.
    - Block identifiers ([uint32_t], 0 meaning "no block") are [N]; they are
      only ever compared, never computed with.
    - [visit_count] is a [uint32_t] and the recorded visit orders are [int];
      both are [Z], and the increment and the two conversions are written out
      with their wrap-around ([u32_incr], [int_of_u32], [u32_of_int]).  The
      theorems about finishing orders assume fewer than 2^31 finished
      blocks, so that the counter does not wrap.
    - The [std::unordered_map]s are [gmap]s; [operator[]] on an absent key
      default-constructs the value, which is [default d (m !! k)] here.
    - The recursion of [post_order_visit] and the loops of
      [find_common_dominator] and [find_loop_dominator] take a recursion
      budget; running out of it is the outcome [OutOfFuel].  Assertions are checked: a failing [assert]
      is [AssertionFailed]; an exception of [Compiler::get] is [Thrown].
    - The block store is a finite map; the theorems about dominators assume
      that identifier 0 names no block, as the data model reserves it.

    The file has the definitions first (the program, the predicates of the
    proofs, sample functions), then the lemmas: the traversal as a
    relation, its invariants, the invariant of the dominator computation,
    the theorems for the claims C1 to C10, and further properties X1 to
    X30 of the same functions and of [find_loop_dominator].  The theorem
    of claim C2 comes last: it rests on the dominator tree. *)

From stdpp Require Import base numbers option list gmap fin_maps.

Local Open Scope Z_scope.

(** ** Outcomes of fallible code *)

Inductive outcome (A : Type) : Type :=
| Done (a : A)
| Thrown
| AssertionFailed
| OutOfFuel.

Arguments Done {A} a.
Arguments Thrown {A}.
Arguments AssertionFailed {A}.
Arguments OutOfFuel {A}.

#[global] Instance outcome_bind : MBind outcome := λ A B k m,
  match m with
  | Done a => k a
  | Thrown => Thrown
  | AssertionFailed => AssertionFailed
  | OutOfFuel => OutOfFuel
  end.

(** ** Machine integers *)

Definition u32_incr (n : Z) : Z := (n + 1) mod 2 ^ 32.
Definition int_of_u32 (n : Z) : Z := if n <? 2 ^ 31 then n else n - 2 ^ 32.
Definition u32_of_int (v : Z) : Z := v mod 2 ^ 32.

(** ** Blocks *)

(** Modelled from the spec: the block record and its enumerations are
    declared in spirv_common.hpp, which is not among the sources.  The
    specification lists the terminator kinds [Direct], [Select],
    [MultiSelect] and the terminal kinds (return, unreachable), the merge
    kinds, and the fields read by the traversal. *)
Inductive Terminator := Direct | Select | MultiSelect | Return | Unreachable.

Inductive Merge := MergeNone | MergeLoop | MergeSelection.

Record Case := { value : N; block : N }.

Record SPIRBlock := {
  terminator : Terminator;
  merge : Merge;
  next_block : N;
  merge_block : N;
  true_block : N;
  false_block : N;
  cases : list Case;
  default_block : N
}.

Record SPIRFunction := { entry_block : N }.

#[global] Instance Terminator_eq_dec : EqDecision Terminator.
Proof. solve_decision. Defined.
#[global] Instance Merge_eq_dec : EqDecision Merge.
Proof. solve_decision. Defined.

(** ** The CFG object *)

Record CFG := {
  preceding_edges : gmap N (list N);
  succeeding_edges : gmap N (list N);
  immediate_dominators : gmap N N;
  visit_order : gmap N Z;
  post_order : list N;
  visit_count : Z
}.

(** A freshly constructed object: empty containers, [visit_count = 0]. *)
Definition CFG_empty : CFG :=
  {| preceding_edges := ∅; succeeding_edges := ∅; immediate_dominators := ∅;
     visit_order := ∅; post_order := []; visit_count := 0 |}.

Definition set_visit_order (c : CFG) (id : N) (v : Z) : CFG :=
  {| preceding_edges := preceding_edges c;
     succeeding_edges := succeeding_edges c;
     immediate_dominators := immediate_dominators c;
     visit_order := <[id := v]> (visit_order c);
     post_order := post_order c;
     visit_count := visit_count c |}.

Definition set_immediate_dominator (c : CFG) (id d : N) : CFG :=
  {| preceding_edges := preceding_edges c;
     succeeding_edges := succeeding_edges c;
     immediate_dominators := <[id := d]> (immediate_dominators c);
     visit_order := visit_order c;
     post_order := post_order c;
     visit_count := visit_count c |}.

(** Modelled from the spec: the accessors of spirv_cfg.hpp, which is not
    among the sources.  [get_immediate_dominator] gives the dominator or 0
    for a block without an entry; [get_visit_order] asserts that the block
    was visited and gives its finishing index as a [uint32_t];
    [get_preceding_edges] and [get_succeeding_edges] give the recorded list,
    empty for a block without an entry. *)
Definition get_immediate_dominator (c : CFG) (b : N) : N :=
  default 0%N (immediate_dominators c !! b).

Definition get_visit_order (c : CFG) (b : N) : outcome Z :=
  match visit_order c !! b with
  | None => AssertionFailed
  | Some v => Done (u32_of_int v)
  end.

Definition get_preceding_edges (c : CFG) (b : N) : list N :=
  default [] (preceding_edges c !! b).

Definition get_succeeding_edges (c : CFG) (b : N) : list N :=
  default [] (succeeding_edges c !! b).

(** [CFG::add_branch] with its local [add_unique]. *)
Definition add_unique (l : list N) (v : N) : list N :=
  if bool_decide (v ∈ l) then l else l ++ [v].

Definition add_branch (from to : N) (c : CFG) : CFG :=
  {| preceding_edges :=
       <[to := add_unique (default [] (preceding_edges c !! to)) from]>
         (preceding_edges c);
     succeeding_edges :=
       <[from := add_unique (default [] (succeeding_edges c !! from)) to]>
         (succeeding_edges c);
     immediate_dominators := immediate_dominators c;
     visit_order := visit_order c;
     post_order := post_order c;
     visit_count := visit_count c |}.

(** [CFG::is_back_edge]. *)
Definition is_back_edge (c : CFG) (to : N) : outcome bool :=
  match visit_order c !! to with
  | None => AssertionFailed
  | Some v => Done (v =? 0)
  end.

(** [CFG::find_common_dominator]: the [while (a != b)] loop, one iteration
    per unit of fuel. *)
Fixpoint find_common_dominator (fuel : nat) (c : CFG) (a b : N) : outcome N :=
  if bool_decide (a = b) then Done a
  else match fuel with
       | O => OutOfFuel
       | S fuel' =>
           va ← get_visit_order c a;
           vb ← get_visit_order c b;
           if va <? vb
           then find_common_dominator fuel' c (get_immediate_dominator c a) b
           else find_common_dominator fuel' c a (get_immediate_dominator c b)
       end.

Section WithCompiler.

(** The compiler's block store: [compiler.get<SPIRBlock>(id)] throws when
    [id] does not name a block. *)
Variable compiler : gmap N SPIRBlock.
Variable func : SPIRFunction.

Definition get_SPIRBlock (id : N) : outcome SPIRBlock :=
  match compiler !! id with
  | Some blk => Done blk
  | None => Thrown
  end.

(** The statement [if (post_order_visit(t)) add_branch(block_id, t);],
    which the traversal repeats for every branch target. *)
Definition branch_to (visit : CFG → N → outcome (bool * CFG))
    (block_id t : N) (c : CFG) : outcome CFG :=
  '(ok, c') ← visit c t;
  Done (if ok : bool then add_branch block_id t c' else c').

(** The [for (auto &target : block.cases)] loop of the [MultiSelect] case. *)
Fixpoint visit_cases (visit : CFG → N → outcome (bool * CFG))
    (block_id : N) (cs : list Case) (c : CFG) : outcome CFG :=
  match cs with
  | [] => Done c
  | target :: cs' =>
      c' ← branch_to visit block_id (block target) c;
      visit_cases visit block_id cs' c'
  end.

Definition visit_targets (visit : CFG → N → outcome (bool * CFG))
    (block_id : N) (blk : SPIRBlock) (c : CFG) : outcome CFG :=
  match terminator blk with
  | Direct => branch_to visit block_id (next_block blk) c
  | Select =>
      c1 ← branch_to visit block_id (true_block blk) c;
      branch_to visit block_id (false_block blk) c1
  | MultiSelect =>
      c1 ← visit_cases visit block_id (cases blk) c;
      if bool_decide (default_block blk ≠ 0%N)
      then branch_to visit block_id (default_block blk) c1
      else Done c1
  | _ => Done c
  end.

(** The end of [post_order_visit]: the implied branch of a loop header,
    then the block's own finishing index. *)
Definition finish_block (block_id : N) (blk : SPIRBlock) (c : CFG) : CFG :=
  let c1 := match merge blk with
            | MergeLoop => add_branch block_id (merge_block blk) c
            | _ => c
            end in
  let n := u32_incr (visit_count c1) in
  {| preceding_edges := preceding_edges c1;
     succeeding_edges := succeeding_edges c1;
     immediate_dominators := immediate_dominators c1;
     visit_order := <[block_id := int_of_u32 n]> (visit_order c1);
     post_order := post_order c1 ++ [block_id];
     visit_count := n |}.

(** [CFG::post_order_visit].  [visit_order[block_id]] default-constructs
    the order -1 for an absent key; that entry is overwritten by the
    sentinel on the next line, and a present key is left as it is. *)
Fixpoint post_order_visit (fuel : nat) (c : CFG) (block_id : N)
    : outcome (bool * CFG) :=
  match fuel with
  | O => OutOfFuel
  | S fuel' =>
      if 0 <=? default (-1) (visit_order c !! block_id)
      then b ← is_back_edge c block_id; Done (negb b, c)
      else
        let c0 := set_visit_order c block_id 0 in
        blk ← get_SPIRBlock block_id;
        c1 ← visit_targets (post_order_visit fuel') block_id blk c0;
        Done (true, finish_block block_id blk c1)
  end.

(** [CFG::build_post_order_visit_order]. *)
Definition build_post_order_visit_order (fuel : nat) (c : CFG) : outcome CFG :=
  let c0 :=
    {| preceding_edges := preceding_edges c;
       succeeding_edges := succeeding_edges c;
       immediate_dominators := immediate_dominators c;
       visit_order := ∅; post_order := []; visit_count := 0 |} in
  '(_, c') ← post_order_visit fuel c0 (entry_block func);
  Done c'.

(** The inner loop of [build_immediate_dominators] over the predecessors
    of one block. *)
Fixpoint fold_predecessors (fuel : nat) (blk_id : N) (pred : list N) (c : CFG)
    : outcome CFG :=
  match pred with
  | [] => Done c
  | edge :: pred' =>
      c' ← (if bool_decide (get_immediate_dominator c blk_id ≠ 0%N)
            then
              if bool_decide (get_immediate_dominator c edge ≠ 0%N)
              then d ← find_common_dominator fuel c blk_id edge;
                   Done (set_immediate_dominator c blk_id d)
              else AssertionFailed
            else Done (set_immediate_dominator c blk_id edge));
      fold_predecessors fuel blk_id pred' c'
  end.

(** One iteration of the outer loop.  [preceding_edges[block]] creates an
    empty list for a block without an entry. *)
Definition dominate_block (fuel : nat) (blk_id : N) (c : CFG) : outcome CFG :=
  let pred := default [] (preceding_edges c !! blk_id) in
  let c0 :=
    {| preceding_edges := <[blk_id := pred]> (preceding_edges c);
       succeeding_edges := succeeding_edges c;
       immediate_dominators := immediate_dominators c;
       visit_order := visit_order c;
       post_order := post_order c;
       visit_count := visit_count c |} in
  match pred with
  | [] => Done c0
  | _ => fold_predecessors fuel blk_id pred c0
  end.

Fixpoint dominate_blocks (fuel : nat) (order : list N) (c : CFG) : outcome CFG :=
  match order with
  | [] => Done c
  | b :: rest => c' ← dominate_block fuel b c; dominate_blocks fuel rest c'
  end.

(** [CFG::build_immediate_dominators]: [post_order] walked back to front. *)
Definition build_immediate_dominators (fuel : nat) (c : CFG) : outcome CFG :=
  let c0 :=
    {| preceding_edges := preceding_edges c;
       succeeding_edges := succeeding_edges c;
       immediate_dominators := {[ entry_block func := entry_block func ]};
       visit_order := visit_order c;
       post_order := post_order c;
       visit_count := visit_count c |} in
  dominate_blocks fuel (rev (post_order c0)) c0.

(** The constructor [CFG::CFG]. *)
Definition CFG_new (fuel : nat) : outcome CFG :=
  c ← build_post_order_visit_order fuel CFG_empty;
  build_immediate_dominators fuel c.

(** ** Loop dominators *)

(** The [for (auto &pred : itr->second)] loop of [find_loop_dominator]:
    it stops at the first predecessor that is a loop header with merge
    block [block_id], or a selection header with next block [block_id].
    The result is [(pred_block_id, ignore_loop_header)], [(0, false)] when
    no predecessor matches. *)
Fixpoint scan_predecessors (block_id : N) (preds : list N) : outcome (N * bool) :=
  match preds with
  | [] => Done (0%N, false)
  | pred :: preds' =>
      pred_block ← get_SPIRBlock pred;
      if bool_decide (merge pred_block = MergeLoop ∧
                      merge_block pred_block = block_id)
      then Done (pred, true)
      else if bool_decide (merge pred_block = MergeSelection ∧
                           next_block pred_block = block_id)
      then Done (pred, false)
      else scan_predecessors block_id preds'
  end.

(** [CFG::find_loop_dominator]: the [while (block_id != 0)] loop, one
    iteration per unit of fuel.  [preceding_edges.find] creates no entry. *)
Fixpoint find_loop_dominator (fuel : nat) (c : CFG) (block_id : N) : outcome N :=
  if bool_decide (block_id = 0%N) then Done block_id
  else match fuel with
       | O => OutOfFuel
       | S fuel' =>
           match preceding_edges c !! block_id with
           | None => Done 0%N
           | Some [] => Done 0%N
           | Some ((front :: _) as preds) =>
               '(found, ignore_loop_header) ← scan_predecessors block_id preds;
               let pred_block_id :=
                 if bool_decide (found = 0%N) then front else found in
               if negb ignore_loop_header && bool_decide (pred_block_id ≠ 0%N)
               then
                 blk ← get_SPIRBlock pred_block_id;
                 if bool_decide (merge blk = MergeLoop) then Done pred_block_id
                 else find_loop_dominator fuel' c pred_block_id
               else find_loop_dominator fuel' c pred_block_id
           end
       end.

(** ** DominatorBuilder *)

(** The builder holds a reference to the CFG and the accumulated
    [dominator], 0 at construction. *)
Record DominatorBuilder := { dominator : N }.

Definition DominatorBuilder_new : DominatorBuilder := {| dominator := 0%N |}.

(** [DominatorBuilder::add_block]. *)
Definition add_block (fuel : nat) (cfg : CFG) (d : DominatorBuilder) (blk_id : N)
    : outcome DominatorBuilder :=
  if bool_decide (get_immediate_dominator cfg blk_id = 0%N) then Done d
  else if bool_decide (dominator d = 0%N) then Done {| dominator := blk_id |}
  else if bool_decide (blk_id ≠ dominator d)
       then r ← find_common_dominator fuel cfg blk_id (dominator d);
            Done {| dominator := r |}
       else Done d.

(** The test [if (cfg.get_visit_order(t) > post_order)
    back_edge_dominator = true;] of [lift_continue_block_dominator]. *)
Definition flag_if_later (cfg : CFG) (po : Z) (t : N) (flag : bool) : outcome bool :=
  v ← get_visit_order cfg t;
  Done (if po <? v then true else flag).

Fixpoint flag_cases (cfg : CFG) (po : Z) (cs : list Case) (flag : bool)
    : outcome bool :=
  match cs with
  | [] => Done flag
  | target :: cs' =>
      flag' ← flag_if_later cfg po (block target) flag;
      flag_cases cfg po cs' flag'
  end.

(** [DominatorBuilder::lift_continue_block_dominator]. *)
Definition lift_continue_block_dominator (cfg : CFG) (d : DominatorBuilder)
    : outcome DominatorBuilder :=
  if bool_decide (dominator d = 0%N) then Done d
  else
    blk ← get_SPIRBlock (dominator d);
    po ← get_visit_order cfg (dominator d);
    back_edge_dominator ←
      match terminator blk with
      | Direct => flag_if_later cfg po (next_block blk) false
      | Select =>
          f1 ← flag_if_later cfg po (true_block blk) false;
          flag_if_later cfg po (false_block blk) f1
      | MultiSelect =>
          f1 ← flag_cases cfg po (cases blk) false;
          if bool_decide (default_block blk ≠ 0%N)
          then flag_if_later cfg po (default_block blk) f1
          else Done f1
      | _ => Done false
      end;
    Done (if back_edge_dominator : bool
          then {| dominator := entry_block func |} else d).

(** The calls [add_block(b)] for the blocks [b] of [bs] in turn, on one
    builder. *)
Fixpoint add_blocks (fuel : nat) (cfg : CFG) (d : DominatorBuilder) (bs : list N)
    : outcome DominatorBuilder :=
  match bs with
  | [] => Done d
  | b :: bs' => d' ← add_block fuel cfg d b; add_blocks fuel cfg d' bs'
  end.

(** ** The traversal as a relation

    [visits c b ok c'] holds when a call [post_order_visit(b)] started in
    state [c] returns [ok] and leaves state [c']; [visits_all c from ts c']
    is the sequence of guarded calls for the targets [ts] of [from]. *)

Definition branch_targets (blk : SPIRBlock) : list N :=
  match terminator blk with
  | Direct => [next_block blk]
  | Select => [true_block blk; false_block blk]
  | MultiSelect =>
      map block (cases blk) ++
      (if bool_decide (default_block blk ≠ 0%N) then [default_block blk] else [])
  | _ => []
  end.

Inductive visits : CFG → N → bool → CFG → Prop :=
| visits_seen c b v :
    visit_order c !! b = Some v → 0 ≤ v →
    visits c b (negb (v =? 0)) c
| visits_new c b blk c1 :
    default (-1) (visit_order c !! b) < 0 →
    compiler !! b = Some blk →
    visits_all (set_visit_order c b 0) b (branch_targets blk) c1 →
    visits c b true (finish_block b blk c1)
with visits_all : CFG → N → list N → CFG → Prop :=
| visits_nil c from : visits_all c from [] c
| visits_cons c from t ts ok c1 c2 :
    visits c t ok c1 →
    visits_all (if ok then add_branch from t c1 else c1) from ts c2 →
    visits_all c from (t :: ts) c2.

End WithCompiler.

Scheme visits_mut := Minimality for visits Sort Prop
  with visits_all_mut := Minimality for visits_all Sort Prop.
Combined Scheme visits_mutind from visits_mut, visits_all_mut.

Arguments visits_mutind : clear implicits.

(** ** State predicates used by the proofs *)

(** The adjacency lists mirror each other and hold no identifier twice. *)
Definition edges_ok (c : CFG) : Prop :=
  (∀ f t, t ∈ get_succeeding_edges c f ↔ f ∈ get_preceding_edges c t) ∧
  (∀ b, NoDup (get_preceding_edges c b)) ∧
  (∀ b, NoDup (get_succeeding_edges c b)).

(** [from] is a loop header and [to] its merge block: the pair that the
    traversal records unconditionally. *)
Definition implied_edge (compiler : gmap N SPIRBlock) (from to : N) : Prop :=
  ∃ blk, compiler !! from = Some blk ∧ merge blk = MergeLoop ∧ merge_block blk = to.

(** A recorded pair [(from, to)] is either a loop header's implied edge or
    leads to a block that had finished while [from] was still in progress
    (order 0) or finished later. *)
Definition edge_ordered (compiler : gmap N SPIRBlock) (c : CFG) (from to : N) : Prop :=
  ∃ vf, visit_order c !! from = Some vf ∧
    (implied_edge compiler from to ∨
     ∃ vt, visit_order c !! to = Some vt ∧ 0 < vt ∧ (vf = 0 ∨ vt < vf)).

(** [x] has a recorded predecessor that is in progress or finished later. *)
Definition has_later_pred (c : CFG) (x : N) : Prop :=
  ∃ p vx vp, p ∈ get_preceding_edges c x ∧
    visit_order c !! x = Some vx ∧ visit_order c !! p = Some vp ∧
    (vp = 0 ∨ vx < vp).

Definition preds_ok (c : CFG) : Prop :=
  ∀ x, x ∈ post_order c → has_later_pred c x.

(** The bookkeeping of the traversal: [post_order] lists the finished blocks
    once each, the block at index [i] has order [i + 1], every other recorded
    order is the sentinel 0, and only blocks of the store are visited. *)
Record order_ok (compiler : gmap N SPIRBlock) (c : CFG) : Prop := {
  ok_nodup : NoDup (post_order c);
  ok_count : visit_count c = Z.of_nat (length (post_order c));
  ok_finished : ∀ (i : nat) b, post_order c !! i = Some b →
                  visit_order c !! b = Some (Z.of_nat i + 1);
  ok_visited : ∀ b v, visit_order c !! b = Some v →
                  v = 0 ∨ ∃ i : nat, post_order c !! i = Some b ∧ v = Z.of_nat i + 1;
  ok_blocks : ∀ b, is_Some (visit_order c !! b) → is_Some (compiler !! b);
  ok_edges : ∀ f t, f ∈ get_preceding_edges c t → edge_ordered compiler c f t
}.

(** The counter cannot wrap: the store has fewer than 2^31 blocks, or the
    traversal finished fewer than 2^31 of them. *)
Definition few_blocks (compiler : gmap N SPIRBlock) (c : CFG) : Prop :=
  Z.of_nat (size compiler) < 2 ^ 31 ∨ Z.of_nat (length (post_order c)) < 2 ^ 31.

(** The state the traversal leaves behind: nothing is in progress, the
    entry block finished last, every other finished block has a
    predecessor that finished later. *)
Record traversed (compiler : gmap N SPIRBlock) (entry : N) (c : CFG) : Prop := {
  tr_order : order_ok compiler c;
  tr_done : ∀ b v, visit_order c !! b = Some v → 0 < v;
  tr_preds : ∀ x, x ∈ post_order c → x ≠ entry → has_later_pred c x;
  tr_last : last (post_order c) = Some entry;
  tr_small : Z.of_nat (length (post_order c)) < 2 ^ 31
}.

(** The recorded finishing index, 0 for a block without one. *)
Definition order (c : CFG) (b : N) : Z := default 0 (visit_order c !! b).

(** [c'] differs from [c] in the immediate dominators only (and in empty
    predecessor lists created by [operator[]]). *)
Definition graph_eq (c c' : CFG) : Prop :=
  visit_order c' = visit_order c ∧ post_order c' = post_order c ∧
  visit_count c' = visit_count c ∧
  succeeding_edges c' = succeeding_edges c ∧
  ∀ b, get_preceding_edges c' b = get_preceding_edges c b.

(** The invariant of [build_immediate_dominators] once the blocks of order
    above [k] are processed: the entry block is its own dominator, only
    processed blocks have an entry, and the entry of a processed block is a
    finished block of no smaller order. *)
Record idoms_ok (entry : N) (k : Z) (c : CFG) : Prop := {
  io_entry : immediate_dominators c !! entry = Some entry;
  io_keys : ∀ b, is_Some (immediate_dominators c !! b) → b = entry ∨ k < order c b;
  io_done : ∀ b, b ∈ post_order c → k < order c b →
              ∃ d, immediate_dominators c !! b = Some d ∧ d ∈ post_order c ∧
                   order c b ≤ order c d
}.

(** The facts that hold of every state of the loop over the predecessors
    of [b], the block of order [k]. *)
Record folding (compiler : gmap N SPIRBlock) (entry b : N) (k : Z) (c : CFG)
    : Prop := {
  fo_traversed : traversed compiler entry c;
  fo_block : b ∈ post_order c;
  fo_order : order c b = k;
  fo_climb : ∀ x, x ∈ post_order c → k < order c x →
               ∃ d, immediate_dominators c !! x = Some d ∧ d ∈ post_order c ∧
                    order c x ≤ order c d;
  fo_keys : ∀ x, is_Some (immediate_dominators c !! x) →
               x = entry ∨ k < order c x ∨ x = b
}.

(** The dominator recorded for [b] is a finished block of no smaller
    order. *)
Definition settled (b : N) (c : CFG) : Prop :=
  ∃ d, immediate_dominators c !! b = Some d ∧ d ∈ post_order c ∧
       order c b ≤ order c d.

(** One step up the dominator tree. *)
Definition idom_step (c : CFG) (x y : N) : Prop := y = get_immediate_dominator c x.

Definition loop_edges_ok (compiler : gmap N SPIRBlock) (c : CFG) : Prop :=
  ∀ b, b ∈ post_order c → ∀ t, implied_edge compiler b t →
       t ∈ get_succeeding_edges c b.

(** Some block of [ts] has a visit order strictly greater than [po]: the
    condition under which the specification resets the dominator. *)
Definition later_target (cfg : CFG) (po : Z) (ts : list N) : Prop :=
  ∃ t v, t ∈ ts ∧ get_visit_order cfg t = Done v ∧ po < v.

(** [visit'] answers whatever [visit] answers. *)
Definition extends (visit visit' : CFG → N → outcome (bool * CFG)) : Prop :=
  ∀ c t r, visit c t = Done r → visit' c t = Done r.

(** Every branch target of a finished block has a recorded visit order. *)
Definition targets_ok (compiler : gmap N SPIRBlock) (c : CFG) : Prop :=
  ∀ x blk t, x ∈ post_order c → compiler !! x = Some blk →
             t ∈ branch_targets blk → is_Some (visit_order c !! t).

(** The store is closed under branch targets: every block it holds names
    blocks it holds.  (A merge block need not be one: it is never fetched.) *)
Definition closed_store (compiler : gmap N SPIRBlock) : Prop :=
  ∀ b blk t, compiler !! b = Some blk → t ∈ branch_targets blk →
    is_Some (compiler !! t).

(** ** Sample functions *)

Definition mk_block (t : Terminator) (m : Merge) (next mb tb fb : N) : SPIRBlock :=
  {| terminator := t; merge := m; next_block := next; merge_block := mb;
     true_block := tb; false_block := fb; cases := []; default_block := 0%N |}.

Definition cfg_of (o : outcome CFG) : CFG :=
  match o with Done c => c | _ => CFG_empty end.

(** Scenario A, the chain [1 → 2 → 3 (return)]. *)
Definition chain_blocks : gmap N SPIRBlock :=
  list_to_map [(1%N, mk_block Direct MergeNone 2 0 0 0);
               (2%N, mk_block Direct MergeNone 3 0 0 0);
               (3%N, mk_block Return MergeNone 0 0 0 0)].
Definition chain_func : SPIRFunction := {| entry_block := 1%N |}.
Definition chain_cfg : CFG := cfg_of (CFG_new chain_blocks chain_func 8).

(** Scenario C, [do { } while (cond)]: entry 1, loop header 2 with merge
    block 4, latch 3 that branches back to 2 or leaves to 4. *)
Definition dowhile_blocks : gmap N SPIRBlock :=
  list_to_map [(1%N, mk_block Direct MergeNone 2 0 0 0);
               (2%N, mk_block Direct MergeLoop 3 4 0 0);
               (3%N, mk_block Select MergeNone 0 0 2 4);
               (4%N, mk_block Return MergeNone 0 0 0 0)].
Definition dowhile_func : SPIRFunction := {| entry_block := 1%N |}.
Definition dowhile_cfg : CFG := cfg_of (CFG_new dowhile_blocks dowhile_func 8).

(** An endless loop: header 2 names the merge block 9, which no branch
    reaches and which is not even a block of the store. *)
Definition endless_blocks : gmap N SPIRBlock :=
  list_to_map [(1%N, mk_block Direct MergeNone 2 0 0 0);
               (2%N, mk_block Direct MergeLoop 3 9 0 0);
               (3%N, mk_block Direct MergeNone 2 0 0 0)].
Definition endless_func : SPIRFunction := {| entry_block := 1%N |}.
Definition endless_cfg : CFG := cfg_of (CFG_new endless_blocks endless_func 8).

(** A block that is a loop header, branches to itself and names itself as
    merge block. *)
Definition selfloop_blocks : gmap N SPIRBlock :=
  list_to_map [(1%N, mk_block Direct MergeLoop 1 1 0 0)].
Definition selfloop_func : SPIRFunction := {| entry_block := 1%N |}.
Definition selfloop_cfg : CFG := cfg_of (CFG_new selfloop_blocks selfloop_func 8).

(** A loop header 2 whose merge block 4 is also branched to from outside
    the loop, after the loop was traversed. *)
Definition shared_merge_blocks : gmap N SPIRBlock :=
  list_to_map [(1%N, mk_block Select MergeNone 0 0 2 4);
               (2%N, mk_block Direct MergeLoop 3 4 0 0);
               (3%N, mk_block Direct MergeNone 2 0 0 0);
               (4%N, mk_block Return MergeNone 0 0 0 0)].
Definition shared_merge_func : SPIRFunction := {| entry_block := 1%N |}.
Definition shared_merge_traversal : CFG :=
  cfg_of (build_post_order_visit_order shared_merge_blocks shared_merge_func 8 CFG_empty).

Definition dowhile_traversal : CFG :=
  cfg_of (build_post_order_visit_order dowhile_blocks dowhile_func 8 CFG_empty).

(** A loop header 2 that names the entry block 1 as its merge block. *)
Definition entry_merge_blocks : gmap N SPIRBlock :=
  list_to_map [(1%N, mk_block Direct MergeNone 2 0 0 0);
               (2%N, mk_block Direct MergeLoop 3 1 0 0);
               (3%N, mk_block Return MergeNone 0 0 0 0)].
Definition entry_merge_func : SPIRFunction := {| entry_block := 1%N |}.
Definition entry_merge_traversal : CFG :=
  cfg_of (build_post_order_visit_order entry_merge_blocks entry_merge_func 8 CFG_empty).

(** The state in which block 1 of [selfloop_blocks] visits its targets. *)
Definition selfloop_marked : CFG := set_visit_order CFG_empty 1 0.

(** ** Further state predicates *)

(** Every finished loop header finished after its merge block, if that
    block was visited at all. *)
Definition merge_finishes_first (compiler : gmap N SPIRBlock) (c : CFG) : Prop :=
  ∀ h t, h ∈ post_order c → implied_edge compiler h t → t ∈ post_order c →
         order c t < order c h.

(** An outcome that is neither an assertion failure nor an exception: a
    result satisfying [P], or a budget [n] of at most [bound]. *)
Definition returns_within {A : Type} (bound : Z) (n : nat) (P : A → Prop)
    (o : outcome A) : Prop :=
  match o with
  | Done a => P a
  | OutOfFuel => Z.of_nat n ≤ bound
  | _ => False
  end.

(** The invariant of [build_immediate_dominators] when every predecessor
    finished later than its successor: a processed block other than the
    entry block has a dominator of strictly greater order. *)
Record idoms_strict (entry : N) (k : Z) (c : CFG) : Prop := {
  is_entry : immediate_dominators c !! entry = Some entry;
  is_keys : ∀ b, is_Some (immediate_dominators c !! b) → b = entry ∨ k < order c b;
  is_done : ∀ b, b ∈ post_order c → k < order c b → b ≠ entry →
              ∃ d, immediate_dominators c !! b = Some d ∧ d ∈ post_order c ∧
                   order c b < order c d
}.

(** Every recorded predecessor of a finished block is finished and has a
    greater visit order. *)
Definition preds_finish_later (c : CFG) : Prop :=
  ∀ b p, b ∈ post_order c → p ∈ get_preceding_edges c b →
         p ∈ post_order c ∧ order c b < order c p.

(** The state the traversal leaves for a do/while-shaped function with
    entry [E], loop header [H], latch [B] and merge block [M]. *)
Definition dowhile_traversed (E H B M : N) : CFG :=
  {| preceding_edges := <[H := [E]]> (<[M := [B; H]]> (<[B := [H]]> (<[M := [B]]> ∅)));
     succeeding_edges := <[E := [H]]> (<[H := [B; M]]> (<[H := [B]]> (<[B := [M]]> ∅)));
     immediate_dominators := ∅;
     visit_order :=
       <[E := 4]> (<[H := 3]> (<[B := 2]> (<[M := 1]>
         (<[M := 0]> (<[B := 0]> (<[H := 0]> (<[E := 0]> ∅)))))));
     post_order := [M; B; H; E];
     visit_count := 4 |}.

(** A description of a traversal state field by field. *)
Definition is_state (c : CFG) (pe se : gmap N (list N)) (vo : gmap N Z)
    (po : list N) (vc : Z) : Prop :=
  preceding_edges c = pe ∧ succeeding_edges c = se ∧
  immediate_dominators c = ∅ ∧ visit_order c = vo ∧
  post_order c = po ∧ visit_count c = vc.

(** A do/while-shaped function: the entry block [E] jumps to the loop
    header [H], whose merge block is [M] and whose terminator jumps to the
    latch [B]; the latch branches back to [H] or leaves to [M]; [M] ends the
    function. *)
Definition dowhile_shaped (compiler : gmap N SPIRBlock) (E H B M : N) : Prop :=
  NoDup [E; H; B; M] ∧
  (∃ bE, compiler !! E = Some bE ∧
         terminator bE = Direct ∧ next_block bE = H ∧ merge bE ≠ MergeLoop) ∧
  (∃ bH, compiler !! H = Some bH ∧
         terminator bH = Direct ∧ next_block bH = B ∧
         merge bH = MergeLoop ∧ merge_block bH = M) ∧
  (∃ bB, compiler !! B = Some bB ∧
         terminator bB = Select ∧ merge bB ≠ MergeLoop ∧
         ((true_block bB = H ∧ false_block bB = M) ∨
          (true_block bB = M ∧ false_block bB = H))) ∧
  (∃ bM, compiler !! M = Some bM ∧
         (terminator bM = Return ∨ terminator bM = Unreachable) ∧
         merge bM ≠ MergeLoop).

(** ** Predicates of the further properties *)

(** [t] is a branch target of the terminator of block [b]. *)
Definition branches_to (compiler : gmap N SPIRBlock) (b t : N) : Prop :=
  ∃ blk, compiler !! b = Some blk ∧ t ∈ branch_targets blk.

(** The branches lead from [b] to an identifier that names no block. *)
Definition leads_outside (compiler : gmap N SPIRBlock) (b : N) : Prop :=
  ∃ x, rtc (branches_to compiler) b x ∧ compiler !! x = None.

(** Every recorded edge is a branch of the program or a loop header's
    implied edge. *)
Definition edges_real (compiler : gmap N SPIRBlock) (c : CFG) : Prop :=
  ∀ f t, t ∈ get_succeeding_edges c f →
         branches_to compiler f t ∨ implied_edge compiler f t.

(** The branch from the finished block [f] to [t] is recorded, or [t] is
    still in progress, or [t] did not finish before [f]. *)
Definition target_settled (c : CFG) (f t : N) : Prop :=
  t ∈ get_succeeding_edges c f ∨ visit_order c !! t = Some 0 ∨
  ∃ vf vt, visit_order c !! f = Some vf ∧ visit_order c !! t = Some vt ∧ vf ≤ vt.

Definition edges_complete (compiler : gmap N SPIRBlock) (c : CFG) : Prop :=
  ∀ f t, f ∈ post_order c → branches_to compiler f t → target_settled c f t.

(** Above the order [k] every finished block has a finished dominator of
    no smaller order. *)
Definition climbs (c : CFG) (k : Z) : Prop :=
  ∀ x, x ∈ post_order c → k < order c x →
       ∃ d, immediate_dominators c !! x = Some d ∧ d ∈ post_order c ∧
            order c x ≤ order c d.

(** [z] lies on the dominator chain of every block of [bs]. *)
Definition common_ancestor (c : CFG) (bs : list N) (z : N) : Prop :=
  ∀ b, b ∈ bs → rtc (idom_step c) b z.

(** [r] is a common ancestor of [bs], and every common ancestor of [bs]
    lies on the chain of [r]. *)
Definition nearest_common_ancestor (c : CFG) (bs : list N) (r : N) : Prop :=
  common_ancestor c bs r ∧ ∀ z, common_ancestor c bs z → rtc (idom_step c) r z.

(** The dominator of every processed block other than the entry block is
    the nearest common ancestor of its recorded predecessors. *)
Definition idoms_nearest (entry : N) (k : Z) (c : CFG) : Prop :=
  ∀ b, b ∈ post_order c → k < order c b → b ≠ entry →
       nearest_common_ancestor c (get_preceding_edges c b)
         (get_immediate_dominator c b).

(** [path c x l y]: [l] lists the blocks of a walk from [x] to [y] along
    the recorded succeeding edges. *)
Inductive path (c : CFG) (x : N) : list N → N → Prop :=
| path_start : path c x [x] x
| path_edge l y z :
    path c x l y → z ∈ get_succeeding_edges c y → path c x (l ++ [z]) z.

(** [d] dominates [b]: every walk from the entry block to [b] passes
    through [d]. *)
Definition dominates (c : CFG) (entry d b : N) : Prop :=
  ∀ l, path c entry l b → d ∈ l.

(** The builder after the finished blocks [seen] were added. *)
Definition builder_holds (c : CFG) (seen : list N) (d : DominatorBuilder) : Prop :=
  match seen with
  | [] => dominator d = 0%N
  | _ => dominator d ∈ post_order c ∧ nearest_common_ancestor c seen (dominator d)
  end.

(** [h] is a finished loop header. *)
Definition loop_header (compiler : gmap N SPIRBlock) (c : CFG) (h : N) : Prop :=
  h ∈ post_order c ∧ ∃ blk, compiler !! h = Some blk ∧ merge blk = MergeLoop.

(** The test [visit_order[b] >= 0] of [post_order_visit]. *)
Definition visited (c : CFG) (b : N) : Prop := 0 ≤ default (-1) (visit_order c !! b).

(** The edge that [post_order_visit] adds for a loop header. *)
Definition implied_targets (blk : SPIRBlock) : list N :=
  match merge blk with MergeLoop => [merge_block blk] | _ => [] end.

(** The recorded successors of every finished block: its branch targets
    that finished before it, in the order of the terminator, then its merge
    block if it is a loop header; [add_unique] drops the repetitions. *)
Definition successors_exact (compiler : gmap N SPIRBlock) (c : CFG) : Prop :=
  ∀ f blk, f ∈ post_order c → compiler !! f = Some blk →
    (∀ t, t ∈ branch_targets blk → visited c t) ∧
    get_succeeding_edges c f =
      foldl add_unique []
        (filter (λ t, 0 < order c t < order c f) (branch_targets blk)
         ++ implied_targets blk).

(** A block without a visit order has no recorded successor. *)
Definition unvisited_no_successors (c : CFG) : Prop :=
  ∀ f, visit_order c !! f = None → get_succeeding_edges c f = [].

(** [x] is reached from the entry block along branches without passing
    through [h]. *)
Inductive reach_avoiding (compiler : gmap N SPIRBlock) (entry h : N) : N → Prop :=
| ra_entry : entry ≠ h → reach_avoiding compiler entry h entry
| ra_step y x :
    reach_avoiding compiler entry h y → branches_to compiler y x → x ≠ h →
    reach_avoiding compiler entry h x.

(** Every loop header that the branches lead to dominates its merge block,
    which is another block: no branch path from the entry block reaches
    the merge block without passing through the header. *)
Definition headers_dominate_merges (compiler : gmap N SPIRBlock) (entry : N) : Prop :=
  ∀ h blk, rtc (branches_to compiler) entry h → compiler !! h = Some blk →
           merge blk = MergeLoop →
           merge_block blk ≠ h ∧
           ¬ reach_avoiding compiler entry h (merge_block blk).

(** [x] is the end of a branch path from the entry block whose other
    blocks are all in progress. *)
Inductive on_stack (compiler : gmap N SPIRBlock) (entry : N) (c : CFG) : N → Prop :=
| os_entry : on_stack compiler entry c entry
| os_step y x :
    on_stack compiler entry c y → visit_order c !! y = Some 0 →
    branches_to compiler y x → on_stack compiler entry c x.

Definition stack_ok (compiler : gmap N SPIRBlock) (entry : N) (c : CFG) : Prop :=
  ∀ x, visit_order c !! x = Some 0 → on_stack compiler entry c x.

(** The merge block of a finished loop header, if the branches lead to it
    at all, finished before the header. *)
Definition merges_first (compiler : gmap N SPIRBlock) (entry : N) (c : CFG) : Prop :=
  ∀ h blk, h ∈ post_order c → compiler !! h = Some blk → merge blk = MergeLoop →
           rtc (branches_to compiler) entry (merge_block blk) →
           merge_block blk ∈ post_order c ∧ order c (merge_block blk) < order c h.

(** An outcome other than an exception or a failed assertion. *)
Definition no_failure {A : Type} (o : outcome A) : Prop :=
  match o with
  | Thrown | AssertionFailed => False
  | _ => True
  end.

(** [d] dominates [b] in the program: [d] is [b], or no branch path from
    the entry block reaches [b] without passing through [d]. *)
Definition branch_dominates (compiler : gmap N SPIRBlock) (entry d b : N) : Prop :=
  d = b ∨ ¬ reach_avoiding compiler entry d b.

(** Every branch of a finished block that the CFG does not record, a back
    edge, leads to a block that dominates its source. *)
Definition back_edges_to_dominators (compiler : gmap N SPIRBlock) (entry : N)
    (c : CFG) : Prop :=
  ∀ f t, f ∈ post_order c → branches_to compiler f t →
         t ∉ get_succeeding_edges c f → branch_dominates compiler entry t f.

(** [x] is reached from the entry block along recorded edges without
    passing through [d]. *)
Definition recorded_avoiding (c : CFG) (entry d x : N) : Prop :=
  ∃ l, path c entry l x ∧ d ∉ l.

(** Two stores hold the same block under every identifier that the
    branches lead to from [b]. *)
Definition agree_from (compiler compiler' : gmap N SPIRBlock) (b : N) : Prop :=
  ∀ x, rtc (branches_to compiler) b x → compiler' !! x = compiler !! x.

(** ** Predicates of the do/while claim *)

(** A do/while loop with a body of two blocks: the entry block 1 jumps to
    the loop header 2, whose merge block is 5; block 3 leaves the loop or
    goes on to the latch 4, which branches back to the header or leaves. *)
Definition dowhile_break_blocks : gmap N SPIRBlock :=
  list_to_map [(1%N, mk_block Direct MergeNone 2 0 0 0);
               (2%N, mk_block Direct MergeLoop 3 5 0 0);
               (3%N, mk_block Select MergeNone 0 0 4 5);
               (4%N, mk_block Select MergeNone 0 0 2 5);
               (5%N, mk_block Return MergeNone 0 0 0 0)].

(** The control flow of the program as the CFG sees it: [t] is a branch
    target of [f], or [f] is a loop header and [t] its merge block. *)
Definition flows_to (compiler : gmap N SPIRBlock) (f t : N) : Prop :=
  branches_to compiler f t ∨ implied_edge compiler f t.

(** [x] is reached from the entry block along branches and loop headers'
    implied edges without passing through [h]. *)
Inductive flow_avoiding (compiler : gmap N SPIRBlock) (entry h : N) : N → Prop :=
| fa_entry : entry ≠ h → flow_avoiding compiler entry h entry
| fa_step y x :
    flow_avoiding compiler entry h y → flows_to compiler y x → x ≠ h →
    flow_avoiding compiler entry h x.

(** [h] dominates [b] in this control flow: [b] is [h], or [b] is reached
    from the entry block only through [h]. *)
Definition flow_dominates (compiler : gmap N SPIRBlock) (entry h b : N) : Prop :=
  b = h ∨ ¬ flow_avoiding compiler entry h b.

(** * Properties *)

(** ** Outcomes *)

Lemma bind_Done {A B : Type} (m : outcome A) (k : A → outcome B) (b : B) :
  m ≫= k = Done b → ∃ a, m = Done a ∧ k a = Done b.
Proof. destruct m; simpl; intros H; try discriminate. eauto. Qed.

Ltac inv_bind H :=
  let x := fresh "x" in
  let Hx := fresh "Hx" in
  apply bind_Done in H; destruct H as (x & Hx & H).

(** ** The traversal function computes the traversal relation *)

Section Traversal.

Variable compiler : gmap N SPIRBlock.

Lemma branch_to_visits visit from t c c' :
  (∀ c t ok c', visit c t = Done (ok, c') → visits compiler c t ok c') →
  branch_to visit from t c = Done c' →
  ∃ ok c1, visits compiler c t ok c1 ∧
           c' = (if ok : bool then add_branch from t c1 else c1).
Proof.
  intros Hv H. unfold branch_to in H. inv_bind H. destruct x as [ok c1].
  injection H as <-. eauto.
Qed.

Lemma visit_cases_visits visit from cs c c' ts c'' :
  (∀ c t ok c', visit c t = Done (ok, c') → visits compiler c t ok c') →
  visit_cases visit from cs c = Done c' →
  visits_all compiler c' from ts c'' →
  visits_all compiler c from (map block cs ++ ts) c''.
Proof.
  intros Hv. revert c. induction cs as [|target cs IH]; simpl; intros c H Hts.
  - injection H as ->. done.
  - inv_bind H. destruct (branch_to_visits _ _ _ _ _ Hv Hx) as (ok & c1 & Hvis & ->).
    econstructor; eauto.
Qed.

Lemma visit_targets_visits visit from blk c c' :
  (∀ c t ok c', visit c t = Done (ok, c') → visits compiler c t ok c') →
  visit_targets visit from blk c = Done c' →
  visits_all compiler c from (branch_targets blk) c'.
Proof.
  intros Hv H. unfold visit_targets, branch_targets in *.
  destruct (terminator blk).
  - destruct (branch_to_visits _ _ _ _ _ Hv H) as (ok & c1 & Hvis & ->).
    econstructor; [done | constructor].
  - inv_bind H.
    destruct (branch_to_visits _ _ _ _ _ Hv Hx) as (ok & c1 & Hvis & ->).
    destruct (branch_to_visits _ _ _ _ _ Hv H) as (ok' & c2 & Hvis' & ->).
    econstructor; [done |]. econstructor; [done | constructor].
  - inv_bind H. eapply visit_cases_visits; [done.. |].
    case_bool_decide.
    + destruct (branch_to_visits _ _ _ _ _ Hv H) as (ok & c1 & Hvis & ->).
      econstructor; [done | constructor].
    + injection H as ->. constructor.
  - injection H as ->. constructor.
  - injection H as ->. constructor.
Qed.

Lemma post_order_visit_visits fuel c b ok c' :
  post_order_visit compiler fuel c b = Done (ok, c') → visits compiler c b ok c'.
Proof.
  revert c b ok c'. induction fuel as [|fuel IH]; intros c b ok c' H; [done |].
  simpl in H. destruct (Z.leb_spec 0 (default (-1) (visit_order c !! b))) as [Hle | Hlt].
  - unfold is_back_edge in H. destruct (visit_order c !! b) as [v|] eqn:Hv; [| done].
    simpl in H. injection H as <- <-. by constructor.
  - inv_bind H. unfold get_SPIRBlock in Hx.
    destruct (compiler !! b) as [blk|] eqn:Hblk; [| done]. injection Hx as <-.
    inv_bind H. injection H as <- <-.
    econstructor; [done.. |]. eapply visit_targets_visits; [| done]. apply IH.
Qed.

End Traversal.

(** ** Adjacency lists *)

Lemma elem_of_add_unique l v x : x ∈ add_unique l v ↔ x ∈ l ∨ x = v.
Proof.
  unfold add_unique. case_bool_decide.
  - split; [by left | intros [? | ->]; done].
  - rewrite elem_of_app, list_elem_of_singleton. done.
Qed.

Lemma NoDup_add_unique l v : NoDup l → NoDup (add_unique l v).
Proof.
  intros Hl. unfold add_unique. case_bool_decide; [done |].
  apply NoDup_app. split_and!; [done | | apply NoDup_singleton].
  intros x Hx ->%list_elem_of_singleton. done.
Qed.

Lemma preceding_add_branch from to c f t :
  f ∈ get_preceding_edges (add_branch from to c) t ↔
  f ∈ get_preceding_edges c t ∨ (f = from ∧ t = to).
Proof.
  unfold get_preceding_edges, add_branch; simpl.
  destruct (decide (t = to)) as [-> | Hne].
  - rewrite lookup_insert_eq; simpl. rewrite elem_of_add_unique. intuition congruence.
  - rewrite lookup_insert_ne by done. intuition congruence.
Qed.

Lemma succeeding_add_branch from to c f t :
  t ∈ get_succeeding_edges (add_branch from to c) f ↔
  t ∈ get_succeeding_edges c f ∨ (f = from ∧ t = to).
Proof.
  unfold get_succeeding_edges, add_branch; simpl.
  destruct (decide (f = from)) as [-> | Hne].
  - rewrite lookup_insert_eq; simpl. rewrite elem_of_add_unique. intuition congruence.
  - rewrite lookup_insert_ne by done. intuition congruence.
Qed.

Lemma edges_ok_add_branch from to c : edges_ok c → edges_ok (add_branch from to c).
Proof.
  intros (Hsym & Hp & Hs). split_and!.
  - intros f t. rewrite preceding_add_branch, succeeding_add_branch, Hsym. done.
  - intros b. unfold get_preceding_edges, add_branch; simpl.
    destruct (decide (b = to)) as [-> | Hne].
    + rewrite lookup_insert_eq; simpl. apply NoDup_add_unique, Hp.
    + rewrite lookup_insert_ne by done. apply Hp.
  - intros b. unfold get_succeeding_edges, add_branch; simpl.
    destruct (decide (b = from)) as [-> | Hne].
    + rewrite lookup_insert_eq; simpl. apply NoDup_add_unique, Hs.
    + rewrite lookup_insert_ne by done. apply Hs.
Qed.

Lemma edges_ok_empty : edges_ok CFG_empty.
Proof.
  split_and!; intros; unfold get_preceding_edges, get_succeeding_edges; simpl;
    rewrite ?lookup_empty; simpl; [| constructor..].
  split; intros H; inversion H.
Qed.

Lemma preceding_finish_block b blk c f t :
  f ∈ get_preceding_edges (finish_block b blk c) t ↔
  f ∈ get_preceding_edges c t ∨ (f = b ∧ merge blk = MergeLoop ∧ merge_block blk = t).
Proof.
  change (get_preceding_edges (finish_block b blk c) t) with
    (get_preceding_edges
       (match merge blk with MergeLoop => add_branch b (merge_block blk) c | _ => c end) t).
  destruct (merge blk); rewrite ?preceding_add_branch; intuition congruence.
Qed.

Lemma succeeding_finish_block b blk c f t :
  t ∈ get_succeeding_edges (finish_block b blk c) f ↔
  t ∈ get_succeeding_edges c f ∨ (f = b ∧ merge blk = MergeLoop ∧ merge_block blk = t).
Proof.
  change (get_succeeding_edges (finish_block b blk c) f) with
    (get_succeeding_edges
       (match merge blk with MergeLoop => add_branch b (merge_block blk) c | _ => c end) f).
  destruct (merge blk); rewrite ?succeeding_add_branch; intuition congruence.
Qed.

Lemma post_order_finish_block b blk c :
  post_order (finish_block b blk c) = post_order c ++ [b].
Proof. unfold finish_block. by destruct (merge blk). Qed.

Lemma visit_count_finish_block b blk c :
  visit_count (finish_block b blk c) = u32_incr (visit_count c).
Proof. unfold finish_block. by destruct (merge blk). Qed.

Lemma visit_order_finish_block b blk c :
  visit_order (finish_block b blk c) =
  <[b := int_of_u32 (u32_incr (visit_count c))]> (visit_order c).
Proof. unfold finish_block. by destruct (merge blk). Qed.

Lemma edges_ok_finish_block b blk c : edges_ok c → edges_ok (finish_block b blk c).
Proof.
  intros H.
  assert (edges_ok (match merge blk with
                    | MergeLoop => add_branch b (merge_block blk) c | _ => c end)) as H'.
  { destruct (merge blk); auto using edges_ok_add_branch. }
  exact H'.
Qed.

Section TraversalEdges.

Variable compiler : gmap N SPIRBlock.

(** Every step of the traversal keeps the adjacency lists well formed and
    only adds to them; a finished loop header has its implied edge. *)
Lemma visits_edges :
  (∀ c b ok c', visits compiler c b ok c' →
     edges_ok c → loop_edges_ok compiler c →
     edges_ok c' ∧ loop_edges_ok compiler c') ∧
  (∀ c from ts c', visits_all compiler c from ts c' →
     edges_ok c → loop_edges_ok compiler c →
     edges_ok c' ∧ loop_edges_ok compiler c').
Proof.
  apply (visits_mutind compiler
    (λ c b ok c', edges_ok c → loop_edges_ok compiler c →
       edges_ok c' ∧ loop_edges_ok compiler c')
    (λ c from ts c', edges_ok c → loop_edges_ok compiler c →
       edges_ok c' ∧ loop_edges_ok compiler c')).
  - done.
  - intros c b blk c1 Hlt Hblk _ IH He Hl.
    destruct IH as [He1 Hl1]; [exact He | exact Hl |]. split.
    + by apply edges_ok_finish_block.
    + intros x Hx t Himp. apply succeeding_finish_block.
      rewrite post_order_finish_block in Hx.
      apply elem_of_app in Hx as [Hx | ->%list_elem_of_singleton].
      * left. by apply Hl1.
      * destruct Himp as (blk' & Hblk' & Hm & Ht). right.
        rewrite Hblk in Hblk'. injection Hblk' as <-. done.
  - done.
  - intros c from t ts ok c1 c2 _ IH1 _ IH2 He Hl.
    destruct IH1 as [He1 Hl1]; [done.. |]. apply IH2.
    + destruct ok; auto using edges_ok_add_branch.
    + destruct ok; [| done]. intros x Hx t' Himp.
      apply succeeding_add_branch. left. by apply Hl1.
Qed.

End TraversalEdges.

(** ** Finishing order *)

Lemma visits_length compiler :
  (∀ c b ok c', visits compiler c b ok c' →
     (length (post_order c) ≤ length (post_order c'))%nat) ∧
  (∀ c from ts c', visits_all compiler c from ts c' →
     (length (post_order c) ≤ length (post_order c'))%nat).
Proof.
  apply (visits_mutind compiler
    (λ c b ok c', (length (post_order c) ≤ length (post_order c'))%nat)
    (λ c from ts c', (length (post_order c) ≤ length (post_order c'))%nat)).
  - done.
  - intros c b blk c1 _ _ _ IH. rewrite post_order_finish_block, length_app.
    simpl in *. lia.
  - done.
  - intros c from t ts ok c1 c2 _ IH1 _ IH2. destruct ok; simpl in *; lia.
Qed.

Lemma u32_incr_small n : 0 ≤ n < 2 ^ 31 - 1 → int_of_u32 (u32_incr n) = n + 1.
Proof.
  intros Hn. unfold int_of_u32, u32_incr.
  rewrite Z.mod_small by lia. destruct (Z.ltb_spec (n + 1) (2 ^ 31)); lia.
Qed.

Section TraversalOrder.

Variable compiler : gmap N SPIRBlock.

Lemma order_ok_unvisited c b :
  order_ok compiler c → default (-1) (visit_order c !! b) < 0 →
  visit_order c !! b = None.
Proof.
  intros Hok Hlt. destruct (visit_order c !! b) as [v|] eqn:Hv; [| done].
  simpl in Hlt. destruct (ok_visited _ _ Hok _ _ Hv) as [-> | (i & _ & ->)]; lia.
Qed.

Lemma order_ok_finished_pos c b :
  order_ok compiler c → b ∈ post_order c →
  ∃ v, visit_order c !! b = Some v ∧ 0 < v ≤ Z.of_nat (length (post_order c)).
Proof.
  intros Hok (i & Hi)%list_elem_of_lookup.
  exists (Z.of_nat i + 1). split; [by eapply ok_finished |].
  apply lookup_lt_Some in Hi. lia.
Qed.

Lemma order_ok_in_progress c b :
  order_ok compiler c → visit_order c !! b = Some 0 → b ∉ post_order c.
Proof.
  intros Hok H0 Hin. destruct (order_ok_finished_pos _ _ Hok Hin) as (v & Hv & ?).
  rewrite H0 in Hv. injection Hv as <-. lia.
Qed.

Lemma order_ok_positive c b v :
  order_ok compiler c → visit_order c !! b = Some v → 0 < v →
  b ∈ post_order c ∧ v ≤ Z.of_nat (length (post_order c)).
Proof.
  intros Hok Hv Hpos. destruct (ok_visited _ _ Hok _ _ Hv) as [-> | (i & Hi & ->)]; [lia |].
  split; [by eapply list_elem_of_lookup_2 |]. apply lookup_lt_Some in Hi. lia.
Qed.

(** Marking a block in progress. *)
Lemma order_ok_mark c b blk :
  order_ok compiler c → visit_order c !! b = None → compiler !! b = Some blk →
  order_ok compiler (set_visit_order c b 0).
Proof.
  intros Hok Hb Hblk.
  assert (∀ x v, visit_order c !! x = Some v →
                 visit_order (set_visit_order c b 0) !! x = Some v) as Hkeep.
  { intros x v Hx. simpl. rewrite lookup_insert_ne; [done | congruence]. }
  split; simpl.
  - apply Hok.
  - apply Hok.
  - intros i x Hi. apply (Hkeep x). by apply Hok.
  - intros x v. destruct (decide (b = x)) as [-> | Hne].
    + rewrite lookup_insert_eq. intros [= <-]. by left.
    + rewrite lookup_insert_ne by done. apply Hok.
  - intros x. destruct (decide (b = x)) as [-> | Hne].
    + by rewrite Hblk.
    + rewrite lookup_insert_ne by done. apply Hok.
  - intros f t Hft. destruct (ok_edges _ _ Hok _ _ Hft) as (vf & Hvf & Hcase).
    exists vf. split; [by apply (Hkeep f) |].
    destruct Hcase as [? | (vt & Hvt & ?)]; [by left | right].
    exists vt. split; [by apply (Hkeep t) | done].
Qed.

Lemma has_later_pred_mark c b x :
  visit_order c !! b = None → has_later_pred c x →
  has_later_pred (set_visit_order c b 0) x.
Proof.
  intros Hb (p & vx & vp & Hp & Hvx & Hvp & Hlater).
  exists p, vx, vp. simpl. rewrite !lookup_insert_ne by congruence. done.
Qed.

(** Recording the edge to a finished target while [from] is in progress. *)
Lemma order_ok_add_branch c from t :
  order_ok compiler c → visit_order c !! from = Some 0 → t ∈ post_order c →
  order_ok compiler (add_branch from t c).
Proof.
  intros Hok Hfrom Ht. split; try apply Hok.
  intros f t' [Hold | [-> ->]]%preceding_add_branch.
  - by apply (ok_edges _ _ Hok).
  - exists 0. split; [done | right].
    destruct (order_ok_finished_pos _ _ Hok Ht) as (vt & Hvt & ?).
    exists vt. split_and!; [done | lia | by left].
Qed.

Lemma has_later_pred_add_branch c from t x :
  has_later_pred c x → has_later_pred (add_branch from t c) x.
Proof.
  intros (p & vx & vp & Hp & Hrest). exists p, vx, vp.
  split; [| done]. apply preceding_add_branch. by left.
Qed.

Lemma has_later_pred_new c from t :
  order_ok compiler c → visit_order c !! from = Some 0 → t ∈ post_order c →
  has_later_pred (add_branch from t c) t.
Proof.
  intros Hok Hfrom Ht. destruct (order_ok_finished_pos _ _ Hok Ht) as (vt & Hvt & ?).
  exists from, vt, 0. split_and!; [| done | done | by left].
  apply preceding_add_branch. by right.
Qed.

(** Finishing a block. *)
Lemma order_ok_finish c b blk :
  order_ok compiler c → visit_order c !! b = Some 0 → compiler !! b = Some blk →
  Z.of_nat (length (post_order c)) < 2 ^ 31 - 1 →
  order_ok compiler (finish_block b blk c).
Proof.
  intros Hok Hb Hblk Hlen.
  pose proof (order_ok_in_progress _ _ Hok Hb) as Hnotin.
  assert (int_of_u32 (u32_incr (visit_count c)) =
          Z.of_nat (length (post_order c)) + 1) as Hn.
  { rewrite (ok_count _ _ Hok). apply u32_incr_small. lia. }
  split.
  - rewrite post_order_finish_block. apply NoDup_app.
    split_and!; [apply Hok | | apply NoDup_singleton].
    by intros x Hx ->%list_elem_of_singleton.
  - rewrite visit_count_finish_block, post_order_finish_block, length_app.
    rewrite (ok_count _ _ Hok). unfold u32_incr. rewrite Z.mod_small; simpl; lia.
  - intros i x. rewrite post_order_finish_block, visit_order_finish_block, Hn.
    intros Hi. destruct (decide (i < length (post_order c))%nat) as [Hlt | Hge].
    + rewrite lookup_app_l in Hi by done.
      rewrite lookup_insert_ne; [by apply Hok |].
      intros ->. apply Hnotin. by eapply list_elem_of_lookup_2.
    + rewrite lookup_app_r in Hi by lia.
      apply list_lookup_singleton_Some in Hi as [Hi <-].
      rewrite lookup_insert_eq. f_equal. lia.
  - intros x v. rewrite post_order_finish_block, visit_order_finish_block, Hn.
    destruct (decide (b = x)) as [-> | Hne].
    + rewrite lookup_insert_eq. intros [= <-]. right.
      exists (length (post_order c)). split; [| done].
      rewrite lookup_app_r by lia. by rewrite Nat.sub_diag.
    + rewrite lookup_insert_ne by done. intros Hv.
      destruct (ok_visited _ _ Hok _ _ Hv) as [-> | (i & Hi & ->)]; [by left | right].
      exists i. split; [| done]. by apply lookup_app_l_Some.
  - intros x. rewrite visit_order_finish_block.
    destruct (decide (b = x)) as [-> | Hne].
    + by rewrite Hblk.
    + rewrite lookup_insert_ne by done. apply Hok.
  - intros f t Hft. unfold edge_ordered.
    rewrite visit_order_finish_block, Hn.
    apply preceding_finish_block in Hft as [Hold | (-> & Hm & Ht)].
    + destruct (ok_edges _ _ Hok _ _ Hold) as (vf & Hvf & Hcase).
      assert (∀ vt, visit_order c !! t = Some vt → 0 < vt →
                <[b := Z.of_nat (length (post_order c)) + 1]> (visit_order c) !! t
                  = Some vt ∧ vt ≤ Z.of_nat (length (post_order c))) as Hkeep.
      { intros vt Hvt Hpos. split; [| by eapply order_ok_positive].
        rewrite lookup_insert_ne; [done |]. intros ->. rewrite Hb in Hvt.
        injection Hvt as <-. lia. }
      destruct (decide (b = f)) as [-> | Hne].
      * rewrite lookup_insert_eq. eexists; split; [done |].
        destruct Hcase as [? | (vt & Hvt & Hpos & _)]; [by left | right].
        destruct (Hkeep _ Hvt Hpos). exists vt. split_and!; [done.. | right; lia].
      * rewrite lookup_insert_ne by done. exists vf. split; [done |].
        destruct Hcase as [? | (vt & Hvt & Hpos & ?)]; [by left | right].
        destruct (Hkeep _ Hvt Hpos). exists vt. done.
    + rewrite lookup_insert_eq. eexists; split; [done | left].
      by exists blk.
Qed.

Lemma has_later_pred_finish c b blk x :
  order_ok compiler c → visit_order c !! b = Some 0 → x ∈ post_order c →
  Z.of_nat (length (post_order c)) < 2 ^ 31 - 1 →
  has_later_pred c x → has_later_pred (finish_block b blk c) x.
Proof.
  intros Hok Hb Hx Hlen (p & vx & vp & Hp & Hvx & Hvp & Hlater).
  assert (int_of_u32 (u32_incr (visit_count c)) =
          Z.of_nat (length (post_order c)) + 1) as Hn.
  { rewrite (ok_count _ _ Hok). apply u32_incr_small. lia. }
  destruct (order_ok_finished_pos _ _ Hok Hx) as (vx' & Hvx' & Hrange).
  rewrite Hvx in Hvx'. injection Hvx' as <-.
  assert (b ≠ x) as Hne by (intros ->; rewrite Hb in Hvx; injection Hvx as <-; lia).
  unfold has_later_pred. rewrite visit_order_finish_block, Hn.
  destruct (decide (b = p)) as [-> | Hnp].
  - exists p, vx, (Z.of_nat (length (post_order c)) + 1).
    rewrite lookup_insert_eq, lookup_insert_ne by done.
    split_and!; [apply preceding_finish_block; by left | done | done | right; lia].
  - exists p, vx, vp. rewrite !lookup_insert_ne by done.
    split_and!; [apply preceding_finish_block; by left | done..].
Qed.

(** A state with a block in progress has not finished every block of the
    store. *)
Lemma order_ok_room c b :
  order_ok compiler c → visit_order c !! b = Some 0 →
  (length (post_order c) < size compiler)%nat.
Proof.
  intros Hok Hb.
  assert (NoDup (b :: post_order c)) as Hnd.
  { constructor; [by eapply order_ok_in_progress | apply Hok]. }
  assert (b :: post_order c ⊆+ elements (dom compiler)) as Hsub.
  { apply NoDup_submseteq; [done |]. intros x Hx.
    apply elem_of_elements, elem_of_dom, (ok_blocks _ _ Hok).
    apply elem_of_cons in Hx as [-> | Hx]; [by rewrite Hb |].
    apply list_elem_of_lookup in Hx as [i Hi].
    by rewrite (ok_finished _ _ Hok _ _ Hi). }
  apply submseteq_length in Hsub. simpl in Hsub.
  change (length (elements (dom compiler))) with (size (dom compiler)) in Hsub.
  rewrite size_dom in Hsub. lia.
Qed.

(** The finished blocks are distinct blocks of the store. *)
Lemma finished_bounded c :
  order_ok compiler c → (length (post_order c) ≤ size compiler)%nat.
Proof.
  intros Hok.
  assert (post_order c ⊆+ elements (dom compiler)) as Hsub.
  { apply NoDup_submseteq; [apply Hok |]. intros x Hx.
    apply elem_of_elements, elem_of_dom, (ok_blocks _ _ Hok).
    apply list_elem_of_lookup in Hx as [i Hi].
    by rewrite (ok_finished _ _ Hok _ _ Hi). }
  apply submseteq_length in Hsub.
  change (length (elements (dom compiler))) with (size (dom compiler)) in Hsub.
  rewrite size_dom in Hsub. lia.
Qed.

Lemma post_order_branch (ok : bool) from t c :
  post_order (if ok then add_branch from t c else c) = post_order c.
Proof. by destruct ok. Qed.

Lemma visit_order_branch (ok : bool) from t c :
  visit_order (if ok then add_branch from t c else c) = visit_order c.
Proof. by destruct ok. Qed.

(** The invariant of the traversal.  A call leaves the bookkeeping well
    formed, leaves the same blocks in progress, answers [true] exactly for a
    target that is finished on return, and every finished block other than
    the target has a predecessor that finishes later. *)
Lemma visits_order :
  (∀ c t ok c', visits compiler c t ok c' →
     few_blocks compiler c' →
     order_ok compiler c → preds_ok c →
     order_ok compiler c' ∧
     (∀ x, visit_order c' !! x = Some 0 ↔ visit_order c !! x = Some 0) ∧
     (if ok then t ∈ post_order c' else c' = c ∧ visit_order c !! t = Some 0) ∧
     (∀ x, x ∈ post_order c' → x ≠ t → has_later_pred c' x)) ∧
  (∀ c from ts c', visits_all compiler c from ts c' →
     few_blocks compiler c' →
     order_ok compiler c → preds_ok c → visit_order c !! from = Some 0 →
     order_ok compiler c' ∧
     (∀ x, visit_order c' !! x = Some 0 ↔ visit_order c !! x = Some 0) ∧
     preds_ok c').
Proof.
  apply (visits_mutind compiler
    (λ c t ok c',
       few_blocks compiler c' →
       order_ok compiler c → preds_ok c →
       order_ok compiler c' ∧
       (∀ x, visit_order c' !! x = Some 0 ↔ visit_order c !! x = Some 0) ∧
       (if ok then t ∈ post_order c' else c' = c ∧ visit_order c !! t = Some 0) ∧
       (∀ x, x ∈ post_order c' → x ≠ t → has_later_pred c' x))
    (λ c from ts c',
       few_blocks compiler c' →
       order_ok compiler c → preds_ok c → visit_order c !! from = Some 0 →
       order_ok compiler c' ∧
       (∀ x, visit_order c' !! x = Some 0 ↔ visit_order c !! x = Some 0) ∧
       preds_ok c')).
  - (* already visited *)
    intros c b v Hv Hnonneg _ Hok Hpreds. split_and!; [done | done | | auto].
    destruct (Z.eqb_spec v 0) as [-> | Hne]; simpl; [done |].
    eapply order_ok_positive; [done.. | lia].
  - (* first visit *)
    intros c b blk c1 Hlt Hblk _ IH Hfew Hok Hpreds.
    unfold few_blocks in Hfew.
    rewrite post_order_finish_block, length_app in Hfew. simpl in Hfew.
    pose proof (order_ok_unvisited _ _ Hok Hlt) as Hb.
    destruct IH as (Hok1 & Hprog1 & Hpreds1).
    { destruct Hfew; [by left | right; lia]. }
    { by eapply order_ok_mark. }
    { intros x Hx. apply has_later_pred_mark; [done | by apply Hpreds]. }
    { simpl. apply lookup_insert_eq. }
    assert (visit_order c1 !! b = Some 0) as Hb1.
    { apply Hprog1. simpl. apply lookup_insert_eq. }
    assert (Z.of_nat (length (post_order c1)) < 2 ^ 31 - 1) as Hlen.
    { pose proof (order_ok_room _ _ Hok1 Hb1). lia. }
    split_and!.
    + eapply order_ok_finish; [done.. | lia].
    + intros x. rewrite visit_order_finish_block, (ok_count _ _ Hok1).
      rewrite u32_incr_small by lia.
      destruct (decide (b = x)) as [-> | Hne].
      * rewrite lookup_insert_eq, Hb. split; intros [=]. lia.
      * rewrite lookup_insert_ne, Hprog1 by done. simpl.
        by rewrite lookup_insert_ne.
    + rewrite post_order_finish_block, elem_of_app, list_elem_of_singleton. by right.
    + intros x Hx Hne. rewrite post_order_finish_block in Hx.
      apply elem_of_app in Hx as [Hx | ->%list_elem_of_singleton]; [| done].
      eapply has_later_pred_finish; [done.. | lia | by apply Hpreds1].
  - done.
  - (* one guarded call, then the remaining targets *)
    intros c from t ts ok c1 c2 _ IH1 Hrest IH2 Hfew Hok Hpreds Hfrom.
    pose proof (proj2 (visits_length compiler) _ _ _ _ Hrest) as Hmono.
    rewrite post_order_branch in Hmono.
    destruct IH1 as (Hok1 & Hprog1 & Hans & Hpreds1); [| done.. |].
    { destruct Hfew; [by left | right; lia]. }
    assert (visit_order c1 !! from = Some 0) as Hfrom1 by by apply Hprog1.
    destruct IH2 as (Hok2 & Hprog2 & Hpreds2); [done | | | | ].
    + destruct ok; [by apply order_ok_add_branch | done].
    + destruct ok.
      * intros x Hx. simpl in Hx. destruct (decide (x = t)) as [-> | Hne].
        -- by eapply has_later_pred_new.
        -- apply has_later_pred_add_branch. by apply Hpreds1.
      * destruct Hans as [-> _]. done.
    + by rewrite visit_order_branch.
    + split_and!; [done | | done].
      intros x. rewrite Hprog2, visit_order_branch. apply Hprog1.
Qed.

End TraversalOrder.

(** ** The state after the traversal *)

Section AfterTraversal.

Variable compiler : gmap N SPIRBlock.
Variable func : SPIRFunction.

Lemma order_ok_empty : order_ok compiler CFG_empty.
Proof.
  split; simpl; try done.
  - constructor.
  - intros b [v Hv]. by rewrite lookup_empty in Hv.
  - intros f t H. unfold get_preceding_edges in H. simpl in H.
    rewrite lookup_empty in H. inversion H.
Qed.

Lemma traversal_edges fuel c :
  build_post_order_visit_order compiler func fuel CFG_empty = Done c →
  edges_ok c ∧ loop_edges_ok compiler c.
Proof.
  unfold build_post_order_visit_order. intros H. inv_bind H.
  destruct x as [ok c']. injection H as ->.
  apply post_order_visit_visits in Hx.
  eapply (proj1 (visits_edges compiler)); [exact Hx | apply edges_ok_empty |].
  intros b Hb. inversion Hb.
Qed.

Lemma traversal_traversed fuel c :
  build_post_order_visit_order compiler func fuel CFG_empty = Done c →
  Z.of_nat (length (post_order c)) < 2 ^ 31 →
  traversed compiler (entry_block func) c.
Proof.
  unfold build_post_order_visit_order. intros H Hlen. inv_bind H.
  destruct x as [ok c']. injection H as ->.
  apply post_order_visit_visits in Hx.
  destruct (proj1 (visits_order compiler) _ _ _ _ Hx) as (Hok & Hprog & Hans & Hpreds);
    [by right | apply order_ok_empty | by intros x Hin; inversion Hin |].
  split; [done | | done | | done].
  - intros b v Hv. destruct (ok_visited _ _ Hok _ _ Hv) as [-> | (i & _ & ->)]; [| lia].
    apply Hprog in Hv. simpl in Hv. by rewrite lookup_empty in Hv.
  - inversion Hx as [? ? v Hv | ? ? blk c1 ? ? ?]; subst.
    + simpl in Hv. by rewrite lookup_empty in Hv.
    + rewrite post_order_finish_block. apply last_snoc.
Qed.

(** The same for a store with fewer than 2^31 blocks. *)
Lemma traversal_traversed_store fuel c :
  build_post_order_visit_order compiler func fuel CFG_empty = Done c →
  Z.of_nat (size compiler) < 2 ^ 31 →
  traversed compiler (entry_block func) c.
Proof.
  intros H Hsize. apply (traversal_traversed fuel c H).
  unfold build_post_order_visit_order in H. inv_bind H.
  destruct x as [ok c']. injection H as ->.
  apply post_order_visit_visits in Hx.
  destruct (proj1 (visits_order compiler) _ _ _ _ Hx) as (Hok & _);
    [by left | apply order_ok_empty | by intros x Hin; inversion Hin |].
  pose proof (finished_bounded _ _ Hok). lia.
Qed.

End AfterTraversal.

(** ** Finished states *)

Lemma graph_eq_refl c : graph_eq c c.
Proof. by split_and!. Qed.

Lemma graph_eq_trans c1 c2 c3 : graph_eq c1 c2 → graph_eq c2 c3 → graph_eq c1 c3.
Proof.
  intros (H1 & H2 & H3 & H4 & H5) (G1 & G2 & G3 & G4 & G5).
  split_and!; congruence.
Qed.

Lemma graph_eq_order c c' b : graph_eq c c' → order c' b = order c b.
Proof. intros (H1 & _). unfold order. by rewrite H1. Qed.

Lemma graph_eq_set_immediate_dominator c b d :
  graph_eq c (set_immediate_dominator c b d).
Proof. by split_and!. Qed.

Section Finished.

Variable compiler : gmap N SPIRBlock.
Variable entry : N.

Lemma traversed_graph_eq c c' :
  graph_eq c c' → traversed compiler entry c → traversed compiler entry c'.
Proof.
  intros (Hvo & Hpo & Hvc & Hs & Hp) [[H1 H2 H3 H4 H5 H6] Hd Hpr Hl Hsm].
  split; [split |..]; rewrite ?Hvo, ?Hpo, ?Hvc; try done.
  - intros f t. rewrite Hp. intros Hft. destruct (H6 f t Hft) as (vf & Hvf & Hcase).
    exists vf. rewrite Hvo. done.
  - intros x Hx Hne. destruct (Hpr x Hx Hne) as (q & vx & vp & Hq & Hrest).
    exists q, vx, vp. rewrite Hp, Hvo. done.
Qed.

Variable c : CFG.
Hypothesis Htr : traversed compiler entry c.

Lemma finished_order b :
  b ∈ post_order c →
  visit_order c !! b = Some (order c b) ∧
  0 < order c b ≤ Z.of_nat (length (post_order c)).
Proof.
  intros Hb. destruct (order_ok_finished_pos _ _ _ (tr_order _ _ _ Htr) Hb) as (v & Hv & ?).
  unfold order. rewrite Hv. done.
Qed.

Lemma visited_finished b : is_Some (visit_order c !! b) → b ∈ post_order c.
Proof.
  intros [v Hv]. eapply order_ok_positive; [apply Htr | done |].
  by eapply tr_done.
Qed.

Lemma unfinished_order b : b ∉ post_order c → visit_order c !! b = None.
Proof.
  intros Hb. destruct (visit_order c !! b) eqn:Hv; [| done].
  destruct Hb. apply visited_finished. by rewrite Hv.
Qed.

Lemma order_positive_finished b : 0 < order c b → b ∈ post_order c.
Proof.
  intros Hpos. apply visited_finished. unfold order in Hpos.
  destruct (visit_order c !! b); [done | simpl in Hpos; lia].
Qed.

Lemma order_inj a b :
  a ∈ post_order c → b ∈ post_order c → order c a = order c b → a = b.
Proof.
  intros Ha Hb Heq.
  destruct (finished_order a Ha) as [Hva Hra], (finished_order b Hb) as [Hvb _].
  destruct (ok_visited _ _ (tr_order _ _ _ Htr) _ _ Hva) as [? | (i & Hi & Hei)]; [lia |].
  destruct (ok_visited _ _ (tr_order _ _ _ Htr) _ _ Hvb) as [? | (j & Hj & Hej)]; [lia |].
  assert (i = j) as -> by lia. congruence.
Qed.

Lemma order_entry :
  entry ∈ post_order c ∧ order c entry = Z.of_nat (length (post_order c)).
Proof.
  pose proof (tr_last _ _ _ Htr) as Hl. apply last_Some in Hl as [l Hl].
  split; [rewrite Hl, elem_of_app, list_elem_of_singleton; by right |].
  assert (post_order c !! length l = Some entry) as Hi.
  { rewrite Hl, lookup_app_r, Nat.sub_diag by lia. done. }
  apply (ok_finished _ _ (tr_order _ _ _ Htr)) in Hi. unfold order. rewrite Hi.
  rewrite Hl, length_app. simpl. lia.
Qed.

Lemma get_visit_order_finished b :
  b ∈ post_order c → get_visit_order c b = Done (order c b).
Proof.
  intros Hb. destruct (finished_order b Hb) as [Hv Hr].
  unfold get_visit_order. rewrite Hv. f_equal. unfold u32_of_int.
  pose proof (tr_small _ _ _ Htr). apply Z.mod_small. lia.
Qed.

Lemma get_visit_order_unfinished b :
  b ∉ post_order c → get_visit_order c b = AssertionFailed.
Proof. intros Hb. unfold get_visit_order. by rewrite unfinished_order. Qed.

Lemma finished_block b : b ∈ post_order c → is_Some (compiler !! b).
Proof.
  intros Hb. apply (ok_blocks _ _ (tr_order _ _ _ Htr)).
  destruct (finished_order b Hb) as [Hv _]. by rewrite Hv.
Qed.

Lemma finished_nonzero b : compiler !! 0%N = None → b ∈ post_order c → b ≠ 0%N.
Proof. intros Hz Hb ->. apply finished_block in Hb as [? Hb]. congruence. Qed.

(** A recorded predecessor is a finished block; the pair is a loop
    header's implied edge or the predecessor finished later. *)
Lemma finished_pred p b :
  p ∈ get_preceding_edges c b →
  p ∈ post_order c ∧
  (implied_edge compiler p b ∨ (b ∈ post_order c ∧ order c b < order c p)).
Proof.
  intros Hp. destruct (ok_edges _ _ (tr_order _ _ _ Htr) _ _ Hp) as (vf & Hvf & Hcase).
  assert (p ∈ post_order c) as Hpin by (apply visited_finished; by rewrite Hvf).
  split; [done |]. destruct Hcase as [? | (vt & Hvt & Hpos & Hlt)]; [by left | right].
  pose proof (tr_done _ _ _ Htr _ _ Hvf).
  unfold order. rewrite Hvf, Hvt. simpl.
  split; [apply visited_finished; by rewrite Hvt | lia].
Qed.

Lemma finished_later_pred b :
  b ∈ post_order c → b ≠ entry →
  ∃ p, p ∈ get_preceding_edges c b ∧ p ∈ post_order c ∧ order c b < order c p.
Proof.
  intros Hb Hne. destruct (tr_preds _ _ _ Htr b Hb Hne) as (p & vx & vp & Hp & Hvx & Hvp & Hl).
  exists p. split; [done |]. split; [apply visited_finished; by rewrite Hvp |].
  pose proof (tr_done _ _ _ Htr _ _ Hvp). unfold order. rewrite Hvx, Hvp. simpl. lia.
Qed.

End Finished.

(** ** Immediate dominators *)

Lemma find_common_dominator_same fuel c a : find_common_dominator fuel c a a = Done a.
Proof. destruct fuel; simpl; by rewrite bool_decide_eq_true_2. Qed.

(** The result of [find_common_dominator] lies on the dominator chains of
    both arguments. *)
Lemma find_common_dominator_chain fuel c a b r :
  find_common_dominator fuel c a b = Done r →
  rtc (idom_step c) a r ∧ rtc (idom_step c) b r.
Proof.
  revert a b. induction fuel as [|fuel IH]; intros a b; simpl;
    case_bool_decide as Hab; try done.
  - intros [= <-]. by subst.
  - intros [= <-]. by subst.
  - intros H. inv_bind H. inv_bind H. destruct (x <? x0).
    + destruct (IH _ _ H) as [Ha Hb]. split; [| done]. by eapply rtc_l.
    + destruct (IH _ _ H) as [Ha Hb]. split; [done |]. by eapply rtc_l.
Qed.

Lemma fold_predecessors_seed fuel b p pred c :
  get_immediate_dominator c b = 0%N →
  fold_predecessors fuel b (p :: pred) c =
  fold_predecessors fuel b pred (set_immediate_dominator c b p).
Proof. intros H. simpl. rewrite bool_decide_eq_false_2; [done | by intros []]. Qed.

Lemma fold_predecessors_fold fuel b p pred c :
  get_immediate_dominator c b ≠ 0%N →
  fold_predecessors fuel b (p :: pred) c =
  if bool_decide (get_immediate_dominator c p ≠ 0%N)
  then d ← find_common_dominator fuel c b p;
       fold_predecessors fuel b pred (set_immediate_dominator c b d)
  else AssertionFailed.
Proof.
  intros H. simpl. rewrite bool_decide_eq_true_2 by done.
  case_bool_decide; [| done]. by destruct (find_common_dominator fuel c b p).
Qed.

Section Dominators.

Variable compiler : gmap N SPIRBlock.
Variable entry : N.
Hypothesis Hzero : compiler !! 0%N = None.

(** Above the processed threshold the dominator chains only climb. *)
Lemma chain_climbs c k p r :
  (∀ x, x ∈ post_order c → k < order c x →
        ∃ d, immediate_dominators c !! x = Some d ∧ d ∈ post_order c ∧
             order c x ≤ order c d) →
  rtc (idom_step c) p r → p ∈ post_order c → k < order c p →
  r ∈ post_order c ∧ order c p ≤ order c r.
Proof.
  intros Hclosed Hrtc. induction Hrtc as [x | x y z Hstep _ IH]; intros Hx Hk.
  - split; [done | lia].
  - destruct (Hclosed x Hx Hk) as (d & Hd & Hdin & Hle).
    unfold idom_step, get_immediate_dominator in Hstep. rewrite Hd in Hstep.
    simpl in Hstep. subst y. destruct IH as [Hz Hle']; [done | lia |].
    split; [done | lia].
Qed.

Section OneBlock.

Variable b : N.
Variable k : Z.

Lemma folding_set c d :
  folding compiler entry b k c →
  folding compiler entry b k (set_immediate_dominator c b d).
Proof.
  intros [Htr Hb Hk Hclimb Hkeys]. split; try done.
  - by eapply traversed_graph_eq; [apply graph_eq_set_immediate_dominator |].
  - intros x Hx Hlt. simpl. rewrite lookup_insert_ne; [by apply Hclimb |].
    intros <-. change (order (set_immediate_dominator c b d) b) with (order c b) in Hlt.
    lia.
  - intros x. simpl. destruct (decide (b = x)) as [-> | Hne]; [by auto |].
    rewrite lookup_insert_ne by done. apply Hkeys.
Qed.

(** A predecessor whose dominator is known is [b] itself or was processed
    before [b]; folding it in leaves a dominator of no smaller order. *)
Lemma fold_step fuel c p r :
  folding compiler entry b k c → is_Some (immediate_dominators c !! p) →
  find_common_dominator fuel c b p = Done r →
  r ∈ post_order c ∧ order c b ≤ order c r.
Proof.
  intros [Htr Hb Hk Hclimb Hkeys] Hp Hr.
  destruct (decide (p = b)) as [-> | Hne].
  { rewrite find_common_dominator_same in Hr. injection Hr as <-. split; [done | lia]. }
  destruct (order_entry _ _ _ Htr) as [Hein Heord].
  assert (p ∈ post_order c ∧ k < order c p) as [Hpin Hpk].
  { destruct (Hkeys p Hp) as [-> | [Hlt | ->]]; [| | done].
    - split; [done |]. destruct (finished_order _ _ _ Htr b Hb) as [_ Hrange].
      destruct (decide (order c b = order c entry)) as [Heq | Hneq]; [| lia].
      destruct Hne. symmetry. by eapply order_inj.
    - split; [| done]. eapply order_positive_finished; [done |].
      destruct (finished_order _ _ _ Htr b Hb). lia. }
  apply find_common_dominator_chain in Hr as [_ Hchain].
  destruct (chain_climbs c k p r Hclimb Hchain Hpin Hpk). split; [done | lia].
Qed.

Lemma fold_predecessors_settles fuel pred c c' :
  folding compiler entry b k c →
  (∃ d, immediate_dominators c !! b = Some d ∧ d ≠ 0%N ∧
        (pred = [] → d ∈ post_order c ∧ order c b ≤ order c d)) →
  fold_predecessors fuel b pred c = Done c' →
  graph_eq c c' ∧ folding compiler entry b k c' ∧ settled b c' ∧
  (∀ x, x ≠ b → immediate_dominators c' !! x = immediate_dominators c !! x).
Proof.
  revert c. induction pred as [|p pred IH]; intros c Hf (d & Hd & Hnz & Hlast).
  - simpl. intros [= <-]. split_and!; [apply graph_eq_refl | done | | done].
    exists d. destruct Hlast; done.
  - rewrite fold_predecessors_fold
      by (unfold get_immediate_dominator; by rewrite Hd).
    case_bool_decide as Hp; [| done]. intros H. inv_bind H.
    assert (is_Some (immediate_dominators c !! p)) as Hkey.
    { unfold get_immediate_dominator in Hp.
      destruct (immediate_dominators c !! p); [done | by destruct Hp]. }
    destruct (fold_step _ _ _ _ Hf Hkey Hx) as [Hrin Hrle].
    destruct (IH (set_immediate_dominator c b x)) as (Hg & Hf' & Hs & Hother);
      [by apply folding_set | | done |].
    { exists x. simpl. rewrite lookup_insert_eq. split_and!; [done | | done].
      eapply finished_nonzero; [apply Hf | done..]. }
    split_and!; [| done | done |].
    + eapply graph_eq_trans; [apply graph_eq_set_immediate_dominator | done].
    + intros y Hy. rewrite Hother by done. simpl. by rewrite lookup_insert_ne.
Qed.

End OneBlock.

Lemma graph_eq_touch c b :
  graph_eq c
    {| preceding_edges := <[b := default [] (preceding_edges c !! b)]> (preceding_edges c);
       succeeding_edges := succeeding_edges c;
       immediate_dominators := immediate_dominators c;
       visit_order := visit_order c;
       post_order := post_order c;
       visit_count := visit_count c |}.
Proof.
  split_and!; try done. intros x. unfold get_preceding_edges; simpl.
  destruct (decide (b = x)) as [-> | Hne].
  - by rewrite lookup_insert_eq.
  - by rewrite lookup_insert_ne.
Qed.

Lemma idoms_ok_graph_eq k c c' :
  graph_eq c c' → immediate_dominators c' = immediate_dominators c →
  idoms_ok entry k c → idoms_ok entry k c'.
Proof.
  intros Hg Hi [H1 H2 H3]. pose proof Hg as (Hvo & Hpo & _).
  split; rewrite ?Hi, ?Hpo; try done.
  - intros x. rewrite (graph_eq_order _ _ _ Hg). apply H2.
  - intros x. rewrite !(graph_eq_order _ _ _ Hg). intros Hx Hk.
    destruct (H3 x Hx Hk) as (d & ? & ? & ?). exists d.
    by rewrite (graph_eq_order _ _ _ Hg).
Qed.

(** One iteration of the outer loop of [build_immediate_dominators]. *)
Lemma dominate_block_ok fuel b c c' :
  traversed compiler entry c → b ∈ post_order c →
  idoms_ok entry (order c b) c →
  dominate_block fuel b c = Done c' →
  graph_eq c c' ∧ idoms_ok entry (order c b - 1) c'.
Proof.
  intros Htr Hb Hio. unfold dominate_block.
  set (c0 := {| preceding_edges := _ |}).
  assert (graph_eq c c0) as Hg0 by apply graph_eq_touch.
  assert (idoms_ok entry (order c b) c0) as Hio0 by by eapply idoms_ok_graph_eq.
  assert (traversed compiler entry c0) as Htr0 by by eapply traversed_graph_eq.
  assert (folding compiler entry b (order c b) c0) as Hf0.
  { split; try done.
    - apply Hio0.
    - intros x Hx. destruct (io_keys _ _ _ Hio0 x Hx); auto. }
  assert (∀ c1, graph_eq c0 c1 → folding compiler entry b (order c b) c1 →
     settled b c1 →
     (∀ x, x ≠ b → immediate_dominators c1 !! x = immediate_dominators c0 !! x) →
     graph_eq c c1 ∧ idoms_ok entry (order c b - 1) c1) as Hfinish.
  { intros c1 Hg1 Hf1 (d & Hd & Hdin & Hdle) Hother.
    split; [by eapply graph_eq_trans |].
    pose proof (fo_traversed _ _ _ _ _ Hf1) as Htr1.
    pose proof (fo_order _ _ _ _ _ Hf1) as Hord1.
    split.
    - destruct (decide (entry = b)) as [-> | Hne].
      + rewrite Hd. f_equal. destruct (order_entry _ _ _ Htr1) as [Hein Heord].
        destruct (finished_order _ _ _ Htr1 d Hdin) as [_ Hrange].
        eapply order_inj; [done.. | lia].
      + rewrite Hother by done. apply Hio0.
    - intros x Hx. destruct (fo_keys _ _ _ _ _ Hf1 x Hx) as [-> | [Hlt | ->]]; [by left | | ].
      + right. lia.
      + right. lia.
    - intros x Hx Hk. destruct (decide (x = b)) as [-> | Hne].
      + by exists d.
      + apply (fo_climb _ _ _ _ _ Hf1); [done |].
        destruct (decide (order c1 x = order c1 b)) as [Heq | Hneq]; [| lia].
        destruct Hne. eapply order_inj; [done.. | apply Hf1 | done]. }
  destruct (default [] (preceding_edges c !! b)) as [|p pred] eqn:Hpred.
  - intros [= <-]. apply Hfinish; [apply graph_eq_refl | done | | done].
    destruct (decide (b = entry)) as [-> | Hne].
    + exists entry. split_and!; [apply Hio0 | by apply (order_entry _ _ _ Htr0) | lia].
    + destruct (finished_later_pred _ _ _ Htr b Hb Hne) as (q & Hq & _).
      unfold get_preceding_edges in Hq. rewrite Hpred in Hq. inversion Hq.
  - destruct (decide (b = entry)) as [-> | Hne].
    + intros H. eapply fold_predecessors_settles in H as (Hg & Hf & Hs & Hother);
        [by apply Hfinish | done |].
      exists entry. split_and!; [apply Hio0 | | done].
      eapply finished_nonzero; [done.. |]. by apply (order_entry _ _ _ Htr0).
    + assert (immediate_dominators c0 !! b = None) as Hnone.
      { destruct (immediate_dominators c0 !! b) eqn:Hi; [| done].
        destruct (io_keys _ _ _ Hio0 b) as [? | Hlt]; [by rewrite Hi | done |].
        rewrite (graph_eq_order _ _ _ Hg0) in Hlt. lia. }
      rewrite fold_predecessors_seed
        by (unfold get_immediate_dominator; by rewrite Hnone).
      intros H.
      assert (p ∈ get_preceding_edges c b) as Hp.
      { unfold get_preceding_edges. rewrite Hpred. by left. }
      destruct (finished_pred _ _ _ Htr _ _ Hp) as [Hpin _].
      eapply fold_predecessors_settles in H as (Hg & Hf & Hs & Hother).
      * apply Hfinish; [| done | done |].
        -- eapply graph_eq_trans; [apply graph_eq_set_immediate_dominator | done].
        -- intros y Hy. rewrite Hother by done. simpl. by rewrite lookup_insert_ne.
      * by apply folding_set.
      * exists p. simpl. rewrite lookup_insert_eq. split_and!; [done | | ].
        -- by eapply finished_nonzero.
        -- intros ->. split; [done |].
           destruct (finished_later_pred _ _ _ Htr b Hb Hne) as (q & Hq & _ & Hlt).
           unfold get_preceding_edges in Hq. rewrite Hpred in Hq.
           apply list_elem_of_singleton in Hq as ->.
           change (order c b ≤ order c p). lia.
Qed.

Lemma dominate_blocks_ok fuel l suf c c' :
  post_order c = rev l ++ suf →
  traversed compiler entry c →
  idoms_ok entry (Z.of_nat (length l)) c →
  dominate_blocks fuel l c = Done c' →
  graph_eq c c' ∧ idoms_ok entry 0 c'.
Proof.
  revert suf c. induction l as [|b l IH]; intros suf c Hpo Htr Hio; simpl.
  - intros [= <-]. split; [apply graph_eq_refl | done].
  - intros H. inv_bind H.
    assert (post_order c !! length l = Some b) as Hi.
    { rewrite Hpo. simpl. rewrite <- app_assoc, lookup_app_r, length_rev by (rewrite length_rev; lia).
      by rewrite Nat.sub_diag. }
    assert (b ∈ post_order c) as Hb by by eapply list_elem_of_lookup_2.
    assert (order c b = Z.of_nat (S (length l))) as Hord.
    { unfold order. rewrite (ok_finished _ _ (tr_order _ _ _ Htr) _ _ Hi). simpl. lia. }
    simpl in Hio. rewrite <- Hord in Hio.
    destruct (dominate_block_ok _ _ _ _ Htr Hb Hio Hx) as [Hg Hio'].
    destruct (IH (b :: suf) x) as [Hg' Hio'']; [| | | done |].
    + destruct Hg as (_ & -> & _). rewrite Hpo. simpl. by rewrite <- app_assoc.
    + by eapply traversed_graph_eq.
    + replace (Z.of_nat (length l)) with (order c b - 1) by lia. done.
    + split; [by eapply graph_eq_trans | done].
Qed.

Lemma build_immediate_dominators_ok fuel c c' :
  traversed compiler entry c →
  build_immediate_dominators {| entry_block := entry |} fuel c = Done c' →
  graph_eq c c' ∧ idoms_ok entry 0 c'.
Proof.
  intros Htr. unfold build_immediate_dominators.
  set (c0 := {| preceding_edges := _ |}). intros H.
  assert (graph_eq c c0) as Hg0 by by split_and!.
  eapply (dominate_blocks_ok _ _ []) in H as [Hg Hio].
  - split; [by eapply graph_eq_trans | done].
  - by rewrite rev_involutive, app_nil_r.
  - by eapply traversed_graph_eq.
  - rewrite length_rev. split.
    + simpl. apply lookup_singleton_eq.
    + intros b [d Hd]. simpl in Hd. apply lookup_singleton_Some in Hd as [<- _]. by left.
    + intros b Hb Hlt. destruct (finished_order _ _ _ Htr b Hb) as [_ Hr].
      change (order c0 b) with (order c b) in Hlt. simpl in Hlt. lia.
Qed.

End Dominators.

(** [build_immediate_dominators] leaves the graph and the finishing order
    as the traversal built them. *)
Lemma fold_predecessors_graph_eq fuel b pred c c' :
  fold_predecessors fuel b pred c = Done c' → graph_eq c c'.
Proof.
  revert c. induction pred as [|p pred IH]; intros c; simpl.
  - intros [= <-]. apply graph_eq_refl.
  - intros H. inv_bind H. apply IH in H. eapply graph_eq_trans; [| done].
    case_bool_decide.
    + case_bool_decide; [| done]. inv_bind Hx. injection Hx as <-.
      apply graph_eq_set_immediate_dominator.
    + injection Hx as <-. apply graph_eq_set_immediate_dominator.
Qed.

Lemma dominate_blocks_graph_eq fuel l c c' :
  dominate_blocks fuel l c = Done c' → graph_eq c c'.
Proof.
  revert c. induction l as [|b l IH]; intros c; simpl.
  - intros [= <-]. apply graph_eq_refl.
  - intros H. inv_bind H. apply IH in H. eapply graph_eq_trans; [| done].
    unfold dominate_block in Hx.
    destruct (default [] (preceding_edges c !! b)) eqn:Hpred.
    + injection Hx as <-. rewrite <- Hpred. apply graph_eq_touch.
    + apply fold_predecessors_graph_eq in Hx.
      eapply graph_eq_trans; [| done]. rewrite <- Hpred. apply graph_eq_touch.
Qed.

Lemma build_immediate_dominators_graph_eq func fuel c c' :
  build_immediate_dominators func fuel c = Done c' → graph_eq c c'.
Proof.
  intros H. apply dominate_blocks_graph_eq in H.
  eapply graph_eq_trans; [| done]. by split_and!.
Qed.

Lemma edges_ok_graph_eq c c' : graph_eq c c' → edges_ok c → edges_ok c'.
Proof.
  intros (_ & _ & _ & Hs & Hp) (H1 & H2 & H3). unfold edges_ok, get_succeeding_edges.
  rewrite Hs. split_and!; [| | done].
  - intros f t. rewrite Hp. apply H1.
  - intros b. rewrite Hp. apply H2.
Qed.

Lemma loop_edges_ok_graph_eq compiler c c' :
  graph_eq c c' → loop_edges_ok compiler c → loop_edges_ok compiler c'.
Proof.
  intros (_ & Hpo & _ & Hs & _) H. unfold loop_edges_ok, get_succeeding_edges.
  rewrite Hs, Hpo. done.
Qed.

(** ** The constructed CFG *)

Section Constructed.

Variable compiler : gmap N SPIRBlock.
Variable func : SPIRFunction.
Variable fuel : nat.
Variable cfg : CFG.
Hypothesis Hnew : CFG_new compiler func fuel = Done cfg.

Lemma CFG_new_phases :
  ∃ c, build_post_order_visit_order compiler func fuel CFG_empty = Done c ∧
       build_immediate_dominators func fuel c = Done cfg ∧ graph_eq c cfg.
Proof.
  pose proof Hnew as H. unfold CFG_new in H. inv_bind H. exists x.
  split_and!; [done.. |]. by eapply build_immediate_dominators_graph_eq.
Qed.

Lemma constructed_edges : edges_ok cfg ∧ loop_edges_ok compiler cfg.
Proof.
  destruct CFG_new_phases as (c & Hc & _ & Hg).
  destruct (traversal_edges _ _ _ _ Hc).
  split; [by eapply edges_ok_graph_eq | by eapply loop_edges_ok_graph_eq].
Qed.

Hypothesis Hsmall : Z.of_nat (length (post_order cfg)) < 2 ^ 31.

Lemma constructed_traversed : traversed compiler (entry_block func) cfg.
Proof.
  destruct CFG_new_phases as (c & Hc & _ & Hg).
  eapply traversed_graph_eq; [done |]. eapply traversal_traversed; [done |].
  destruct Hg as (_ & <- & _). done.
Qed.

Hypothesis Hzero : compiler !! 0%N = None.

Lemma constructed_idoms : idoms_ok (entry_block func) 0 cfg.
Proof.
  destruct CFG_new_phases as (c & Hc & Hd & Hg).
  eapply build_immediate_dominators_ok; [done | | by destruct func].
  eapply traversal_traversed; [done |]. destruct Hg as (_ & <- & _). done.
Qed.

End Constructed.

(** ** The recursion budget *)

Lemma find_common_dominator_more_fuel n m c a b r :
  find_common_dominator n c a b = Done r → (n ≤ m)%nat →
  find_common_dominator m c a b = Done r.
Proof.
  revert m a b. induction n as [|n IH]; intros m a b; simpl.
  - case_bool_decide; [| done]. intros [= <-] _.
    destruct m; simpl; by rewrite bool_decide_eq_true_2.
  - case_bool_decide as Hab.
    { intros [= <-] _. destruct m; simpl; by rewrite bool_decide_eq_true_2. }
    intros H Hle. destruct m as [|m]; [lia |]. simpl.
    rewrite bool_decide_eq_false_2 by done.
    destruct (get_visit_order c a) as [va | | |]; try done.
    destruct (get_visit_order c b) as [vb | | |]; try done. simpl in *.
    destruct (va <? vb); apply IH; (done || lia).
Qed.

Section Budget.

Variable compiler : gmap N SPIRBlock.

Lemma branch_to_extends visit visit' from t c c' :
  extends visit visit' →
  branch_to visit from t c = Done c' → branch_to visit' from t c = Done c'.
Proof.
  intros He H. unfold branch_to in *. inv_bind H. by rewrite (He _ _ _ Hx).
Qed.

Lemma visit_cases_extends visit visit' from cs c c' :
  extends visit visit' →
  visit_cases visit from cs c = Done c' → visit_cases visit' from cs c = Done c'.
Proof.
  intros He. revert c. induction cs as [|target cs IH]; intros c; simpl; [done |].
  intros H. inv_bind H. rewrite (branch_to_extends _ _ _ _ _ _ He Hx). simpl. by apply IH.
Qed.

Lemma visit_targets_extends visit visit' from blk c c' :
  extends visit visit' →
  visit_targets visit from blk c = Done c' → visit_targets visit' from blk c = Done c'.
Proof.
  intros He. unfold visit_targets. destruct (terminator blk); try done.
  - by apply (branch_to_extends visit).
  - intros H. inv_bind H. rewrite (branch_to_extends _ _ _ _ _ _ He Hx). simpl.
    by apply (branch_to_extends visit).
  - intros H. inv_bind H. rewrite (visit_cases_extends _ _ _ _ _ _ He Hx). simpl.
    case_bool_decide; [by apply (branch_to_extends visit) | done].
Qed.

Lemma post_order_visit_more_fuel n m :
  (n ≤ m)%nat → extends (post_order_visit compiler n) (post_order_visit compiler m).
Proof.
  revert m. induction n as [|n IH]; intros m Hle c b r; [done |].
  destruct m as [|m]; [lia |]. simpl.
  destruct (0 <=? default (-1) (visit_order c !! b)); [done |].
  intros H. inv_bind H. rewrite Hx. simpl. inv_bind H.
  rewrite (visit_targets_extends _ _ _ _ _ _ (IH m ltac:(lia)) Hx0). done.
Qed.

End Budget.

Lemma fold_predecessors_more_fuel n m b pred c c' :
  fold_predecessors n b pred c = Done c' → (n ≤ m)%nat →
  fold_predecessors m b pred c = Done c'.
Proof.
  intros H Hle. revert c H. induction pred as [|p pred IH]; intros c; simpl; [done |].
  intros H. inv_bind H.
  assert ((if bool_decide (get_immediate_dominator c b ≠ 0%N)
           then if bool_decide (get_immediate_dominator c p ≠ 0%N)
                then d ← find_common_dominator m c b p;
                     Done (set_immediate_dominator c b d)
                else AssertionFailed
           else Done (set_immediate_dominator c b p)) = Done x) as ->.
  { repeat case_bool_decide; try done. inv_bind Hx.
    by rewrite (find_common_dominator_more_fuel _ _ _ _ _ _ Hx0 Hle). }
  simpl. by apply IH.
Qed.

Lemma dominate_blocks_more_fuel n m l c c' :
  dominate_blocks n l c = Done c' → (n ≤ m)%nat →
  dominate_blocks m l c = Done c'.
Proof.
  intros H Hle. revert c H. induction l as [|b l IH]; intros c; simpl; [done |].
  intros H. inv_bind H.
  assert (dominate_block m b c = Done x) as ->.
  { unfold dominate_block in *. destruct (default [] (preceding_edges c !! b)); [done |].
    by eapply fold_predecessors_more_fuel. }
  simpl. by apply IH.
Qed.

(** A construction that completes gives the same CFG with any larger
    budget. *)
Lemma CFG_new_more_fuel compiler func n m cfg :
  CFG_new compiler func n = Done cfg → (n ≤ m)%nat →
  CFG_new compiler func m = Done cfg.
Proof.
  unfold CFG_new, build_post_order_visit_order, build_immediate_dominators.
  intros H Hle. inv_bind H. inv_bind Hx. destruct x0 as [ok c']. injection Hx as <-.
  rewrite (post_order_visit_more_fuel compiler n m Hle _ _ _ Hx0). simpl.
  by eapply dominate_blocks_more_fuel.
Qed.

Lemma CFG_new_deterministic compiler func n m cfg cfg' :
  CFG_new compiler func n = Done cfg → CFG_new compiler func m = Done cfg' →
  cfg = cfg'.
Proof.
  intros Hn Hm. destruct (Nat.le_ge_cases n m) as [Hle | Hle].
  - rewrite (CFG_new_more_fuel _ _ _ _ _ Hn Hle) in Hm. congruence.
  - rewrite (CFG_new_more_fuel _ _ _ _ _ Hm Hle) in Hn. congruence.
Qed.

(** ** Branch targets are visited *)

Section TraversalTargets.

Variable compiler : gmap N SPIRBlock.

Lemma visits_targets :
  (∀ c b ok c', visits compiler c b ok c' →
     (∀ x, is_Some (visit_order c !! x) → is_Some (visit_order c' !! x)) ∧
     is_Some (visit_order c' !! b) ∧
     (targets_ok compiler c → targets_ok compiler c')) ∧
  (∀ c from ts c', visits_all compiler c from ts c' →
     (∀ x, is_Some (visit_order c !! x) → is_Some (visit_order c' !! x)) ∧
     (∀ t, t ∈ ts → is_Some (visit_order c' !! t)) ∧
     (targets_ok compiler c → targets_ok compiler c')).
Proof.
  apply (visits_mutind compiler
    (λ c b ok c',
       (∀ x, is_Some (visit_order c !! x) → is_Some (visit_order c' !! x)) ∧
       is_Some (visit_order c' !! b) ∧
       (targets_ok compiler c → targets_ok compiler c'))
    (λ c from ts c',
       (∀ x, is_Some (visit_order c !! x) → is_Some (visit_order c' !! x)) ∧
       (∀ t, t ∈ ts → is_Some (visit_order c' !! t)) ∧
       (targets_ok compiler c → targets_ok compiler c'))).
  - intros c b v Hv _. split_and!; [done | by rewrite Hv | done].
  - intros c b blk c1 _ Hblk _ (Hmono & Hts & Hok).
    assert (∀ x, is_Some (visit_order c !! x) →
                 is_Some (visit_order (set_visit_order c b 0) !! x)) as Hmark.
    { intros x Hx. simpl. destruct (decide (b = x)) as [-> | Hne].
      - by rewrite lookup_insert_eq.
      - by rewrite lookup_insert_ne. }
    assert (∀ x, is_Some (visit_order c1 !! x) →
                 is_Some (visit_order (finish_block b blk c1) !! x)) as Hfin.
    { intros x Hx. rewrite visit_order_finish_block.
      destruct (decide (b = x)) as [-> | Hne].
      - by rewrite lookup_insert_eq.
      - by rewrite lookup_insert_ne. }
    split_and!.
    + intros x Hx. by apply Hfin, Hmono, Hmark.
    + rewrite visit_order_finish_block. by rewrite lookup_insert_eq.
    + intros Hc x blk' t. rewrite post_order_finish_block.
      intros [Hx | ->%list_elem_of_singleton]%elem_of_app Hblk' Ht; apply Hfin.
      * eapply Hok; [| done..]. intros x' blk'' t' Hx' Hb' Ht'.
        apply Hmark. by eapply Hc.
      * rewrite Hblk in Hblk'. injection Hblk' as <-. by apply Hts.
  - intros c from. split_and!; [done | | done]. intros t Ht. inversion Ht.
  - intros c from t ts ok c1 c2 _ (Hmono1 & Ht & Hok1) _ (Hmono2 & Hts & Hok2).
    rewrite visit_order_branch in Hmono2.
    split_and!.
    + intros x Hx. by apply Hmono2, Hmono1.
    + intros t' [-> | Ht']%elem_of_cons; [by apply Hmono2 | by apply Hts].
    + intros Hc. apply Hok2. specialize (Hok1 Hc).
      intros x blk t' Hx. rewrite post_order_branch in Hx. rewrite visit_order_branch.
      by apply Hok1.
Qed.

End TraversalTargets.

Lemma traversal_targets compiler func fuel c :
  build_post_order_visit_order compiler func fuel CFG_empty = Done c →
  targets_ok compiler c.
Proof.
  unfold build_post_order_visit_order. intros H. inv_bind H.
  destruct x as [ok c']. injection H as ->.
  apply post_order_visit_visits in Hx.
  apply (proj1 (visits_targets compiler) _ _ _ _ Hx).
  intros x blk t Hin. inversion Hin.
Qed.

Lemma constructed_targets compiler func fuel cfg :
  CFG_new compiler func fuel = Done cfg → targets_ok compiler cfg.
Proof.
  intros Hnew. destruct (CFG_new_phases _ _ _ _ Hnew) as (c & Hc & _ & Hg).
  pose proof (traversal_targets _ _ _ _ Hc) as Hok.
  destruct Hg as (Hvo & Hpo & _). unfold targets_ok. rewrite Hvo, Hpo. exact Hok.
Qed.

Lemma flag_cases_returns cfg po cs f :
  (∀ t, t ∈ map block cs → ∃ v, get_visit_order cfg t = Done v) →
  ∃ f', flag_cases cfg po cs f = Done f'.
Proof.
  revert f. induction cs as [|target cs IH]; intros f Hts; simpl; [by eexists |].
  destruct (Hts (block target)) as [v Hv]; [by left |].
  unfold flag_if_later. rewrite Hv. simpl. apply IH.
  intros t Ht. apply Hts. by right.
Qed.

(** On a constructed CFG [lift_continue_block_dominator] returns for every
    dominator that is a finished block. *)
Lemma lift_continue_block_dominator_returns compiler func fuel cfg d :
  CFG_new compiler func fuel = Done cfg →
  Z.of_nat (length (post_order cfg)) < 2 ^ 31 →
  dominator d ∈ post_order cfg →
  ∃ d', lift_continue_block_dominator compiler func cfg d = Done d'.
Proof.
  intros Hnew Hsmall Hd.
  pose proof (constructed_traversed _ _ _ _ Hnew Hsmall) as Htr.
  pose proof (constructed_targets _ _ _ _ Hnew) as Hts.
  unfold lift_continue_block_dominator. case_bool_decide; [by eexists |].
  destruct (finished_block _ _ _ Htr _ Hd) as [blk Hblk].
  unfold get_SPIRBlock. rewrite Hblk. simpl.
  rewrite (get_visit_order_finished _ _ _ Htr _ Hd). simpl.
  assert (∀ t, t ∈ branch_targets blk → ∃ v, get_visit_order cfg t = Done v) as Hv.
  { intros t Ht. eexists. eapply get_visit_order_finished; [done |].
    eapply visited_finished; [done |]. by eapply Hts. }
  assert (∀ t f, t ∈ branch_targets blk →
            ∃ f', flag_if_later cfg (order cfg (dominator d)) t f = Done f') as Hflag.
  { intros t f Ht. destruct (Hv t Ht) as [v Hvt].
    unfold flag_if_later. rewrite Hvt. simpl. by eexists. }
  unfold branch_targets in Hv, Hflag. destruct (terminator blk).
  - destruct (Hflag (next_block blk) false) as [f ->]; [by left |]. by eexists.
  - destruct (Hflag (true_block blk) false) as [f1 ->]; [by left |]. simpl.
    destruct (Hflag (false_block blk) f1) as [f2 ->]; [by right; left |]. by eexists.
  - destruct (flag_cases_returns cfg (order cfg (dominator d)) (cases blk) false)
      as [f1 ->].
    { intros t Ht. apply Hv. apply elem_of_app. by left. }
    simpl. case_bool_decide as Hdef; [| by eexists].
    destruct (Hflag (default_block blk) f1) as [f2 ->]; [| by eexists].
    apply elem_of_app. right. by left.
  - by eexists.
  - by eexists.
Qed.

(** ** The traversal returns *)

Section TraversalReturns.

Variable compiler : gmap N SPIRBlock.
Hypothesis Hclosed : closed_store compiler.
Hypothesis Hsmall : Z.of_nat (size compiler) < 2 ^ 31.

Lemma visited_size c c' :
  (∀ x, is_Some (visit_order c !! x) → is_Some (visit_order c' !! x)) →
  (size (visit_order c) ≤ size (visit_order c'))%nat.
Proof.
  intros Hmono. rewrite <- !size_dom. apply subseteq_size.
  intros x. rewrite !elem_of_dom. apply Hmono.
Qed.

Lemma visited_bounded c :
  order_ok compiler c → (size (visit_order c) ≤ size compiler)%nat.
Proof.
  intros Hok. rewrite <- !size_dom. apply subseteq_size.
  intros x. rewrite !elem_of_dom. apply (ok_blocks _ _ Hok).
Qed.

(** What one guarded call needs and what it keeps: well-formed bookkeeping,
    the calling block in progress, and room in the budget for every block
    not yet seen. *)
Lemma branch_to_returns n from t c :
  (∀ c b, order_ok compiler c → preds_ok c → is_Some (compiler !! b) →
     (size compiler < n + size (visit_order c))%nat →
     ∃ ok c', post_order_visit compiler n c b = Done (ok, c')) →
  order_ok compiler c → preds_ok c → visit_order c !! from = Some 0 →
  is_Some (compiler !! t) →
  (size compiler < n + size (visit_order c))%nat →
  ∃ c', branch_to (post_order_visit compiler n) from t c = Done c' ∧
    order_ok compiler c' ∧ preds_ok c' ∧ visit_order c' !! from = Some 0 ∧
    (size compiler < n + size (visit_order c'))%nat.
Proof.
  intros IH Hok Hpreds Hfrom Ht Hn.
  destruct (IH c t Hok Hpreds Ht Hn) as (ok & c1 & Hvisit).
  unfold branch_to. rewrite Hvisit. simpl. eexists. split; [done |].
  apply post_order_visit_visits in Hvisit.
  assert (visits_all compiler c from [t] (if ok then add_branch from t c1 else c1))
    as Hall by (econstructor; [done | constructor]).
  destruct (proj2 (visits_order compiler) _ _ _ _ Hall) as (Hok' & Hprog & Hpreds');
    [by left | done.. |].
  split_and!; [done | done | by apply Hprog |].
  pose proof (visited_size c _ (proj1 (proj2 (visits_targets compiler) _ _ _ _ Hall))).
  lia.
Qed.

Lemma visit_cases_returns n from cs c :
  (∀ c b, order_ok compiler c → preds_ok c → is_Some (compiler !! b) →
     (size compiler < n + size (visit_order c))%nat →
     ∃ ok c', post_order_visit compiler n c b = Done (ok, c')) →
  order_ok compiler c → preds_ok c → visit_order c !! from = Some 0 →
  (∀ t, t ∈ map block cs → is_Some (compiler !! t)) →
  (size compiler < n + size (visit_order c))%nat →
  ∃ c', visit_cases (post_order_visit compiler n) from cs c = Done c' ∧
    order_ok compiler c' ∧ preds_ok c' ∧ visit_order c' !! from = Some 0 ∧
    (size compiler < n + size (visit_order c'))%nat.
Proof.
  intros IH. revert c.
  induction cs as [|target cs IHcs]; intros c Hok Hpreds Hfrom Hts Hn; simpl.
  - by eexists.
  - destruct (branch_to_returns n from (block target) c IH Hok Hpreds Hfrom)
      as (c1 & -> & Hok1 & Hpreds1 & Hfrom1 & Hn1); [apply Hts; by left | done |].
    simpl. apply IHcs; [done.. | | done].
    intros t Ht. apply Hts. by right.
Qed.

Lemma visit_targets_returns n from blk c :
  (∀ c b, order_ok compiler c → preds_ok c → is_Some (compiler !! b) →
     (size compiler < n + size (visit_order c))%nat →
     ∃ ok c', post_order_visit compiler n c b = Done (ok, c')) →
  order_ok compiler c → preds_ok c → visit_order c !! from = Some 0 →
  (∀ t, t ∈ branch_targets blk → is_Some (compiler !! t)) →
  (size compiler < n + size (visit_order c))%nat →
  ∃ c', visit_targets (post_order_visit compiler n) from blk c = Done c'.
Proof.
  intros IH Hok Hpreds Hfrom Hts Hn.
  unfold visit_targets. unfold branch_targets in Hts. destruct (terminator blk).
  - destruct (branch_to_returns n from (next_block blk) c IH Hok Hpreds Hfrom)
      as (c1 & -> & _); [apply Hts; by left | done |]. by eexists.
  - destruct (branch_to_returns n from (true_block blk) c IH Hok Hpreds Hfrom)
      as (c1 & -> & Hok1 & Hpreds1 & Hfrom1 & Hn1); [apply Hts; by left | done |].
    simpl.
    destruct (branch_to_returns n from (false_block blk) c1 IH Hok1 Hpreds1 Hfrom1)
      as (c2 & -> & _); [apply Hts; by right; left | done |]. by eexists.
  - destruct (visit_cases_returns n from (cases blk) c IH Hok Hpreds Hfrom)
      as (c1 & -> & Hok1 & Hpreds1 & Hfrom1 & Hn1).
    { intros t Ht. apply Hts, elem_of_app. by left. }
    { done. }
    simpl. case_bool_decide as Hdef; [| by eexists].
    destruct (branch_to_returns n from (default_block blk) c1 IH Hok1 Hpreds1 Hfrom1)
      as (c2 & -> & _); [| done | by eexists].
    apply Hts, elem_of_app. right. by left.
  - by eexists.
  - by eexists.
Qed.

(** A budget of one more than the number of blocks not yet seen is enough
    for a call on a block of the store. *)
Lemma post_order_visit_returns n :
  ∀ c b, order_ok compiler c → preds_ok c → is_Some (compiler !! b) →
    (size compiler < n + size (visit_order c))%nat →
    ∃ ok c', post_order_visit compiler n c b = Done (ok, c').
Proof.
  induction n as [|n IH]; intros c b Hok Hpreds [blk Hblk] Hn.
  { pose proof (visited_bounded c Hok). lia. }
  simpl. destruct (Z.leb_spec 0 (default (-1) (visit_order c !! b))) as [Hle | Hlt].
  - unfold is_back_edge. destruct (visit_order c !! b) as [v|]; simpl; [by eauto |].
    simpl in Hle. lia.
  - pose proof (order_ok_unvisited _ _ _ Hok Hlt) as Hb.
    unfold get_SPIRBlock. rewrite Hblk. simpl.
    destruct (visit_targets_returns n b blk (set_visit_order c b 0) IH) as [c1 ->].
    + by eapply order_ok_mark.
    + intros x Hx. apply has_later_pred_mark; [done | by apply Hpreds].
    + simpl. apply lookup_insert_eq.
    + intros t Ht. by eapply Hclosed.
    + simpl. rewrite map_size_insert_None by done. lia.
    + simpl. by eauto.
Qed.

End TraversalReturns.

(** The traversal of a function whose entry block is in a store that is
    closed under branch targets returns, with a budget of one more than the
    number of blocks. *)
Lemma build_post_order_visit_order_returns compiler func n :
  closed_store compiler → Z.of_nat (size compiler) < 2 ^ 31 →
  is_Some (compiler !! entry_block func) →
  (size compiler < n)%nat →
  ∃ c, build_post_order_visit_order compiler func n CFG_empty = Done c.
Proof.
  intros Hclosed Hsmall Hentry Hn. unfold build_post_order_visit_order.
  destruct (post_order_visit_returns compiler Hclosed Hsmall n CFG_empty
              (entry_block func)) as (ok & c & Hc).
  - apply order_ok_empty.
  - intros x Hx. inversion Hx.
  - done.
  - simpl. rewrite map_size_empty. lia.
  - simpl in *. change (post_order_visit compiler n _ (entry_block func))
      with (post_order_visit compiler n CFG_empty (entry_block func)).
    rewrite Hc. simpl. by eexists.
Qed.

(** * The claims *)

(** C5. After construction the entry block is its own immediate dominator:
    the computation never replaces [immediate_dominators[entry] = entry]. *)
Theorem entry_dominates_itself compiler func fuel cfg :
  CFG_new compiler func fuel = Done cfg →
  Z.of_nat (length (post_order cfg)) < 2 ^ 31 →
  compiler !! 0%N = None →
  get_immediate_dominator cfg (entry_block func) = entry_block func.
Proof.
  intros Hnew Hsmall Hzero. unfold get_immediate_dominator.
  by rewrite (io_entry _ _ _ (constructed_idoms _ _ _ _ Hnew Hsmall Hzero)).
Qed.

Lemma entry_dominates_itself_witness :
  get_immediate_dominator dowhile_cfg 1 = 1%N.
Proof.
  apply (entry_dominates_itself dowhile_blocks dowhile_func 8 dowhile_cfg);
    vm_compute; reflexivity.
Defined.

(** C6. After construction the adjacency lists mirror each other,
    [Y ∈ succeeding_edges[X]] exactly when [X ∈ preceding_edges[Y]], and no
    list holds an identifier twice. *)
Theorem edges_symmetric_unique compiler func fuel cfg :
  CFG_new compiler func fuel = Done cfg →
  (∀ x y, y ∈ get_succeeding_edges cfg x ↔ x ∈ get_preceding_edges cfg y) ∧
  (∀ x, NoDup (get_preceding_edges cfg x)) ∧
  (∀ x, NoDup (get_succeeding_edges cfg x)).
Proof. intros Hnew. apply (constructed_edges _ _ _ _ Hnew). Qed.

Lemma edges_symmetric_unique_witness :
  (∀ x y, y ∈ get_succeeding_edges dowhile_cfg x ↔ x ∈ get_preceding_edges dowhile_cfg y) ∧
  (∀ x, NoDup (get_preceding_edges dowhile_cfg x)) ∧
  (∀ x, NoDup (get_succeeding_edges dowhile_cfg x)).
Proof.
  apply (edges_symmetric_unique dowhile_blocks dowhile_func 8 dowhile_cfg).
  vm_compute; reflexivity.
Defined.

(** C3. After construction every finished block whose merge kind is
    [MergeLoop] has its merge block among its successors, and is among the
    predecessors of the merge block, whatever its terminator reaches; the
    merge block itself need not have been visited. *)
Theorem loop_header_implied_edge compiler func fuel cfg b blk :
  CFG_new compiler func fuel = Done cfg →
  b ∈ post_order cfg → compiler !! b = Some blk → merge blk = MergeLoop →
  merge_block blk ∈ get_succeeding_edges cfg b ∧
  b ∈ get_preceding_edges cfg (merge_block blk).
Proof.
  intros Hnew Hb Hblk Hm.
  destruct (constructed_edges _ _ _ _ Hnew) as [(Hsym & _) Hloops].
  assert (merge_block blk ∈ get_succeeding_edges cfg b) as Hs.
  { apply Hloops; [done |]. by exists blk. }
  split; [done | by apply Hsym].
Qed.

Lemma loop_header_implied_edge_witness :
  (9%N ∈ get_succeeding_edges endless_cfg 2 ∧ 2%N ∈ get_preceding_edges endless_cfg 9) ∧
  visit_order endless_cfg !! 9%N = None.
Proof.
  split; [| vm_compute; reflexivity].
  apply (loop_header_implied_edge endless_blocks endless_func 8 endless_cfg 2
           (mk_block Direct MergeLoop 3 9 0 0)).
  - vm_compute; reflexivity.
  - apply list_elem_of_In. vm_compute. auto.
  - vm_compute; reflexivity.
  - reflexivity.
Defined.

(** C1. As stated (the dominator's visit order is at most the dominated
    block's) the claim fails on the chain of scenario A: block 3 has order 1
    and its immediate dominator 2 has order 2. *)
Lemma dominator_order_counterexample :
  CFG_new chain_blocks chain_func 8 = Done chain_cfg ∧
  ¬ (∀ b, b ∈ post_order chain_cfg →
          get_immediate_dominator chain_cfg b ≠ b →
          ∀ vd vb, get_visit_order chain_cfg (get_immediate_dominator chain_cfg b) = Done vd →
                   get_visit_order chain_cfg b = Done vb → vd ≤ vb).
Proof.
  split; [vm_compute; reflexivity |]. intros H.
  specialize (H 3%N). cut (2 ≤ 1); [lia |]. apply H.
  - apply list_elem_of_In. vm_compute. auto.
  - vm_compute. discriminate.
  - vm_compute; reflexivity.
  - vm_compute; reflexivity.
Qed.

(** C1, amended.  For every block B in [post_order] the immediate
    dominator D is itself in [post_order] and the visit order of B is at
    most that of D, strictly smaller when D is not B: the dominator
    finishes later. *)
Theorem dominator_finishes_later compiler func fuel cfg b :
  CFG_new compiler func fuel = Done cfg →
  Z.of_nat (length (post_order cfg)) < 2 ^ 31 →
  compiler !! 0%N = None →
  b ∈ post_order cfg →
  ∃ vb vd,
    get_immediate_dominator cfg b ∈ post_order cfg ∧
    get_visit_order cfg b = Done vb ∧
    get_visit_order cfg (get_immediate_dominator cfg b) = Done vd ∧
    vb ≤ vd ∧ (get_immediate_dominator cfg b ≠ b → vb < vd).
Proof.
  intros Hnew Hsmall Hzero Hb.
  pose proof (constructed_traversed _ _ _ _ Hnew Hsmall) as Htr.
  pose proof (constructed_idoms _ _ _ _ Hnew Hsmall Hzero) as Hio.
  destruct (finished_order _ _ _ Htr b Hb) as [_ Hrange].
  destruct (io_done _ _ _ Hio b Hb) as (d & Hd & Hdin & Hle); [lia |].
  unfold get_immediate_dominator. rewrite Hd. simpl.
  exists (order cfg b), (order cfg d).
  split_and!; [done | by eapply get_visit_order_finished.. | done |].
  intros Hne. destruct (decide (order cfg b = order cfg d)) as [Heq | ?]; [| lia].
  destruct Hne. symmetry. by eapply order_inj.
Qed.

Lemma dominator_finishes_later_witness :
  ∃ vb vd,
    get_immediate_dominator chain_cfg 3 ∈ post_order chain_cfg ∧
    get_visit_order chain_cfg 3 = Done vb ∧
    get_visit_order chain_cfg (get_immediate_dominator chain_cfg 3) = Done vd ∧
    vb ≤ vd ∧ (get_immediate_dominator chain_cfg 3 ≠ 3%N → vb < vd).
Proof.
  apply (dominator_finishes_later chain_blocks chain_func 8 chain_cfg 3).
  - vm_compute; reflexivity.
  - vm_compute; reflexivity.
  - vm_compute; reflexivity.
  - apply list_elem_of_In. vm_compute. auto.
Defined.

(** C8. [add_block] with a block that has no immediate dominator leaves
    the builder as it was. *)
Theorem add_block_unreachable fuel cfg d b :
  get_immediate_dominator cfg b = 0%N → add_block fuel cfg d b = Done d.
Proof. intros H. unfold add_block. by rewrite bool_decide_eq_true_2. Qed.

Lemma add_block_unreachable_witness :
  add_block 8 dowhile_cfg {| dominator := 3%N |} 7 = Done {| dominator := 3%N |}.
Proof. apply add_block_unreachable. vm_compute; reflexivity. Defined.

(** ** Symmetry of [find_common_dominator] *)

Lemma find_common_dominator_sym compiler entry c fuel a b :
  traversed compiler entry c →
  find_common_dominator fuel c a b = find_common_dominator fuel c b a.
Proof.
  intros Htr. revert a b. induction fuel as [|fuel IH]; intros a b; simpl.
  - repeat case_bool_decide; congruence.
  - repeat case_bool_decide; try congruence.
    destruct (decide (a ∈ post_order c)) as [Ha | Ha];
      destruct (decide (b ∈ post_order c)) as [Hb | Hb];
      rewrite ?(get_visit_order_finished _ _ _ Htr a Ha),
              ?(get_visit_order_finished _ _ _ Htr b Hb),
              ?(get_visit_order_unfinished _ _ _ Htr a Ha),
              ?(get_visit_order_unfinished _ _ _ Htr b Hb); simpl; try done.
    destruct (Z.ltb_spec (order c a) (order c b)), (Z.ltb_spec (order c b) (order c a));
      try lia; try apply IH.
    exfalso. assert (a = b); [| done]. eapply order_inj; [done.. | lia].
Qed.

Lemma idom_step_fixed c x z :
  get_immediate_dominator c x = x → rtc (idom_step c) x z → z = x.
Proof.
  intros Hx Hrtc. induction Hrtc as [| x y z Hstep _ IH]; [done |].
  unfold idom_step in Hstep. rewrite Hx in Hstep. subst y. by apply IH.
Qed.

Section Resolved.

Variable compiler : gmap N SPIRBlock.
Variable entry : N.
Variable c : CFG.
Hypothesis Htr : traversed compiler entry c.
Hypothesis Hio : idoms_ok entry 0 c.

(** A finished block other than the entry block whose dominator chain
    reaches the entry block has a dominator of greater order, whose chain
    reaches the entry block as well. *)
Lemma resolved_step x :
  x ∈ post_order c → x ≠ entry → rtc (idom_step c) x entry →
  get_immediate_dominator c x ∈ post_order c ∧
  order c x < order c (get_immediate_dominator c x) ∧
  rtc (idom_step c) (get_immediate_dominator c x) entry.
Proof.
  intros Hx Hne Hrtc.
  destruct (finished_order _ _ _ Htr x Hx) as [_ Hrange].
  destruct (io_done _ _ _ Hio x Hx) as (d & Hd & Hdin & Hle); [lia |].
  assert (get_immediate_dominator c x = d) as Hgid.
  { unfold get_immediate_dominator. by rewrite Hd. }
  rewrite Hgid. split_and!; [done | |].
  - destruct (decide (order c x = order c d)) as [Heq | ?]; [| lia].
    assert (x = d) as <- by by eapply order_inj.
    destruct Hne. symmetry. by eapply idom_step_fixed.
  - apply rtc_inv in Hrtc as [-> | (y & Hstep & Hrest)]; [done |].
    unfold idom_step in Hstep. by rewrite Hstep, Hgid in Hrest.
Qed.

Lemma find_common_dominator_resolved n a b :
  a ∈ post_order c → b ∈ post_order c →
  rtc (idom_step c) a entry → rtc (idom_step c) b entry →
  2 * Z.of_nat (length (post_order c)) - order c a - order c b ≤ Z.of_nat n →
  ∃ r, find_common_dominator n c a b = Done r ∧ r ∈ post_order c ∧
       rtc (idom_step c) a r ∧ rtc (idom_step c) b r ∧ rtc (idom_step c) r entry.
Proof.
  destruct (order_entry _ _ _ Htr) as [Hein Heord].
  revert a b. induction n as [|n IH]; intros a b Ha Hb Hca Hcb Hfuel;
    destruct (finished_order _ _ _ Htr a Ha) as [_ Hra];
    destruct (finished_order _ _ _ Htr b Hb) as [_ Hrb];
    (destruct (decide (a = b)) as [<- | Hab];
     [rewrite find_common_dominator_same; exists a; by split_and! |]).
  - exfalso. assert (a = b); [| done]. eapply order_inj; [done.. | lia].
  - simpl. rewrite bool_decide_eq_false_2 by done.
    rewrite (get_visit_order_finished _ _ _ Htr a Ha),
            (get_visit_order_finished _ _ _ Htr b Hb). simpl.
    destruct (Z.ltb_spec (order c a) (order c b)) as [Hlt | Hge].
    + destruct (resolved_step a Ha) as (Hd & Hdlt & Hdc); [by intros ->; lia | done |].
      destruct (IH _ b Hd Hb Hdc Hcb) as (r & Hr & Hrin & Har & Hbr & Hre); [lia |].
      exists r. split_and!; try done. by eapply rtc_l.
    + assert (order c b < order c a) as Hlt.
      { destruct (decide (order c a = order c b)) as [Heq | ?]; [| lia].
        destruct Hab. by eapply order_inj. }
      destruct (resolved_step b Hb) as (Hd & Hdlt & Hdc); [by intros ->; lia | done |].
      destruct (IH a _ Ha Hd Hca Hdc) as (r & Hr & Hrin & Har & Hbr & Hre); [lia |].
      exists r. split_and!; try done. by eapply rtc_l.
Qed.

End Resolved.

(** C9. On a constructed CFG [find_common_dominator] is symmetric in its
    arguments and gives [a] for the pair [(a, a)].  For finished blocks
    whose dominator chains reach the entry block both calls return, with a
    block on both chains. *)
Theorem common_dominator_symmetric compiler func fuel cfg :
  CFG_new compiler func fuel = Done cfg →
  Z.of_nat (length (post_order cfg)) < 2 ^ 31 →
  (∀ n a b,
     find_common_dominator n cfg a b = find_common_dominator n cfg b a ∧
     find_common_dominator n cfg a a = Done a) ∧
  (compiler !! 0%N = None →
   ∀ n a b,
     a ∈ post_order cfg → b ∈ post_order cfg →
     rtc (idom_step cfg) a (entry_block func) →
     rtc (idom_step cfg) b (entry_block func) →
     (2 * length (post_order cfg) ≤ n)%nat →
     ∃ r, find_common_dominator n cfg a b = Done r ∧
          find_common_dominator n cfg b a = Done r ∧
          rtc (idom_step cfg) a r ∧ rtc (idom_step cfg) b r).
Proof.
  intros Hnew Hsmall.
  pose proof (constructed_traversed _ _ _ _ Hnew Hsmall) as Htr.
  assert (∀ n a b, find_common_dominator n cfg a b = find_common_dominator n cfg b a)
    as Hsym by (intros; by eapply find_common_dominator_sym).
  split.
  - intros n a b. split; [apply Hsym | apply find_common_dominator_same].
  - intros Hzero n a b Ha Hb Hca Hcb Hn.
    pose proof (constructed_idoms _ _ _ _ Hnew Hsmall Hzero) as Hio.
    destruct (finished_order _ _ _ Htr a Ha) as [_ Hra].
    destruct (finished_order _ _ _ Htr b Hb) as [_ Hrb].
    destruct (find_common_dominator_resolved _ _ _ Htr Hio n a b Ha Hb Hca Hcb)
      as (r & Hr & _ & Har & Hbr & _); [lia |].
    exists r. split_and!; [done | by rewrite <- Hsym | done | done].
Qed.

Lemma common_dominator_symmetric_witness :
  (find_common_dominator 8 dowhile_cfg 3 4 = find_common_dominator 8 dowhile_cfg 4 3 ∧
   find_common_dominator 8 dowhile_cfg 3 3 = Done 3%N) ∧
  (∃ r, find_common_dominator 8 dowhile_cfg 3 4 = Done r ∧
        find_common_dominator 8 dowhile_cfg 4 3 = Done r ∧
        rtc (idom_step dowhile_cfg) 3%N r ∧ rtc (idom_step dowhile_cfg) 4%N r) ∧
  find_common_dominator 8 dowhile_cfg 3 4 = Done 2%N.
Proof.
  destruct (common_dominator_symmetric dowhile_blocks dowhile_func 8 dowhile_cfg)
    as [Hsym Hret].
  - vm_compute; reflexivity.
  - vm_compute; reflexivity.
  - split; [apply Hsym | split; [| vm_compute; reflexivity]].
    apply Hret.
    + vm_compute; reflexivity.
    + apply list_elem_of_In. vm_compute. auto.
    + apply list_elem_of_In. vm_compute. auto.
    + apply (rtc_l _ _ 2%N); [vm_compute; reflexivity |].
      apply (rtc_l _ _ 1%N); [vm_compute; reflexivity |]. apply rtc_refl.
    + apply (rtc_l _ _ 2%N); [vm_compute; reflexivity |].
      apply (rtc_l _ _ 1%N); [vm_compute; reflexivity |]. apply rtc_refl.
    + vm_compute. lia.
Defined.

(** ** [lift_continue_block_dominator] *)

Lemma later_target_nil cfg po : ¬ later_target cfg po [].
Proof. intros (t & v & Ht & _). inversion Ht. Qed.

Lemma later_target_app cfg po l1 l2 :
  later_target cfg po (l1 ++ l2) ↔ later_target cfg po l1 ∨ later_target cfg po l2.
Proof.
  unfold later_target. split.
  - intros (t & v & [Ht | Ht]%elem_of_app & Hv); [left | right]; eauto.
  - intros [(t & v & Ht & Hv) | (t & v & Ht & Hv)]; exists t, v;
      rewrite elem_of_app; auto.
Qed.

Lemma flag_if_later_spec cfg po t f f' :
  flag_if_later cfg po t f = Done f' →
  f' = true ↔ f = true ∨ later_target cfg po [t].
Proof.
  unfold flag_if_later. intros H. inv_bind H. injection H as <-.
  destruct (Z.ltb_spec po x) as [Hlt | Hge].
  - split; [| done]. intros _. right. exists t, x.
    split_and!; [by apply list_elem_of_singleton | done..].
  - split; [by left |]. intros [? | (t' & v & ->%list_elem_of_singleton & Hv & Hlt)]; [done |].
    rewrite Hx in Hv. injection Hv as <-. lia.
Qed.

Lemma flag_cases_spec cfg po cs f f' :
  flag_cases cfg po cs f = Done f' →
  f' = true ↔ f = true ∨ later_target cfg po (map block cs).
Proof.
  revert f. induction cs as [|target cs IH]; intros f; simpl.
  - intros [= <-]. pose proof (later_target_nil cfg po). tauto.
  - intros H. inv_bind H. apply flag_if_later_spec in Hx. apply IH in H.
    change (block target :: map block cs) with ([block target] ++ map block cs).
    rewrite later_target_app. tauto.
Qed.

(** C7. Called with a dominator other than 0, [lift_continue_block_dominator]
    resets the dominator to the entry block of the function exactly when some
    branch target of the dominator's terminator has a visit order strictly
    greater than the dominator's own, and leaves it unchanged otherwise.  On
    a constructed CFG the call returns for every finished dominator. *)
Theorem lift_continue_block_dominator_resets compiler func cfg d blk :
  dominator d ≠ 0%N →
  compiler !! dominator d = Some blk →
  (∀ d', lift_continue_block_dominator compiler func cfg d = Done d' →
     ∃ po, get_visit_order cfg (dominator d) = Done po ∧
       (later_target cfg po (branch_targets blk) →
          d' = {| dominator := entry_block func |}) ∧
       (¬ later_target cfg po (branch_targets blk) → d' = d)) ∧
  (∀ fuel, CFG_new compiler func fuel = Done cfg →
     Z.of_nat (length (post_order cfg)) < 2 ^ 31 →
     dominator d ∈ post_order cfg →
     ∃ d', lift_continue_block_dominator compiler func cfg d = Done d').
Proof.
  intros Hd Hblk. split; [| intros fuel; apply lift_continue_block_dominator_returns].
  intros d' H. unfold lift_continue_block_dominator in H.
  rewrite bool_decide_eq_false_2 in H by done.
  unfold get_SPIRBlock in H. rewrite Hblk in H. simpl in H.
  inv_bind H. exists x. split; [done |]. inv_bind H. injection H as <-.
  assert (x0 = true ↔ later_target cfg x (branch_targets blk)) as Hflag.
  { pose proof (later_target_nil cfg x) as Hnil.
    unfold branch_targets. destruct (terminator blk).
    - apply flag_if_later_spec in Hx0. rewrite Hx0. intuition discriminate.
    - inv_bind Hx0. apply flag_if_later_spec in Hx0, Hx1.
      change [true_block blk; false_block blk]
        with ([true_block blk] ++ [false_block blk]).
      rewrite later_target_app.
      rewrite Hx0, Hx1. intuition discriminate.
    - inv_bind Hx0. apply flag_cases_spec in Hx1. rewrite later_target_app.
      case_bool_decide.
      + apply flag_if_later_spec in Hx0. rewrite Hx0, Hx1. intuition discriminate.
      + injection Hx0 as <-. rewrite Hx1. intuition discriminate.
    - injection Hx0 as <-. intuition discriminate.
    - injection Hx0 as <-. intuition discriminate. }
  destruct x0.
  - split; [done |]. intros Hn. destruct Hn. by apply Hflag.
  - split; [| done]. intros Hl. apply Hflag in Hl. discriminate.
Qed.

(** Scenario D: the latch 3 of the do/while loop branches back to the
    header 2, which finishes later, so the dominator is lifted to the
    entry block 1. *)
Lemma lift_continue_block_dominator_resets_witness :
  lift_continue_block_dominator dowhile_blocks dowhile_func dowhile_cfg
    {| dominator := 3%N |} = Done {| dominator := 1%N |} ∧
  (∃ po, get_visit_order dowhile_cfg 3 = Done po ∧
     (later_target dowhile_cfg po [2%N; 4%N] →
        {| dominator := 1%N |} = {| dominator := 1%N |}) ∧
     (¬ later_target dowhile_cfg po [2%N; 4%N] →
        {| dominator := 1%N |} = {| dominator := 3%N |})) ∧
  (∃ d', lift_continue_block_dominator dowhile_blocks dowhile_func dowhile_cfg
           {| dominator := 3%N |} = Done d').
Proof.
  destruct (lift_continue_block_dominator_resets dowhile_blocks dowhile_func
              dowhile_cfg {| dominator := 3%N |} (mk_block Select MergeNone 0 0 2 4))
    as [Hspec Hret].
  - vm_compute. discriminate.
  - vm_compute; reflexivity.
  - split_and!.
    + vm_compute; reflexivity.
    + apply Hspec. vm_compute; reflexivity.
    + apply (Hret 8%nat).
      * vm_compute; reflexivity.
      * vm_compute; reflexivity.
      * apply list_elem_of_In. vm_compute. auto.
Defined.

(** ** Back edges and crossing edges *)

Lemma post_order_visit_in_progress compiler n c t :
  visit_order c !! t = Some 0 →
  post_order_visit compiler (S n) c t = Done (false, c).
Proof. intros H. simpl. unfold is_back_edge. by rewrite H. Qed.

Lemma post_order_visit_finished compiler n c t v :
  visit_order c !! t = Some v → 0 < v →
  post_order_visit compiler (S n) c t = Done (true, c).
Proof.
  intros H Hpos. simpl. unfold is_back_edge. rewrite H. simpl.
  destruct (Z.leb_spec 0 v); [| lia]. simpl.
  destruct (Z.eqb_spec v 0); [lia | done].
Qed.

(** C4. As stated the claim fails: in [selfloop_blocks] block 1 branches
    to itself while it is in progress, the visit answers [false] and
    records nothing, and yet the pair (1, 1) is in both adjacency lists of
    the constructed CFG, put there as the implied edge of the loop header. *)
Lemma back_edge_recorded_counterexample :
  CFG_new selfloop_blocks selfloop_func 8 = Done selfloop_cfg ∧
  post_order_visit selfloop_blocks 8 CFG_empty 1 =
    Done (true, finish_block 1 (mk_block Direct MergeLoop 1 1 0 0) selfloop_marked) ∧
  is_back_edge selfloop_marked 1 = Done true ∧
  branch_to (post_order_visit selfloop_blocks 7) 1 1 selfloop_marked = Done selfloop_marked ∧
  ¬ ((1%N ∉ get_succeeding_edges selfloop_cfg 1) ∧
     (1%N ∉ get_preceding_edges selfloop_cfg 1)).
Proof.
  split_and!; try (vm_compute; reflexivity).
  intros [H _]. apply H. apply list_elem_of_In. vm_compute. auto.
Qed.

(** C4, amended.  A visit of a target that is in progress answers [false]
    and the caller records no edge for it; a visit of a finished target
    answers [true] and the edge is recorded without another traversal of the
    target.  Every pair in the adjacency lists of the constructed CFG is
    therefore an edge to a block that finished before its source, or the
    implied edge of a loop header, which is recorded without that check. *)
Theorem back_edges_not_recorded compiler func fuel cfg :
  CFG_new compiler func fuel = Done cfg →
  Z.of_nat (length (post_order cfg)) < 2 ^ 31 →
  (∀ n c from t, visit_order c !! t = Some 0 →
     post_order_visit compiler (S n) c t = Done (false, c) ∧
     branch_to (post_order_visit compiler (S n)) from t c = Done c) ∧
  (∀ n c from t v, visit_order c !! t = Some v → 0 < v →
     post_order_visit compiler (S n) c t = Done (true, c) ∧
     branch_to (post_order_visit compiler (S n)) from t c = Done (add_branch from t c)) ∧
  (∀ from to,
     to ∈ get_succeeding_edges cfg from ∨ from ∈ get_preceding_edges cfg to →
     implied_edge compiler from to ∨
     (to ∈ post_order cfg ∧ from ∈ post_order cfg ∧ order cfg to < order cfg from)).
Proof.
  intros Hnew Hsmall. split_and!.
  - intros n c from t Ht. unfold branch_to.
    by rewrite (post_order_visit_in_progress _ _ _ _ Ht).
  - intros n c from t v Ht Hpos. unfold branch_to.
    by rewrite (post_order_visit_finished _ _ _ _ _ Ht Hpos).
  - intros from to Hedge.
    pose proof (constructed_traversed _ _ _ _ Hnew Hsmall) as Htr.
    destruct (constructed_edges _ _ _ _ Hnew) as [(Hsym & _) _].
    assert (from ∈ get_preceding_edges cfg to) as Hp.
    { destruct Hedge; [by apply Hsym | done]. }
    destruct (finished_pred _ _ _ Htr _ _ Hp) as [Hfrom [? | [Hto Hlt]]]; auto.
Qed.

Lemma back_edges_not_recorded_witness :
  (∀ from to,
     to ∈ get_succeeding_edges dowhile_cfg from ∨ from ∈ get_preceding_edges dowhile_cfg to →
     implied_edge dowhile_blocks from to ∨
     (to ∈ post_order dowhile_cfg ∧ from ∈ post_order dowhile_cfg ∧
      order dowhile_cfg to < order dowhile_cfg from)) ∧
  2%N ∉ get_succeeding_edges dowhile_cfg 3.
Proof.
  split.
  - apply (back_edges_not_recorded dowhile_blocks dowhile_func 8 dowhile_cfg);
      vm_compute; reflexivity.
  - intros H%list_elem_of_In. vm_compute in H. intuition discriminate.
Defined.

(** ** Immediate dominators when predecessors finish later *)

Lemma returns_within_bind {A B : Type} bound n (P : A → Prop) (Q : B → Prop)
    (m : outcome A) (k : A → outcome B) :
  returns_within bound n P m →
  (∀ a, P a → returns_within bound n Q (k a)) →
  returns_within bound n Q (m ≫= k).
Proof. destruct m; simpl; auto. Qed.

Lemma returns_within_weaken {A : Type} bound bound' n n' (P Q : A → Prop)
    (o : outcome A) :
  returns_within bound n P o →
  (Z.of_nat n ≤ bound → Z.of_nat n' ≤ bound') → (∀ a, P a → Q a) →
  returns_within bound' n' Q o.
Proof. destruct o; simpl; auto. Qed.

Section Structured.

Variable compiler : gmap N SPIRBlock.
Variable entry : N.
Hypothesis Hzero : compiler !! 0%N = None.

(** Between blocks whose dominator chains climb strictly,
    [find_common_dominator] fires no assertion and needs at most one
    iteration per step of order left below the entry block. *)
Lemma find_common_dominator_returns c k n a b :
  traversed compiler entry c →
  (∀ x, x ∈ post_order c → x ≠ entry → k ≤ order c x →
        ∃ d, immediate_dominators c !! x = Some d ∧ d ∈ post_order c ∧
             order c x < order c d) →
  a ∈ post_order c → b ∈ post_order c → k ≤ order c a → k ≤ order c b →
  returns_within
    (2 * Z.of_nat (length (post_order c)) - order c a - order c b) n
    (λ r, r ∈ post_order c ∧ order c a ≤ order c r ∧ order c b ≤ order c r)
    (find_common_dominator n c a b).
Proof.
  intros Htr Hclimb. destruct (order_entry _ _ _ Htr) as [Hein Heord].
  revert a b. induction n as [|n IH]; intros a b Ha Hb Hka Hkb;
    destruct (finished_order _ _ _ Htr a Ha) as [_ Hra];
    destruct (finished_order _ _ _ Htr b Hb) as [_ Hrb];
    simpl; case_bool_decide as Hab; simpl; subst; try (split_and!; [done | lia..]).
  - lia.
  - rewrite (get_visit_order_finished _ _ _ Htr a Ha),
            (get_visit_order_finished _ _ _ Htr b Hb). simpl.
    destruct (Z.ltb_spec (order c a) (order c b)) as [Hlt | Hge].
    + destruct (Hclimb a) as (d & Hd & Hdin & Hdlt); [done | | done |].
      { intros ->. lia. }
      unfold get_immediate_dominator. rewrite Hd. simpl.
      pose proof (IH d b Hdin Hb ltac:(lia) Hkb) as Hrec.
      eapply returns_within_weaken; [exact Hrec | lia |].
      simpl. intros r (? & ? & ?). split_and!; [done | lia..].
    + assert (order c b < order c a) as Hlt.
      { destruct (decide (order c a = order c b)) as [Heq | ?]; [| lia].
        destruct Hab. by eapply order_inj. }
      destruct (Hclimb b) as (d & Hd & Hdin & Hdlt); [done | | done |].
      { intros ->. lia. }
      unfold get_immediate_dominator. rewrite Hd. simpl.
      pose proof (IH a d Ha Hdin Hka ltac:(lia)) as Hrec.
      eapply returns_within_weaken; [exact Hrec | lia |].
      simpl. intros r (? & ? & ?). split_and!; [done | lia..].
Qed.

Lemma fold_predecessors_returns n b pred c :
  traversed compiler entry c → b ∈ post_order c → b ≠ entry →
  immediate_dominators c !! entry = Some entry →
  (∀ p, p ∈ pred → p ∈ post_order c ∧ order c b < order c p) →
  (∀ x, x ∈ post_order c → x ≠ entry → order c b < order c x →
        ∃ d, immediate_dominators c !! x = Some d ∧ d ∈ post_order c ∧
             order c x < order c d) →
  (immediate_dominators c !! b = None ∨
   ∃ d, immediate_dominators c !! b = Some d ∧ d ∈ post_order c ∧
        order c b < order c d) →
  returns_within (2 * Z.of_nat (length (post_order c))) n
    (λ c', graph_eq c c' ∧
           (∀ x, x ≠ b → immediate_dominators c' !! x = immediate_dominators c !! x) ∧
           ((pred = [] ∧ immediate_dominators c' !! b = immediate_dominators c !! b) ∨
            ∃ d, immediate_dominators c' !! b = Some d ∧ d ∈ post_order c ∧
                 order c b < order c d))
    (fold_predecessors n b pred c).
Proof.
  intros Htr Hb Hne. revert c Htr Hb.
  induction pred as [|p pred IH]; intros c Htr Hb Hentry Hpred Hclimb Hcur.
  { simpl. split_and!; [apply graph_eq_refl | done | by left]. }
  destruct (Hpred p) as [Hpin Hplt]; [by left |].
  assert (∀ d, d ∈ post_order c → order c b < order c d →
    returns_within (2 * Z.of_nat (length (post_order c))) n
      (λ c', graph_eq c c' ∧
         (∀ x, x ≠ b → immediate_dominators c' !! x = immediate_dominators c !! x) ∧
         ((p :: pred = [] ∧ immediate_dominators c' !! b = immediate_dominators c !! b) ∨
          ∃ d, immediate_dominators c' !! b = Some d ∧ d ∈ post_order c ∧
               order c b < order c d))
      (fold_predecessors n b pred (set_immediate_dominator c b d))) as Hrest.
  { intros d Hdin Hdlt.
    eapply returns_within_weaken; [apply IH | done |].
    - by eapply traversed_graph_eq; [apply graph_eq_set_immediate_dominator |].
    - done.
    - simpl. by rewrite lookup_insert_ne.
    - intros q Hq. apply Hpred. by right.
    - intros x Hx Hxe Hxlt. simpl. rewrite lookup_insert_ne; [by apply Hclimb |].
      intros <-. change (order c b < order c b) in Hxlt. lia.
    - right. exists d. simpl. by rewrite lookup_insert_eq.
    - simpl. intros c' (Hg & Hother & Hres). split_and!.
      + eapply graph_eq_trans; [apply graph_eq_set_immediate_dominator | done].
      + intros x Hx. rewrite Hother by done. simpl. by rewrite lookup_insert_ne.
      + right. destruct Hres as [[_ Hsame] | Hres]; [| done].
        exists d. rewrite Hsame. simpl. by rewrite lookup_insert_eq. }
  destruct Hcur as [Hnone | (d & Hd & Hdin & Hdlt)].
  - rewrite fold_predecessors_seed
      by (unfold get_immediate_dominator; by rewrite Hnone).
    by apply Hrest.
  - rewrite fold_predecessors_fold.
    2:{ unfold get_immediate_dominator. rewrite Hd. simpl.
        by eapply finished_nonzero. }
    rewrite bool_decide_eq_true_2.
    2:{ unfold get_immediate_dominator. destruct (decide (p = entry)) as [-> | Hpe].
        - rewrite Hentry. simpl. by eapply finished_nonzero.
        - destruct (Hclimb p Hpin Hpe Hplt) as (d' & -> & Hd' & _). simpl.
          by eapply finished_nonzero. }
    eapply returns_within_bind.
    + assert (returns_within
                (2 * Z.of_nat (length (post_order c)) - order c b - order c p) n
                (λ r, r ∈ post_order c ∧ order c b ≤ order c r ∧ order c p ≤ order c r)
                (find_common_dominator n c b p)) as Hfcd.
      { apply (find_common_dominator_returns c (order c b)); [done | | done | done | lia | lia].
        intros x Hx Hxe Hxk. destruct (decide (x = b)) as [-> | Hxb]; [by exists d |].
        apply Hclimb; [done.. |].
        destruct (decide (order c x = order c b)) as [Heq | ?]; [| lia].
        destruct Hxb. by eapply order_inj. }
      eapply returns_within_weaken; [exact Hfcd | | intros r Hr; exact Hr].
      destruct (finished_order _ _ _ Htr b Hb), (finished_order _ _ _ Htr p Hpin). lia.
    + simpl. intros r (Hrin & _ & Hrle). apply Hrest; [done | lia].
Qed.

Lemma preds_finish_later_graph_eq c c' :
  graph_eq c c' → preds_finish_later c → preds_finish_later c'.
Proof.
  intros Hg H b p. pose proof Hg as (_ & Hpo & _ & _ & Hp).
  rewrite Hpo, Hp, !(graph_eq_order _ _ _ Hg). apply H.
Qed.

Lemma idoms_strict_graph_eq k c c' :
  graph_eq c c' → immediate_dominators c' = immediate_dominators c →
  idoms_strict entry k c → idoms_strict entry k c'.
Proof.
  intros Hg Hi [H1 H2 H3]. pose proof Hg as (Hvo & Hpo & _).
  split; rewrite ?Hi, ?Hpo; try done.
  - intros x. rewrite (graph_eq_order _ _ _ Hg). apply H2.
  - intros x. rewrite !(graph_eq_order _ _ _ Hg). intros Hx Hk Hne.
    destruct (H3 x Hx Hk Hne) as (d & ? & ? & ?). exists d.
    by rewrite (graph_eq_order _ _ _ Hg).
Qed.

Lemma dominate_block_returns n b c :
  traversed compiler entry c → preds_finish_later c → b ∈ post_order c →
  idoms_strict entry (order c b) c →
  returns_within (2 * Z.of_nat (length (post_order c))) n
    (λ c', graph_eq c c' ∧ idoms_strict entry (order c b - 1) c')
    (dominate_block n b c).
Proof.
  intros Htr Hlater Hb Hio. unfold dominate_block.
  set (c0 := {| preceding_edges := _ |}).
  assert (graph_eq c c0) as Hg0 by apply graph_eq_touch.
  assert (idoms_strict entry (order c b) c0) as Hio0 by by eapply idoms_strict_graph_eq.
  assert (traversed compiler entry c0) as Htr0 by by eapply traversed_graph_eq.
  destruct (order_entry _ _ _ Htr) as [Hein Heord].
  assert (∀ c1, graph_eq c0 c1 →
     (∀ x, x ≠ b → immediate_dominators c1 !! x = immediate_dominators c0 !! x) →
     (b = entry ∧ immediate_dominators c1 !! b = immediate_dominators c0 !! b ∨
      ∃ d, immediate_dominators c1 !! b = Some d ∧ d ∈ post_order c ∧
           order c b < order c d) →
     graph_eq c c1 ∧ idoms_strict entry (order c b - 1) c1) as Hfinish.
  { intros c1 Hg1 Hother Hres.
    assert (graph_eq c c1) as Hg by by eapply graph_eq_trans.
    pose proof Hg as (_ & Hpo & _).
    split; [done |]. split.
    - destruct (decide (entry = b)) as [-> | Hne].
      + destruct Hres as [[_ ->] | (d & Hd & Hdin & Hdlt)]; [apply Hio0 |].
        destruct (finished_order _ _ _ Htr d Hdin). lia.
      + rewrite Hother by done. apply Hio0.
    - intros x Hx. rewrite (graph_eq_order _ _ _ Hg).
      destruct (decide (x = b)) as [-> | Hne]; [right; lia |].
      rewrite Hother in Hx by done.
      destruct (is_keys _ _ _ Hio0 x Hx) as [? | Hlt]; [by left | right].
      rewrite (graph_eq_order _ _ _ Hg0) in Hlt. lia.
    - intros x. rewrite Hpo, (graph_eq_order _ _ _ Hg). intros Hx Hk Hxe.
      destruct (decide (x = b)) as [-> | Hne].
      + destruct Hres as [[-> _] | (d & Hd & Hdin & Hdlt)]; [done |].
        exists d. by rewrite (graph_eq_order _ _ _ Hg).
      + assert (order c b < order c x) as Hlt.
        { destruct (decide (order c x = order c b)) as [Heq | ?]; [| lia].
          destruct Hne. by eapply order_inj. }
        destruct (is_done _ _ _ Hio x Hx Hlt Hxe) as (d & Hd & Hdin & Hdlt).
        exists d. rewrite Hother, (graph_eq_order _ _ _ Hg) by done. done. }
  destruct (default [] (preceding_edges c !! b)) as [|p pred] eqn:Hpred.
  - simpl. apply Hfinish; [apply graph_eq_refl | done |].
    destruct (decide (b = entry)) as [-> | Hne]; [by left |].
    destruct (finished_later_pred _ _ _ Htr b Hb Hne) as (q & Hq & _).
    unfold get_preceding_edges in Hq. rewrite Hpred in Hq. inversion Hq.
  - assert (∀ q, q ∈ p :: pred → q ∈ post_order c ∧ order c b < order c q) as Hq.
    { intros q Hq. apply Hlater; [done |]. unfold get_preceding_edges. by rewrite Hpred. }
    assert (b ≠ entry) as Hne.
    { intros ->. destruct (Hq p) as [Hpin Hplt]; [by left |].
      destruct (finished_order _ _ _ Htr p Hpin). lia. }
    eapply returns_within_weaken;
      [apply (fold_predecessors_returns n b (p :: pred) c0) | done |]; try done.
    + apply Hio0.
    + intros x Hx Hxe Hlt. by apply (is_done _ _ _ Hio0).
    + left. destruct (immediate_dominators c0 !! b) eqn:Hi; [| done].
      destruct (is_keys _ _ _ Hio0 b) as [? | Hlt]; [by rewrite Hi | done |].
      rewrite (graph_eq_order _ _ _ Hg0) in Hlt. lia.
    + simpl. intros c1 (Hg1 & Hother & Hres). apply Hfinish; [done.. |].
      right. by destruct Hres as [[? _] | ?].
Qed.

Lemma dominate_blocks_returns n l suf c :
  post_order c = rev l ++ suf →
  traversed compiler entry c → preds_finish_later c →
  idoms_strict entry (Z.of_nat (length l)) c →
  returns_within (2 * Z.of_nat (length (post_order c))) n
    (λ c', graph_eq c c' ∧ idoms_strict entry 0 c')
    (dominate_blocks n l c).
Proof.
  revert suf c. induction l as [|b l IH]; intros suf c Hpo Htr Hlater Hio; simpl.
  - split; [apply graph_eq_refl | done].
  - assert (post_order c !! length l = Some b) as Hi.
    { rewrite Hpo. simpl. rewrite <- app_assoc, lookup_app_r, length_rev by (rewrite length_rev; lia).
      by rewrite Nat.sub_diag. }
    assert (b ∈ post_order c) as Hb by by eapply list_elem_of_lookup_2.
    assert (order c b = Z.of_nat (S (length l))) as Hord.
    { unfold order. rewrite (ok_finished _ _ (tr_order _ _ _ Htr) _ _ Hi). simpl. lia. }
    simpl in Hio. rewrite <- Hord in Hio.
    eapply returns_within_bind; [by apply dominate_block_returns |].
    simpl. intros c1 [Hg Hio1]. pose proof Hg as (_ & Hpo1 & _).
    eapply returns_within_weaken; [apply (IH (b :: suf)) | by rewrite Hpo1 |].
    + rewrite Hpo1, Hpo. simpl. by rewrite <- app_assoc.
    + by eapply traversed_graph_eq.
    + by eapply preds_finish_later_graph_eq.
    + replace (Z.of_nat (length l)) with (order c b - 1) by lia. done.
    + simpl. intros c2 [Hg2 Hio2]. split; [by eapply graph_eq_trans | done].
Qed.

Lemma build_immediate_dominators_returns n c :
  traversed compiler entry c → preds_finish_later c →
  returns_within (2 * Z.of_nat (length (post_order c))) n
    (λ c', graph_eq c c' ∧ idoms_strict entry 0 c')
    (build_immediate_dominators {| entry_block := entry |} n c).
Proof.
  intros Htr Hlater. unfold build_immediate_dominators.
  set (c0 := {| preceding_edges := _ |}).
  assert (graph_eq c c0) as Hg0 by by split_and!.
  eapply returns_within_weaken; [apply (dominate_blocks_returns n _ [] c0) | done |].
  - by rewrite rev_involutive, app_nil_r.
  - by eapply traversed_graph_eq.
  - by eapply preds_finish_later_graph_eq.
  - rewrite length_rev. split.
    + simpl. apply lookup_singleton_eq.
    + intros b [d Hd]. simpl in Hd. apply lookup_singleton_Some in Hd as [<- _]. by left.
    + intros b Hb Hlt. destruct (finished_order _ _ _ Htr b Hb) as [_ Hr].
      change (order c0 b) with (order c b) in Hlt. simpl in Hlt. lia.
  - simpl. intros c' [Hg Hio]. split; [by eapply graph_eq_trans | done].
Qed.

(** When each loop header finished after its merge block, every
    predecessor finished after its successor. *)
Lemma merge_finishes_first_preds c :
  traversed compiler entry c → merge_finishes_first compiler c →
  preds_finish_later c.
Proof.
  intros Htr Hm b p Hb Hp.
  destruct (finished_pred _ _ _ Htr _ _ Hp) as [Hpin [Himp | [_ Hlt]]]; [| done].
  split; [done |]. by apply Hm.
Qed.

End Structured.

(** The construction returns for a function in a closed store with fewer
    than 2^31 blocks whose loop headers finish after their merge blocks; a
    budget of more than twice the number of blocks suffices. *)
Lemma CFG_new_returns compiler func n :
  closed_store compiler → Z.of_nat (size compiler) < 2 ^ 31 →
  is_Some (compiler !! entry_block func) → compiler !! 0%N = None →
  (∀ c, build_post_order_visit_order compiler func n CFG_empty = Done c →
        merge_finishes_first compiler c) →
  (2 * size compiler < n)%nat →
  ∃ cfg, CFG_new compiler func n = Done cfg.
Proof.
  intros Hclosed Hsize Hentry Hzero Hmerge Hn.
  destruct (build_post_order_visit_order_returns compiler func n)
    as [c Hc]; [done.. | lia |].
  unfold CFG_new. rewrite Hc. simpl.
  pose proof (traversal_traversed_store _ _ _ _ Hc Hsize) as Htr.
  pose proof (finished_bounded _ _ (tr_order _ _ _ Htr)) as Hlen.
  destruct func as [entry]. simpl in Htr.
  pose proof (merge_finishes_first_preds _ _ _ Htr (Hmerge c Hc)) as Hlater.
  pose proof (build_immediate_dominators_returns compiler entry Hzero n c Htr Hlater)
    as Hret.
  destruct (build_immediate_dominators _ n c) as [cfg | | |];
    simpl in Hret; [by exists cfg | done | done | lia].
Qed.

(** C10. As stated the claim fails.  In [entry_merge_blocks] the loop
    header 2 is a recorded predecessor of the entry block 1 and finished
    before it; when block 1, the first block processed, folds that
    predecessor, block 2 has no immediate dominator yet and the assertion
    fires.  In [shared_merge_blocks] the header 2 precedes its merge block 4
    in the same way and the construction fails as well. *)
Lemma predecessor_order_counterexample :
  (build_post_order_visit_order entry_merge_blocks entry_merge_func 8 CFG_empty
     = Done entry_merge_traversal ∧
   post_order entry_merge_traversal = [3%N; 2%N; 1%N] ∧
   get_preceding_edges entry_merge_traversal 1 = [2%N] ∧
   get_visit_order entry_merge_traversal 2 = Done 2 ∧
   get_visit_order entry_merge_traversal 1 = Done 3 ∧
   (∀ n, build_immediate_dominators entry_merge_func n entry_merge_traversal
           = AssertionFailed) ∧
   (∀ n, CFG_new entry_merge_blocks entry_merge_func (4 + n) = AssertionFailed)) ∧
  (build_post_order_visit_order shared_merge_blocks shared_merge_func 8 CFG_empty
     = Done shared_merge_traversal ∧
   get_preceding_edges shared_merge_traversal 4 = [2%N; 1%N] ∧
   get_visit_order shared_merge_traversal 2 = Done 2 ∧
   get_visit_order shared_merge_traversal 4 = Done 3 ∧
   build_immediate_dominators shared_merge_func 8 shared_merge_traversal
     = AssertionFailed).
Proof.
  split; split_and!; vm_compute; reflexivity.
Qed.

(** C10, amended.  Whenever [build_immediate_dominators] completes, every
    block in [post_order] has a non-zero immediate dominator.  When every
    finished loop header finished after its merge block (or the merge block
    was never visited), every recorded predecessor of a finished block
    finished later than the block, no assertion fires whatever the budget,
    and a budget of more than twice the number of finished blocks
    suffices. *)
Theorem predecessors_processed_first compiler func fuel c :
  build_post_order_visit_order compiler func fuel CFG_empty = Done c →
  Z.of_nat (length (post_order c)) < 2 ^ 31 →
  compiler !! 0%N = None →
  (∀ n cfg, build_immediate_dominators func n c = Done cfg →
     ∀ b, b ∈ post_order cfg → get_immediate_dominator cfg b ≠ 0%N) ∧
  (merge_finishes_first compiler c →
     preds_finish_later c ∧
     (∀ n, build_immediate_dominators func n c ≠ AssertionFailed) ∧
     (∀ n, (2 * length (post_order c) < n)%nat →
           ∃ cfg, build_immediate_dominators func n c = Done cfg)).
Proof.
  intros Htrav Hsmall Hzero.
  pose proof (traversal_traversed _ _ _ _ Htrav Hsmall) as Htr.
  destruct func as [entry]. simpl in Htr. split.
  - intros n cfg Hcfg b Hb.
    destruct (build_immediate_dominators_ok _ _ Hzero _ _ _ Htr Hcfg) as [Hg Hio].
    pose proof (traversed_graph_eq _ _ _ _ Hg Htr) as Htr'.
    destruct (finished_order _ _ _ Htr' b Hb) as [_ Hrange].
    destruct (io_done _ _ _ Hio b Hb) as (d & Hd & Hdin & _); [lia |].
    unfold get_immediate_dominator. rewrite Hd. simpl.
    by eapply finished_nonzero.
  - intros Hm.
    pose proof (merge_finishes_first_preds _ _ _ Htr Hm) as Hlater.
    split; [done |].
    pose proof (λ n, build_immediate_dominators_returns
                       compiler entry Hzero n c Htr Hlater) as Hret.
    split.
    + intros n Hfail. specialize (Hret n). by rewrite Hfail in Hret.
    + intros n Hn. specialize (Hret n).
      destruct (build_immediate_dominators _ n c) as [cfg | | |];
        simpl in Hret; [by exists cfg | done | done | lia].
Qed.

Lemma dowhile_merge_finishes_first :
  merge_finishes_first dowhile_blocks dowhile_traversal.
Proof.
  intros h t Hh (blk & Hblk & Hm & <-) Ht.
  apply list_elem_of_In in Hh. vm_compute in Hh.
  destruct Hh as [<- | [<- | [<- | [<- | []]]]];
    vm_compute in Hblk; injection Hblk as <-; try discriminate Hm.
  vm_compute. reflexivity.
Qed.

Lemma predecessors_processed_first_witness :
  (∀ n cfg, build_immediate_dominators dowhile_func n dowhile_traversal = Done cfg →
     ∀ b, b ∈ post_order cfg → get_immediate_dominator cfg b ≠ 0%N) ∧
  preds_finish_later dowhile_traversal ∧
  (∀ n, build_immediate_dominators dowhile_func n dowhile_traversal ≠ AssertionFailed) ∧
  (∀ n, (2 * length (post_order dowhile_traversal) < n)%nat →
        ∃ cfg, build_immediate_dominators dowhile_func n dowhile_traversal = Done cfg).
Proof.
  destruct (predecessors_processed_first dowhile_blocks dowhile_func 8 dowhile_traversal)
    as [Hnonzero Hlater].
  - vm_compute; reflexivity.
  - vm_compute; reflexivity.
  - vm_compute; reflexivity.
  - split; [exact Hnonzero | exact (Hlater dowhile_merge_finishes_first)].
Defined.

(** ** The do/while shape *)

Lemma is_state_eq c pe se vo po vc :
  is_state c pe se vo po vc →
  c = {| preceding_edges := pe; succeeding_edges := se; immediate_dominators := ∅;
         visit_order := vo; post_order := po; visit_count := vc |}.
Proof.
  destruct c as [a1 a2 a3 a4 a5 a6]. unfold is_state.
  cbn [preceding_edges succeeding_edges immediate_dominators visit_order
       post_order visit_count].
  intros (? & ? & ? & ? & ? & ?). by subst.
Qed.

Lemma is_state_empty : is_state CFG_empty ∅ ∅ ∅ [] 0.
Proof. by split_and!. Qed.

Lemma is_state_mark c pe se vo po vc b :
  is_state c pe se vo po vc →
  is_state (set_visit_order c b 0) pe se (<[b := 0]> vo) po vc.
Proof. intros (<- & <- & Hi & <- & <- & <-). by split_and!. Qed.

Lemma is_state_add_branch c pe se vo po vc from to lp ls :
  is_state c pe se vo po vc →
  default [] (pe !! to) = lp → default [] (se !! from) = ls →
  from ∉ lp → to ∉ ls →
  is_state (add_branch from to c) (<[to := lp ++ [from]]> pe)
    (<[from := ls ++ [to]]> se) vo po vc.
Proof.
  intros (<- & <- & Hi & <- & <- & <-) <- <- Hp Hs. unfold add_branch, add_unique.
  split_and!; cbn [preceding_edges succeeding_edges immediate_dominators
                   visit_order post_order visit_count]; try done.
  - by rewrite bool_decide_eq_false_2.
  - by rewrite bool_decide_eq_false_2.
Qed.

Lemma is_state_finish c pe se vo po vc b blk n v :
  merge blk ≠ MergeLoop →
  is_state c pe se vo po vc →
  u32_incr vc = n → int_of_u32 n = v →
  is_state (finish_block b blk c) pe se (<[b := v]> vo) (po ++ [b]) n.
Proof.
  intros Hm (<- & <- & Hi & <- & <- & <-) <- <-. unfold finish_block.
  destruct (merge blk); try done; by split_and!.
Qed.

Lemma is_state_finish_loop c pe se vo po vc b blk mb n v lp ls :
  merge blk = MergeLoop → merge_block blk = mb →
  is_state c pe se vo po vc →
  default [] (pe !! mb) = lp → default [] (se !! b) = ls →
  b ∉ lp → mb ∉ ls →
  u32_incr vc = n → int_of_u32 n = v →
  is_state (finish_block b blk c) (<[mb := lp ++ [b]]> pe)
    (<[b := ls ++ [mb]]> se) (<[b := v]> vo) (po ++ [b]) n.
Proof.
  intros Hm <- Hc Hlp Hls Hp Hs <- <-.
  pose proof (is_state_add_branch _ _ _ _ _ _ _ _ _ _ Hc Hlp Hls Hp Hs)
    as (Hpe & Hse & Hi & Hvo & Hpo & Hvc).
  unfold finish_block. rewrite Hm.
  split_and!; cbn [preceding_edges succeeding_edges immediate_dominators
                   visit_order post_order visit_count]; congruence.
Qed.

Lemma post_order_visit_unvisited compiler n c b blk :
  visit_order c !! b = None → compiler !! b = Some blk →
  post_order_visit compiler (S n) c b =
  visit_targets (post_order_visit compiler n) b blk (set_visit_order c b 0)
    ≫= λ c1, Done (true, finish_block b blk c1).
Proof.
  intros Hv Hblk. simpl. rewrite Hv. simpl. unfold get_SPIRBlock. rewrite Hblk. done.
Qed.

Lemma bind_Done_l {A B : Type} (a : A) (k : A → outcome B) : Done a ≫= k = k a.
Proof. done. Qed.

Lemma branch_to_result visit from t c ok c' :
  visit c t = Done (ok, c') →
  branch_to visit from t c = Done (if ok : bool then add_branch from t c' else c').
Proof. intros H. unfold branch_to. by rewrite H. Qed.

Lemma branch_to_in_progress compiler n from t c :
  visit_order c !! t = Some 0 →
  branch_to (post_order_visit compiler (S n)) from t c = Done c.
Proof. intros H. by rewrite (branch_to_result _ _ _ _ _ _ (post_order_visit_in_progress _ _ _ _ H)). Qed.

Lemma build_post_order_visit_order_fresh compiler func fuel :
  build_post_order_visit_order compiler func fuel CFG_empty =
  post_order_visit compiler fuel CFG_empty (entry_block func) ≫= λ r, Done r.2.
Proof.
  unfold build_post_order_visit_order.
  by destruct (post_order_visit _ _ _ _) as [[ok c] | | |].
Qed.

Lemma find_common_dominator_step_left n c a b va vb :
  a ≠ b → visit_order c !! a = Some va → visit_order c !! b = Some vb →
  u32_of_int va < u32_of_int vb →
  find_common_dominator (S n) c a b =
  find_common_dominator n c (get_immediate_dominator c a) b.
Proof.
  intros Hne Ha Hb Hlt. simpl. rewrite bool_decide_eq_false_2 by done.
  unfold get_visit_order. rewrite Ha, Hb. simpl.
  by destruct (Z.ltb_spec (u32_of_int va) (u32_of_int vb)); [| lia].
Qed.

Lemma dominate_block_none n b c :
  get_preceding_edges c b = [] →
  ∃ c', dominate_block n b c = Done c' ∧ graph_eq c c' ∧
        immediate_dominators c' = immediate_dominators c.
Proof.
  intros Hp. unfold dominate_block. pose proof (graph_eq_touch c b) as Hg.
  unfold get_preceding_edges in Hp. rewrite Hp in Hg |- *.
  eexists. split_and!; [done | exact Hg | done].
Qed.

Lemma dominate_block_one n b p c :
  get_preceding_edges c b = [p] → get_immediate_dominator c b = 0%N →
  ∃ c', dominate_block n b c = Done c' ∧ graph_eq c c' ∧
        immediate_dominators c' = <[b := p]> (immediate_dominators c).
Proof.
  intros Hp Hb. unfold dominate_block. unfold get_preceding_edges in Hp.
  rewrite Hp. rewrite fold_predecessors_seed by exact Hb.
  eexists. split_and!; [done | | done].
  eapply graph_eq_trans; [| apply graph_eq_set_immediate_dominator].
  rewrite <- Hp. apply graph_eq_touch.
Qed.

Lemma dominate_block_two n b p q r c :
  get_preceding_edges c b = [p; q] → get_immediate_dominator c b = 0%N →
  p ≠ 0%N → b ≠ q → get_immediate_dominator c q ≠ 0%N →
  (∀ c'', visit_order c'' = visit_order c →
          immediate_dominators c'' = <[b := p]> (immediate_dominators c) →
          find_common_dominator n c'' b q = Done r) →
  ∃ c', dominate_block n b c = Done c' ∧ graph_eq c c' ∧
        immediate_dominators c' = <[b := r]> (<[b := p]> (immediate_dominators c)).
Proof.
  intros Hp Hb Hpz Hbq Hq Hfcd. unfold dominate_block. unfold get_preceding_edges in Hp.
  rewrite Hp. rewrite fold_predecessors_seed by exact Hb.
  rewrite fold_predecessors_fold.
  2:{ unfold get_immediate_dominator. cbn [immediate_dominators set_immediate_dominator].
      by rewrite lookup_insert_eq. }
  rewrite bool_decide_eq_true_2.
  2:{ unfold get_immediate_dominator in *. cbn [immediate_dominators set_immediate_dominator].
      by rewrite lookup_insert_ne. }
  rewrite Hfcd by done. eexists. split_and!; [done | | done].
  eapply graph_eq_trans; [| apply graph_eq_set_immediate_dominator].
  eapply graph_eq_trans; [| apply graph_eq_set_immediate_dominator].
  rewrite <- Hp. apply graph_eq_touch.
Qed.

Lemma ids_distinct (E H B M : N) :
  NoDup [E; H; B; M] → E ≠ H ∧ E ≠ B ∧ E ≠ M ∧ H ≠ B ∧ H ≠ M ∧ B ≠ M.
Proof.
  intros Hd. rewrite !NoDup_cons, !not_elem_of_cons in Hd.
  intuition congruence.
Qed.

Ltac lookups :=
  repeat (rewrite lookup_insert_eq || (rewrite lookup_insert_ne by done)
          || rewrite lookup_empty);
  cbn [default from_option].

Section DoWhile.
Variable compiler : gmap N SPIRBlock.
Variables E H B M : N.
Variables bE bH bB bM : SPIRBlock.
Hypothesis HE : compiler !! E = Some bE.
Hypothesis HH : compiler !! H = Some bH.
Hypothesis HB : compiler !! B = Some bB.
Hypothesis HM : compiler !! M = Some bM.
Hypothesis Hdistinct : NoDup [E; H; B; M].
Hypothesis HtE : terminator bE = Direct ∧ next_block bE = H ∧ merge bE ≠ MergeLoop.
Hypothesis HtH : terminator bH = Direct ∧ next_block bH = B ∧ merge bH = MergeLoop ∧ merge_block bH = M.
Hypothesis HtB : terminator bB = Select ∧ merge bB ≠ MergeLoop ∧
  ((true_block bB = H ∧ false_block bB = M) ∨ (true_block bB = M ∧ false_block bB = H)).
Hypothesis HtM : (terminator bM = Return ∨ terminator bM = Unreachable) ∧ merge bM ≠ MergeLoop.

Lemma visit_merge n c :
  visit_order c !! M = None →
  post_order_visit compiler (S n) c M = Done (true, finish_block M bM (set_visit_order c M 0)).
Proof.
  intros Hv. erewrite post_order_visit_unvisited by done.
  unfold visit_targets. by destruct HtM as [[-> | ->] _].
Qed.

Lemma visit_latch n c :
  visit_order c !! B = None → visit_order c !! M = None → visit_order c !! H = Some 0 →
  post_order_visit compiler (S (S n)) c B =
  Done (true, finish_block B bB
                (add_branch B M (finish_block M bM
                   (set_visit_order (set_visit_order c B 0) M 0)))).
Proof.
  intros HvB HvM HvH. destruct (ids_distinct _ _ _ _ Hdistinct) as (? & ? & ? & ? & ? & ?).
  destruct HtB as (tB & mB & HsB).
  erewrite post_order_visit_unvisited by done.
  unfold visit_targets. rewrite tB.
  assert (visit_order (set_visit_order c B 0) !! H = Some 0) as Hin.
  { cbn [visit_order set_visit_order]. by rewrite lookup_insert_ne. }
  assert (visit_order (set_visit_order c B 0) !! M = None) as Hun.
  { cbn [visit_order set_visit_order]. by rewrite lookup_insert_ne. }
  destruct HsB as [[-> ->] | [-> ->]].
  - rewrite (branch_to_in_progress _ _ _ _ _ Hin), bind_Done_l.
    erewrite branch_to_result by (by apply visit_merge). by rewrite bind_Done_l.
  - erewrite branch_to_result by (by apply visit_merge). rewrite bind_Done_l.
    cbv iota.
    rewrite branch_to_in_progress; [reflexivity |].
    change (visit_order (add_branch B M ?c)) with (visit_order c).
    rewrite visit_order_finish_block. cbn [visit_order set_visit_order].
    rewrite lookup_insert_ne by done. rewrite lookup_insert_ne by done.
    by rewrite lookup_insert_ne.
Qed.

Lemma visit_header n c :
  visit_order c !! H = None → visit_order c !! B = None → visit_order c !! M = None →
  post_order_visit compiler (S (S (S n))) c H =
  Done (true, finish_block H bH
                (add_branch H B (finish_block B bB
                   (add_branch B M (finish_block M bM
                      (set_visit_order (set_visit_order (set_visit_order c H 0) B 0) M 0)))))).
Proof.
  intros HvH HvB HvM. destruct (ids_distinct _ _ _ _ Hdistinct) as (? & ? & ? & ? & ? & ?).
  destruct HtH as (tH & nH & mH & mbH).
  erewrite post_order_visit_unvisited by done.
  unfold visit_targets. rewrite tH, nH.
  erewrite branch_to_result.
  2:{ apply visit_latch; cbn [visit_order set_visit_order];
        [by rewrite lookup_insert_ne | by rewrite lookup_insert_ne
        | by rewrite lookup_insert_eq]. }
  reflexivity.
Qed.

Lemma dowhile_traversal_result n :
  build_post_order_visit_order compiler {| entry_block := E |} (4 + n) CFG_empty
  = Done (dowhile_traversed E H B M).
Proof.
  destruct (ids_distinct _ _ _ _ Hdistinct) as (? & ? & ? & ? & ? & ?).
  destruct HtE as (tE & nE & mE), HtH as (tH & nH & mH & mbH), HtB as (tB & mB & HsB), HtM as (tM & mM).
  rewrite build_post_order_visit_order_fresh. cbn [entry_block].
  change (4 + n)%nat with (S (S (S (S n)))).
  erewrite post_order_visit_unvisited; [| apply lookup_empty | exact HE].
  unfold visit_targets. rewrite tE, nE.
  erewrite branch_to_result.
  2:{ apply visit_header; cbn [visit_order set_visit_order];
        rewrite lookup_insert_ne by done; apply lookup_empty. }
  cbv iota. rewrite !bind_Done_l. cbn [snd]. f_equal.
  apply is_state_eq.
  eapply (is_state_finish _ _ _ _ [M; B; H] 3 E bE 4 4); [done | | reflexivity..].
  eapply (is_state_add_branch _ _ _ _ _ _ E H [] []);
    [| by lookups | by lookups | apply not_elem_of_nil..].
  eapply (is_state_finish_loop _ _ _ _ [M; B] 2 H bH M 3 3 [B] [B]);
    [done | done | | by lookups | by lookups | | | reflexivity..].
  2:{ by intros ->%list_elem_of_singleton. }
  2:{ by intros ->%list_elem_of_singleton. }
  eapply (is_state_add_branch _ _ _ _ _ _ H B [] []);
    [| by lookups | by lookups | apply not_elem_of_nil..].
  eapply (is_state_finish _ _ _ _ [M] 1 B bB 2 2); [done | | reflexivity..].
  eapply (is_state_add_branch _ _ _ _ _ _ B M [] []);
    [| by lookups | by lookups | apply not_elem_of_nil..].
  eapply (is_state_finish _ _ _ _ [] 0 M bM 1 1); [done | | reflexivity..].
  repeat apply is_state_mark. apply is_state_empty.
Qed.
Hypothesis Hzero : compiler !! 0%N = None.

Lemma dowhile_dominators n :
  ∃ cfg, build_immediate_dominators {| entry_block := E |} (4 + n)
           (dowhile_traversed E H B M) = Done cfg ∧
         graph_eq (dowhile_traversed E H B M) cfg ∧
         get_immediate_dominator cfg M = H.
Proof.
  destruct (ids_distinct _ _ _ _ Hdistinct) as (? & ? & ? & ? & ? & ?).
  assert (E ≠ 0%N ∧ B ≠ 0%N) as [HEz HBz] by (split; intros ->; congruence).
  unfold build_immediate_dominators. cbn [entry_block post_order dowhile_traversed rev app].
  set (c0 := {| preceding_edges := _ |}).
  assert (∀ c, graph_eq c0 c →
            get_preceding_edges c E = [] ∧ get_preceding_edges c H = [E] ∧
            get_preceding_edges c B = [H] ∧ get_preceding_edges c M = [B; H] ∧
            visit_order c !! M = Some 1 ∧ visit_order c !! B = Some 2 ∧
            visit_order c !! H = Some 3) as Hgraph.
  { intros c (Hvo & _ & _ & _ & Hpe). rewrite !Hpe, Hvo.
    unfold get_preceding_edges, c0, dowhile_traversed.
    cbn [preceding_edges visit_order]. split_and!; by lookups. }
  cbn [dominate_blocks].
  destruct (Hgraph c0 (graph_eq_refl _)) as (HpE & _).
  destruct (dominate_block_none (4 + n) E c0 HpE) as (c1 & -> & Hg1 & Hi1).
  rewrite bind_Done_l.
  destruct (Hgraph c1 Hg1) as (_ & HpH & _).
  destruct (dominate_block_one (4 + n) H E c1 HpH) as (c2 & -> & Hg2 & Hi2).
  { unfold get_immediate_dominator. rewrite Hi1. cbn [immediate_dominators c0].
    by rewrite lookup_singleton_ne. }
  rewrite bind_Done_l.
  pose proof (graph_eq_trans _ _ _ Hg1 Hg2) as Hg02.
  destruct (Hgraph c2 Hg02) as (_ & _ & HpB & _).
  destruct (dominate_block_one (4 + n) B H c2 HpB) as (c3 & -> & Hg3 & Hi3).
  { unfold get_immediate_dominator. rewrite Hi2, Hi1. cbn [immediate_dominators c0].
    rewrite lookup_insert_ne by done. by rewrite lookup_singleton_ne. }
  rewrite bind_Done_l.
  pose proof (graph_eq_trans _ _ _ Hg02 Hg3) as Hg03.
  destruct (Hgraph c3 Hg03) as (_ & _ & _ & HpM & HvM & HvB & HvH).
  destruct (dominate_block_two (4 + n) M B H H c3 HpM) as (c4 & -> & Hg4 & Hi4);
    [| done | done | | |].
  - unfold get_immediate_dominator. rewrite Hi3, Hi2, Hi1. cbn [immediate_dominators c0].
    rewrite !lookup_insert_ne by done. by rewrite lookup_singleton_ne.
  - unfold get_immediate_dominator. rewrite Hi3, Hi2, Hi1. cbn [immediate_dominators c0].
    rewrite lookup_insert_ne by done. by rewrite lookup_insert_eq.
  - intros c'' Hvo Hi. change (4 + n)%nat with (S (S (S (S n)))).
    rewrite (find_common_dominator_step_left _ _ M H 1 3); [| done | congruence.. | done].
    replace (get_immediate_dominator c'' M) with B.
    2:{ unfold get_immediate_dominator. rewrite Hi. by rewrite lookup_insert_eq. }
    rewrite (find_common_dominator_step_left _ _ B H 2 3); [| done | congruence.. | done].
    replace (get_immediate_dominator c'' B) with H.
    2:{ unfold get_immediate_dominator. rewrite Hi, Hi3.
        rewrite lookup_insert_ne by done. by rewrite lookup_insert_eq. }
    apply find_common_dominator_same.
  - rewrite bind_Done_l. cbn [dominate_blocks]. exists c4. split_and!; [done | |].
    + eapply graph_eq_trans; [| exact Hg4]. eapply graph_eq_trans; [| exact Hg03].
      by split_and!.
    + unfold get_immediate_dominator. rewrite Hi4. by rewrite lookup_insert_eq.
Qed.

End DoWhile.

(** * Further properties *)

(** ** Reachability *)

Section TraversalReach.

Variable compiler : gmap N SPIRBlock.

Lemma visits_reach :
  (∀ c b ok c', visits compiler c b ok c' →
     ∀ x, is_Some (visit_order c' !! x) →
          is_Some (visit_order c !! x) ∨ rtc (branches_to compiler) b x) ∧
  (∀ c from ts c', visits_all compiler c from ts c' →
     ∀ x, is_Some (visit_order c' !! x) →
          is_Some (visit_order c !! x) ∨
          ∃ t, t ∈ ts ∧ rtc (branches_to compiler) t x).
Proof.
  apply (visits_mutind compiler
    (λ c b ok c',
       ∀ x, is_Some (visit_order c' !! x) →
            is_Some (visit_order c !! x) ∨ rtc (branches_to compiler) b x)
    (λ c from ts c',
       ∀ x, is_Some (visit_order c' !! x) →
            is_Some (visit_order c !! x) ∨
            ∃ t, t ∈ ts ∧ rtc (branches_to compiler) t x)).
  - intros c b v _ _ x Hx. by left.
  - intros c b blk c1 _ Hblk _ IH x Hx.
    rewrite visit_order_finish_block in Hx.
    destruct (decide (b = x)) as [-> | Hne]; [by right |].
    rewrite lookup_insert_ne in Hx by done.
    destruct (IH x Hx) as [Hc | (t & Ht & Hreach)].
    + simpl in Hc. rewrite lookup_insert_ne in Hc by done. by left.
    + right. eapply rtc_l; [| done]. by exists blk.
  - intros c from x Hx. by left.
  - intros c from t ts ok c1 c2 _ IH1 _ IH2 x Hx.
    destruct (IH2 x Hx) as [Hc1 | (t' & Ht' & Hreach)].
    + rewrite visit_order_branch in Hc1.
      destruct (IH1 x Hc1) as [Hc | Hreach]; [by left |].
      right. exists t. split; [by left | done].
    + right. exists t'. split; [by right | done].
Qed.

End TraversalReach.

Lemma traversal_reachable compiler func fuel c :
  build_post_order_visit_order compiler func fuel CFG_empty = Done c →
  Z.of_nat (length (post_order c)) < 2 ^ 31 →
  ∀ b, b ∈ post_order c ↔ rtc (branches_to compiler) (entry_block func) b.
Proof.
  intros Hc Hsmall b.
  pose proof (traversal_traversed _ _ _ _ Hc Hsmall) as Htr.
  pose proof (traversal_targets _ _ _ _ Hc) as Hts.
  split.
  - intros Hb. unfold build_post_order_visit_order in Hc. inv_bind Hc.
    destruct x as [ok c']. injection Hc as ->.
    apply post_order_visit_visits in Hx.
    destruct (proj1 (visits_reach compiler) _ _ _ _ Hx b) as [Hv | Hreach]; [| | done].
    + destruct (finished_order _ _ _ Htr b Hb) as [Hv _]. by rewrite Hv.
    + simpl in Hv. rewrite lookup_empty in Hv. by destruct Hv.
  - revert b. apply rtc_ind_r; [apply (order_entry _ _ _ Htr) |].
    intros x y _ (blk & Hblk & Ht) Hx.
    eapply visited_finished; [done |]. by eapply Hts.
Qed.

(** ** The recorded edges *)

Lemma target_settled_add_branch from to c f t :
  target_settled c f t → target_settled (add_branch from to c) f t.
Proof.
  intros [H | H]; [left | by right].
  apply succeeding_add_branch. by left.
Qed.

Lemma few_blocks_earlier compiler c c' :
  (length (post_order c) ≤ length (post_order c'))%nat →
  few_blocks compiler c' → few_blocks compiler c.
Proof. intros Hle [H | H]; [by left | right; lia]. Qed.

Section TraversalGraph.

Variable compiler : gmap N SPIRBlock.

Lemma edges_complete_finish c b blk :
  order_ok compiler c → visit_order c !! b = Some 0 →
  compiler !! b = Some blk →
  Z.of_nat (length (post_order c)) < 2 ^ 31 - 1 →
  edges_complete compiler c →
  (∀ t, t ∈ branch_targets blk →
        t ∈ get_succeeding_edges c b ∨ visit_order c !! t = Some 0) →
  edges_complete compiler (finish_block b blk c).
Proof.
  intros Hok Hb Hblk Hlen Hcomplete Hts f t Hf Hft.
  assert (visit_order (finish_block b blk c) !! b
          = Some (Z.of_nat (length (post_order c)) + 1)) as Hbn.
  { rewrite visit_order_finish_block, lookup_insert_eq, (ok_count _ _ Hok).
    by rewrite u32_incr_small by lia. }
  assert (∀ x, x ≠ b →
            visit_order (finish_block b blk c) !! x = visit_order c !! x) as Hother.
  { intros x Hx. by rewrite visit_order_finish_block, lookup_insert_ne. }
  assert (∀ x, x ∈ get_succeeding_edges c f →
               x ∈ get_succeeding_edges (finish_block b blk c) f) as Hmono.
  { intros x Hx. apply succeeding_finish_block. by left. }
  rewrite post_order_finish_block in Hf.
  apply elem_of_app in Hf as [Hf | ->%list_elem_of_singleton].
  - destruct (order_ok_finished_pos _ _ _ Hok Hf) as (vf & Hvf & Hpos & Hle).
    assert (f ≠ b) as Hfb by (intros ->; rewrite Hb in Hvf; injection Hvf as <-; lia).
    destruct (Hcomplete f t Hf Hft) as [Hs | [Hz | (vf' & vt & Hvf' & Hvt & Hlt)]].
    + left. by apply Hmono.
    + right. destruct (decide (t = b)) as [-> | Htb].
      * right. exists vf, (Z.of_nat (length (post_order c)) + 1).
        rewrite Hother by done. split_and!; [done | done | lia].
      * left. by rewrite Hother.
    + right. right. exists vf', vt. rewrite Hother by done.
      destruct (decide (t = b)) as [-> | Htb].
      * rewrite Hb in Hvt. injection Hvt as <-.
        rewrite Hvf in Hvf'. injection Hvf' as <-. lia.
      * by rewrite Hother.
  - destruct Hft as (blk' & Hblk' & Ht). rewrite Hblk in Hblk'. injection Hblk' as <-.
    destruct (Hts t Ht) as [Hs | Hz].
    + left. by apply Hmono.
    + right. destruct (decide (t = b)) as [-> | Htb].
      * right. eexists _, _. split_and!; [done | done | lia].
      * left. by rewrite Hother.
Qed.

Lemma visits_graph :
  (∀ c t ok c', visits compiler c t ok c' →
     few_blocks compiler c' → order_ok compiler c → preds_ok c →
     edges_real compiler c → edges_complete compiler c →
     (∀ f x, x ∈ get_succeeding_edges c f → x ∈ get_succeeding_edges c' f) ∧
     edges_real compiler c' ∧ edges_complete compiler c') ∧
  (∀ c from ts c', visits_all compiler c from ts c' →
     few_blocks compiler c' → order_ok compiler c → preds_ok c →
     visit_order c !! from = Some 0 →
     (∀ t, t ∈ ts → branches_to compiler from t) →
     edges_real compiler c → edges_complete compiler c →
     (∀ f x, x ∈ get_succeeding_edges c f → x ∈ get_succeeding_edges c' f) ∧
     edges_real compiler c' ∧ edges_complete compiler c' ∧
     (∀ t, t ∈ ts →
           t ∈ get_succeeding_edges c' from ∨ visit_order c' !! t = Some 0)).
Proof.
  apply (visits_mutind compiler
    (λ c t ok c',
       few_blocks compiler c' → order_ok compiler c → preds_ok c →
       edges_real compiler c → edges_complete compiler c →
       (∀ f x, x ∈ get_succeeding_edges c f → x ∈ get_succeeding_edges c' f) ∧
       edges_real compiler c' ∧ edges_complete compiler c')
    (λ c from ts c',
       few_blocks compiler c' → order_ok compiler c → preds_ok c →
       visit_order c !! from = Some 0 →
       (∀ t, t ∈ ts → branches_to compiler from t) →
       edges_real compiler c → edges_complete compiler c →
       (∀ f x, x ∈ get_succeeding_edges c f → x ∈ get_succeeding_edges c' f) ∧
       edges_real compiler c' ∧ edges_complete compiler c' ∧
       (∀ t, t ∈ ts →
             t ∈ get_succeeding_edges c' from ∨ visit_order c' !! t = Some 0))).
  - done.
  - (* first visit *)
    intros c b blk c1 Hlt Hblk Hall IH Hfew Hok Hpreds Hreal Hcomplete.
    pose proof (order_ok_unvisited _ _ _ Hok Hlt) as Hb.
    assert (few_blocks compiler c1) as Hfew1.
    { eapply few_blocks_earlier; [| done].
      rewrite post_order_finish_block, length_app. lia. }
    assert (order_ok compiler (set_visit_order c b 0)) as Hok0
      by by eapply order_ok_mark.
    assert (preds_ok (set_visit_order c b 0)) as Hpreds0.
    { intros x Hx. apply has_later_pred_mark; [done | by apply Hpreds]. }
    assert (visit_order (set_visit_order c b 0) !! b = Some 0) as Hb0
      by (simpl; apply lookup_insert_eq).
    destruct (proj2 (visits_order compiler) _ _ _ _ Hall Hfew1 Hok0 Hpreds0 Hb0)
      as (Hok1 & Hprog1 & _).
    assert (visit_order c1 !! b = Some 0) as Hb1 by by apply Hprog1.
    destruct IH as (Hmono & Hreal1 & Hcomplete1 & Hts); [done.. | | | |].
    { intros t Ht. by exists blk. }
    { exact Hreal. }
    { intros f t Hf Hft. destruct (Hcomplete f t Hf Hft)
        as [Hs | [Hz | (vf & vt & Hvf & Hvt & Hle)]].
      - by left.
      - right. left. simpl. rewrite lookup_insert_ne; [done |]. intros <-.
        by rewrite Hb in Hz.
      - right. right. exists vf, vt. simpl.
        rewrite !lookup_insert_ne; [done | intros <- | intros <-]; congruence. }
    split_and!.
    + intros f x Hx. apply succeeding_finish_block. left. by apply Hmono.
    + intros f t [Hs | (-> & Hm & <-)]%succeeding_finish_block; [by apply Hreal1 |].
      right. by exists blk.
    + apply edges_complete_finish; [done.. | | done | done].
      pose proof (order_ok_room _ _ _ Hok1 Hb1). destruct Hfew as [Hsz | Hsz]; [lia |].
      rewrite post_order_finish_block, length_app in Hsz. simpl in Hsz. lia.
  - intros c from _ _ _ _ _ Hreal Hcomplete. split_and!; [done.. |].
    intros t Ht. inversion Ht.
  - (* one guarded call, then the remaining targets *)
    intros c from t ts ok c1 c2 Hvis IH1 Hrest IH2 Hfew Hok Hpreds Hfrom Hts
      Hreal Hcomplete.
    pose proof (proj2 (visits_length compiler) _ _ _ _ Hrest) as Hlen.
    assert (few_blocks compiler (if ok then add_branch from t c1 else c1)) as Hfew1'
      by by eapply few_blocks_earlier.
    assert (few_blocks compiler c1) as Hfew1
      by (unfold few_blocks in *; by rewrite post_order_branch in Hfew1').
    assert (visits_all compiler c from [t] (if ok then add_branch from t c1 else c1))
      as Hone by (econstructor; [done | constructor]).
    destruct (proj2 (visits_order compiler) _ _ _ _ Hone Hfew1' Hok Hpreds Hfrom)
      as (Hok1' & Hprog1' & Hpreds1').
    destruct (proj1 (visits_order compiler) _ _ _ _ Hvis Hfew1 Hok Hpreds)
      as (_ & _ & Hans & _).
    destruct (proj2 (visits_order compiler) _ _ _ _ Hrest Hfew Hok1' Hpreds1')
      as (_ & Hprog2 & _); [by apply Hprog1' |].
    destruct IH1 as (Hmono1 & Hreal1 & Hcomplete1); [done.. |].
    destruct IH2 as (Hmono2 & Hreal2 & Hcomplete2 & Hts2); [done.. | by apply Hprog1' | | | |].
    { intros t' Ht'. apply Hts. by right. }
    { destruct ok; [| done].
      intros f x [Hs | [-> ->]]%succeeding_add_branch; [by apply Hreal1 |].
      left. apply Hts. by left. }
    { destruct ok; [| done]. intros f x Hf Hfx.
      apply target_settled_add_branch. by apply Hcomplete1. }
    split_and!; [| done | done |].
    + intros f x Hx. apply Hmono2. destruct ok; [| by apply Hmono1].
      apply succeeding_add_branch. left. by apply Hmono1.
    + intros t' [-> | Ht']%elem_of_cons; [| by apply Hts2].
      destruct ok.
      * left. apply Hmono2, succeeding_add_branch. by right.
      * right. destruct Hans as [-> Hz]. by apply Hprog2.
Qed.

End TraversalGraph.

Lemma traversal_graph compiler func fuel c :
  build_post_order_visit_order compiler func fuel CFG_empty = Done c →
  Z.of_nat (length (post_order c)) < 2 ^ 31 →
  edges_real compiler c ∧ edges_complete compiler c.
Proof.
  intros Hc Hsmall. unfold build_post_order_visit_order in Hc. inv_bind Hc.
  destruct x as [ok c']. injection Hc as ->.
  apply post_order_visit_visits in Hx.
  destruct (proj1 (visits_graph compiler) _ _ _ _ Hx) as (_ & Hreal & Hcomplete);
    [by right | apply order_ok_empty | by intros x Hin; inversion Hin | | | done].
  - intros f t Ht. unfold get_succeeding_edges in Ht. simpl in Ht.
    rewrite lookup_empty in Ht. inversion Ht.
  - intros f t Hf. inversion Hf.
Qed.

(** ** Nearest common ancestors *)

Lemma idoms_strict_climbs compiler entry k c :
  traversed compiler entry c → idoms_strict entry k c → climbs c k.
Proof.
  intros Htr Hio x Hx Hk. destruct (decide (x = entry)) as [-> | Hne].
  - exists entry. split_and!; [apply Hio | done | lia].
  - destruct (is_done _ _ _ Hio x Hx Hk Hne) as (d & Hd & Hdin & Hlt).
    exists d. split_and!; [done | done | lia].
Qed.

Lemma climbs_step c k x :
  climbs c k → x ∈ post_order c → k < order c x →
  get_immediate_dominator c x ∈ post_order c ∧
  order c x ≤ order c (get_immediate_dominator c x).
Proof.
  intros Hcl Hx Hk. destruct (Hcl x Hx Hk) as (d & Hd & Hdin & Hle).
  unfold get_immediate_dominator. by rewrite Hd.
Qed.

Lemma climbs_chain c k x z :
  climbs c k → rtc (idom_step c) x z → x ∈ post_order c → k < order c x →
  z ∈ post_order c ∧ order c x ≤ order c z.
Proof.
  intros Hcl Hrtc. induction Hrtc as [x | x y z Hstep _ IH]; intros Hx Hk.
  - split; [done | lia].
  - destruct (climbs_step c k x Hcl Hx Hk) as [Hd Hle].
    unfold idom_step in Hstep. subst y.
    destruct IH as [Hz Hle']; [done | lia |]. split; [done | lia].
Qed.

(** Chains that start above [b] do not depend on the dominator of [b]. *)
Lemma chain_frame c c' b x z :
  climbs c (order c b) →
  (∀ y, y ≠ b → get_immediate_dominator c' y = get_immediate_dominator c y) →
  x ∈ post_order c → order c b < order c x →
  rtc (idom_step c) x z ↔ rtc (idom_step c') x z.
Proof.
  intros Hcl Hsame Hx Hlt.
  assert (∀ y, y ∈ post_order c → order c b < order c y → y ≠ b) as Hne
    by (intros y _ Hy ->; lia).
  split; intros Hrtc.
  - revert Hx Hlt. induction Hrtc as [x | x y z Hstep _ IH]; intros Hx Hlt; [done |].
    destruct (climbs_step c _ x Hcl Hx Hlt) as [Hd Hle].
    unfold idom_step in Hstep. subst y.
    eapply rtc_l; [| apply IH; [done | lia]].
    unfold idom_step. symmetry. apply Hsame. by apply Hne.
  - revert Hx Hlt. induction Hrtc as [x | x y z Hstep _ IH]; intros Hx Hlt; [done |].
    destruct (climbs_step c _ x Hcl Hx Hlt) as [Hd Hle].
    unfold idom_step in Hstep. rewrite Hsame in Hstep by by apply Hne. subst y.
    eapply rtc_l; [| apply IH; [done | lia]]. done.
Qed.

Section Nearest.

Variable compiler : gmap N SPIRBlock.
Variable entry : N.
Hypothesis Hzero : compiler !! 0%N = None.

(** What [find_common_dominator] returns lies on both chains, and every
    block on both chains lies on the chain of the result. *)
Lemma find_common_dominator_nearest c k n a b r :
  traversed compiler entry c → climbs c k →
  a ∈ post_order c → b ∈ post_order c → k < order c a → k < order c b →
  find_common_dominator n c a b = Done r →
  ∀ z, rtc (idom_step c) a z → rtc (idom_step c) b z → rtc (idom_step c) r z.
Proof.
  intros Htr Hcl. revert a b.
  induction n as [|n IH]; intros a b Ha Hb Hka Hkb; simpl;
    case_bool_decide as Hab; try done; try (by intros [= <-]).
  rewrite (get_visit_order_finished _ _ _ Htr a Ha),
          (get_visit_order_finished _ _ _ Htr b Hb). simpl.
  intros Hr z Haz Hbz.
  destruct (Z.ltb_spec (order c a) (order c b)) as [Hlt | Hge].
  - destruct (climbs_step c k a Hcl Ha Hka) as [Hd Hle].
    apply (IH _ b Hd Hb ltac:(lia) Hkb Hr); [| done].
    apply rtc_inv in Haz as [<- | (y & Hstep & Hrest)].
    + destruct (climbs_chain c k b a Hcl Hbz Hb Hkb). lia.
    + unfold idom_step in Hstep. by subst y.
  - assert (order c b < order c a) as Hlt.
    { destruct (decide (order c a = order c b)) as [Heq | ?]; [| lia].
      destruct Hab. by eapply order_inj. }
    destruct (climbs_step c k b Hcl Hb Hkb) as [Hd Hle].
    apply (IH a _ Ha Hd Hka ltac:(lia) Hr); [done |].
    apply rtc_inv in Hbz as [<- | (y & Hstep & Hrest)].
    + destruct (climbs_chain c k a b Hcl Haz Ha Hka). lia.
    + unfold idom_step in Hstep. by subst y.
Qed.

End Nearest.

Lemma nearest_common_ancestor_frame c c' b bs r :
  climbs c (order c b) →
  (∀ y, y ≠ b → get_immediate_dominator c' y = get_immediate_dominator c y) →
  (∀ p, p ∈ bs → p ∈ post_order c ∧ order c b < order c p) →
  r ∈ post_order c → order c b < order c r →
  nearest_common_ancestor c bs r → nearest_common_ancestor c' bs r.
Proof.
  intros Hcl Hsame Hbs Hr Hlt [Hcommon Hnearest]. split.
  - intros p Hp. destruct (Hbs p Hp). apply (chain_frame c c' b); auto.
  - intros z Hz. apply (chain_frame c c' b); [done.. |]. apply Hnearest.
    intros p Hp. destruct (Hbs p Hp). apply (chain_frame c c' b); auto.
Qed.

Lemma get_immediate_dominator_set c b d y :
  y ≠ b →
  get_immediate_dominator (set_immediate_dominator c b d) y
  = get_immediate_dominator c y.
Proof. intros Hy. unfold get_immediate_dominator. simpl. by rewrite lookup_insert_ne. Qed.

Section NearestFold.

Variable compiler : gmap N SPIRBlock.
Variable entry : N.
Hypothesis Hzero : compiler !! 0%N = None.

Lemma climbs_set c b d :
  climbs c (order c b) → climbs (set_immediate_dominator c b d) (order c b).
Proof.
  intros Hcl x Hx Hlt. simpl in Hx. change (order c b < order c x) in Hlt.
  destruct (Hcl x Hx Hlt) as (d' & Hd' & Hin & Hle). exists d'.
  simpl. rewrite lookup_insert_ne; [done |]. intros <-. lia.
Qed.

(** The loop over the predecessors of [b] leaves the nearest common
    ancestor of the predecessors as the dominator of [b]. *)
Lemma fold_predecessors_nearest n b pred :
  ∀ seen c c',
  traversed compiler entry c → b ∈ post_order c →
  climbs c (order c b) →
  (∀ p, p ∈ seen ++ pred → p ∈ post_order c ∧ order c b < order c p) →
  match seen with
  | [] => immediate_dominators c !! b = None
  | _ => ∃ r, immediate_dominators c !! b = Some r ∧ r ∈ post_order c ∧
              order c b < order c r ∧ nearest_common_ancestor c seen r
  end →
  fold_predecessors n b pred c = Done c' →
  (∀ x, x ≠ b → immediate_dominators c' !! x = immediate_dominators c !! x) ∧
  match seen ++ pred with
  | [] => immediate_dominators c' !! b = None
  | _ => ∃ r, immediate_dominators c' !! b = Some r ∧ r ∈ post_order c ∧
              order c b < order c r ∧ nearest_common_ancestor c' (seen ++ pred) r
  end.
Proof.
  induction pred as [|p pred IH]; intros seen c c' Htr Hb Hcl Hall Hcur Hfold.
  { simpl in Hfold. injection Hfold as <-. rewrite app_nil_r. done. }
  destruct (Hall p) as [Hp Hplt]; [apply elem_of_app; right; by left |].
  assert (∀ d, d ∈ post_order c → order c b < order c d →
            nearest_common_ancestor c (seen ++ [p]) d →
            fold_predecessors n b pred (set_immediate_dominator c b d) = Done c' →
            (∀ x, x ≠ b → immediate_dominators c' !! x = immediate_dominators c !! x) ∧
            match seen ++ p :: pred with
            | [] => immediate_dominators c' !! b = None
            | _ => ∃ r, immediate_dominators c' !! b = Some r ∧ r ∈ post_order c ∧
                        order c b < order c r ∧
                        nearest_common_ancestor c' (seen ++ p :: pred) r
            end) as Hrest.
  { intros d Hd Hdlt Hnca Hfold'.
    replace (seen ++ p :: pred) with ((seen ++ [p]) ++ pred) in *
      by by rewrite <- app_assoc.
    destruct (IH (seen ++ [p]) (set_immediate_dominator c b d) c') as [Hother Hres];
      try done.
    - by eapply traversed_graph_eq; [apply graph_eq_set_immediate_dominator |].
    - exact (climbs_set c b d Hcl).
    - destruct (seen ++ [p]) as [|q qs] eqn:Heq; [by destruct seen |].
      exists d. simpl. rewrite lookup_insert_eq. split_and!; [done.. |].
      apply (nearest_common_ancestor_frame c _ b); try done.
      + intros y Hy. by apply get_immediate_dominator_set.
      + intros q' Hq'. apply Hall, elem_of_app. by left.
    - split; [| done].
      intros x Hx. rewrite Hother by done. simpl. by rewrite lookup_insert_ne. }
  destruct seen as [|q seen].
  - rewrite fold_predecessors_seed in Hfold
      by (unfold get_immediate_dominator; by rewrite Hcur).
    apply (Hrest p); [done.. | | done].
    split.
    + intros x ->%list_elem_of_singleton. done.
    + intros z Hz. apply Hz. by left.
  - destruct Hcur as (acc & Hacc & Haccin & Hacclt & [Hcommon Hnearest]).
    assert (get_immediate_dominator c b = acc) as Hgid
      by (unfold get_immediate_dominator; by rewrite Hacc).
    rewrite fold_predecessors_fold in Hfold
      by (rewrite Hgid; by eapply finished_nonzero).
    case_bool_decide; [| done]. inv_bind Hfold. rename x into r.
    assert (find_common_dominator n c b p = Done r →
            ∃ m, find_common_dominator m c acc p = Done r) as Hstep.
    { destruct n as [|m]; simpl; rewrite bool_decide_eq_false_2 by (intros ->; lia);
        [done |].
      rewrite (get_visit_order_finished _ _ _ Htr b Hb),
              (get_visit_order_finished _ _ _ Htr p Hp). simpl.
      destruct (Z.ltb_spec (order c b) (order c p)); [| lia].
      rewrite Hgid. eauto. }
    destruct (Hstep Hx) as [m Hm].
    destruct (find_common_dominator_chain _ _ _ _ _ Hm) as [Haccr Hpr].
    destruct (climbs_chain c _ acc r Hcl Haccr Haccin Hacclt) as [Hrin Hrle].
    apply (Hrest r); [done | lia | | done].
    split.
    + intros x [Hx' | ->%list_elem_of_singleton]%elem_of_app; [| done].
      etrans; [by apply Hcommon | done].
    + intros z Hz.
      eapply (find_common_dominator_nearest compiler entry c (order c b) m acc p r);
        try done.
      * apply Hnearest. intros x Hx'. apply Hz. apply elem_of_app. by left.
      * apply Hz. apply elem_of_app. right. by left.
Qed.

End NearestFold.

Section NearestBlocks.

Variable compiler : gmap N SPIRBlock.
Variable entry : N.
Hypothesis Hzero : compiler !! 0%N = None.

Lemma dominate_block_nearest n b c c' :
  traversed compiler entry c → preds_finish_later c → b ∈ post_order c →
  idoms_strict entry (order c b) c → idoms_nearest entry (order c b) c →
  dominate_block n b c = Done c' →
  idoms_nearest entry (order c b - 1) c'.
Proof.
  intros Htr Hlater Hb Hio Hnear Hdone.
  pose proof (dominate_block_returns compiler entry Hzero n b c Htr Hlater Hb Hio)
    as Hret.
  rewrite Hdone in Hret. simpl in Hret. destruct Hret as [Hg Hio'].
  pose proof Hg as (_ & Hpo & _ & _ & Hpreds).
  pose proof (idoms_strict_climbs _ _ _ _ Htr Hio) as Hcl.
  assert ((∀ x, x ≠ b →
             immediate_dominators c' !! x = immediate_dominators c !! x) →
          (b ≠ entry → nearest_common_ancestor c' (get_preceding_edges c b)
                         (get_immediate_dominator c' b)) →
          idoms_nearest entry (order c b - 1) c') as Hfinish.
  { intros Hother Hres x. rewrite Hpo, (graph_eq_order _ _ _ Hg), Hpreds.
    intros Hx Hk Hxe. destruct (decide (x = b)) as [-> | Hne]; [by apply Hres |].
    assert (order c b < order c x) as Hlt.
    { destruct (decide (order c x = order c b)) as [Heq | ?]; [| lia].
      destruct Hne. by eapply order_inj. }
    assert (∀ y, y ≠ b →
              get_immediate_dominator c' y = get_immediate_dominator c y) as Hgid.
    { intros y Hy. unfold get_immediate_dominator. by rewrite Hother. }
    rewrite Hgid by done.
    destruct (climbs_step c _ x Hcl Hx Hlt) as [Hd Hle].
    apply (nearest_common_ancestor_frame c c' b); [done | done | | done | lia |].
    - intros p Hp. destruct (Hlater x p Hx Hp). split; [done | lia].
    - by apply Hnear. }
  unfold dominate_block in Hdone.
  set (c0 := {| preceding_edges := _ |}) in Hdone.
  assert (graph_eq c c0) as Hg0 by apply graph_eq_touch.
  destruct (default [] (preceding_edges c !! b)) as [|p pred] eqn:Hpred.
  - injection Hdone as <-. apply Hfinish; [done |].
    intros Hne. destruct (finished_later_pred _ _ _ Htr b Hb Hne) as (q & Hq & _).
    unfold get_preceding_edges in Hq. rewrite Hpred in Hq. inversion Hq.
  - assert (∀ q, q ∈ p :: pred → q ∈ post_order c ∧ order c b < order c q) as Hq.
    { intros q Hq. apply Hlater; [done |]. unfold get_preceding_edges. by rewrite Hpred. }
    assert (b ≠ entry) as Hne.
    { intros ->. destruct (Hq p) as [Hpin Hplt]; [by left |].
      destruct (order_entry _ _ _ Htr) as [_ Heord].
      destruct (finished_order _ _ _ Htr p Hpin). lia. }
    destruct (fold_predecessors_nearest compiler entry Hzero n b (p :: pred) [] c0 c')
      as [Hother (r & Hr & _ & _ & Hnca)]; try done.
    + by eapply traversed_graph_eq.
    + destruct (immediate_dominators c !! b) eqn:Hi; [| done].
      destruct (is_keys _ _ _ Hio b) as [? | Hlt]; [by rewrite Hi | done | lia].
    + apply Hfinish; [done |]. intros _.
      unfold get_preceding_edges at 1. rewrite Hpred. simpl.
      unfold get_immediate_dominator. rewrite Hr. done.
Qed.

Lemma dominate_blocks_nearest n l suf c c' :
  post_order c = rev l ++ suf →
  traversed compiler entry c → preds_finish_later c →
  idoms_strict entry (Z.of_nat (length l)) c →
  idoms_nearest entry (Z.of_nat (length l)) c →
  dominate_blocks n l c = Done c' →
  idoms_nearest entry 0 c'.
Proof.
  revert suf c. induction l as [|b l IH]; intros suf c Hpo Htr Hlater Hio Hnear; simpl.
  - by intros [= <-].
  - intros Hdone. inv_bind Hdone. rename x into c1.
    assert (post_order c !! length l = Some b) as Hi.
    { rewrite Hpo. simpl.
      rewrite <- app_assoc, lookup_app_r, length_rev by (rewrite length_rev; lia).
      by rewrite Nat.sub_diag. }
    assert (b ∈ post_order c) as Hb by by eapply list_elem_of_lookup_2.
    assert (order c b = Z.of_nat (S (length l))) as Hord.
    { unfold order. rewrite (ok_finished _ _ (tr_order _ _ _ Htr) _ _ Hi). simpl. lia. }
    simpl in Hio, Hnear. rewrite <- Hord in Hio, Hnear.
    pose proof (dominate_block_returns compiler entry Hzero n b c Htr Hlater Hb Hio)
      as Hret.
    rewrite Hx in Hret. simpl in Hret. destruct Hret as [Hg Hio1].
    pose proof Hg as (_ & Hpo1 & _).
    pose proof (dominate_block_nearest n b c c1 Htr Hlater Hb Hio Hnear Hx) as Hnear1.
    replace (order c b - 1) with (Z.of_nat (length l)) in Hio1, Hnear1 by lia.
    apply (IH (b :: suf) c1); try done.
    + rewrite Hpo1, Hpo. simpl. by rewrite <- app_assoc.
    + by eapply traversed_graph_eq.
    + by eapply preds_finish_later_graph_eq.
Qed.

Lemma build_immediate_dominators_nearest n c c' :
  traversed compiler entry c → preds_finish_later c →
  build_immediate_dominators {| entry_block := entry |} n c = Done c' →
  graph_eq c c' ∧ idoms_strict entry 0 c' ∧ idoms_nearest entry 0 c'.
Proof.
  intros Htr Hlater Hdone.
  pose proof (build_immediate_dominators_returns compiler entry Hzero n c Htr Hlater)
    as Hret.
  rewrite Hdone in Hret. simpl in Hret. destruct Hret as [Hg Hio].
  split_and!; [done | done |].
  unfold build_immediate_dominators in Hdone.
  set (c0 := {| preceding_edges := _ |}) in Hdone.
  assert (graph_eq c c0) as Hg0 by by split_and!.
  assert (traversed compiler entry c0) as Htr0 by by eapply traversed_graph_eq.
  eapply (dominate_blocks_nearest n _ [] c0); [| done | | | | done].
  - by rewrite rev_involutive, app_nil_r.
  - by eapply preds_finish_later_graph_eq.
  - rewrite length_rev. split.
    + simpl. apply lookup_singleton_eq.
    + intros b [d Hd]. simpl in Hd. apply lookup_singleton_Some in Hd as [<- _]. by left.
    + intros b Hb Hlt. destruct (finished_order _ _ _ Htr b Hb) as [_ Hr].
      change (order c0 b) with (order c b) in Hlt. simpl in Hlt. lia.
  - rewrite length_rev. intros b Hb Hlt.
    destruct (finished_order _ _ _ Htr b Hb) as [_ Hr].
    change (order c0 b) with (order c b) in Hlt. simpl in Hlt. lia.
Qed.

End NearestBlocks.

(** A constructed CFG whose recorded predecessors all finish later. *)
Lemma constructed_nearest compiler func fuel cfg :
  CFG_new compiler func fuel = Done cfg →
  Z.of_nat (length (post_order cfg)) < 2 ^ 31 →
  compiler !! 0%N = None →
  preds_finish_later cfg →
  idoms_strict (entry_block func) 0 cfg ∧ idoms_nearest (entry_block func) 0 cfg.
Proof.
  intros Hnew Hsmall Hzero Hlater.
  destruct (CFG_new_phases _ _ _ _ Hnew) as (c & Hc & Hd & Hg).
  assert (traversed compiler (entry_block func) c) as Htr.
  { eapply traversal_traversed; [done |]. destruct Hg as (_ & <- & _). done. }
  assert (preds_finish_later c) as Hlater'.
  { intros b p. destruct Hg as (Hvo & Hpo & _ & _ & Hp).
    rewrite <- Hpo, <- Hp. unfold order. rewrite <- Hvo. apply Hlater. }
  destruct func as [entry].
  by destruct (build_immediate_dominators_nearest compiler entry Hzero _ _ _ Htr Hlater' Hd)
    as (_ & ? & ?).
Qed.

(** ** The dominator tree *)

Section Tree.

Variable compiler : gmap N SPIRBlock.
Variable entry : N.
Variable c : CFG.
Hypothesis Htr : traversed compiler entry c.
Hypothesis Hedges : edges_ok c.
Hypothesis Hlater : preds_finish_later c.
Hypothesis Hio : idoms_strict entry 0 c.
Hypothesis Hnear : idoms_nearest entry 0 c.

Lemma tree_climbs : climbs c 0.
Proof. by eapply idoms_strict_climbs. Qed.

Lemma tree_entry_fixed : get_immediate_dominator c entry = entry.
Proof. unfold get_immediate_dominator. by rewrite (is_entry _ _ _ Hio). Qed.

(** Every chain reaches the entry block. *)
Lemma tree_rooted b : b ∈ post_order c → rtc (idom_step c) b entry.
Proof.
  intros Hb. destruct (order_entry _ _ _ Htr) as [Hein Heord].
  remember (Z.to_nat (order c entry - order c b)) as m eqn:Hm.
  revert b Hb Hm. induction (lt_wf m) as [m _ IH]. intros b Hb Hm.
  destruct (decide (b = entry)) as [-> | Hne]; [done |].
  destruct (finished_order _ _ _ Htr b Hb) as [_ Hr].
  destruct (is_done _ _ _ Hio b Hb) as (d & Hd & Hdin & Hlt); [lia | done |].
  destruct (finished_order _ _ _ Htr d Hdin) as [_ Hrd].
  eapply rtc_l.
  - unfold idom_step, get_immediate_dominator. by rewrite Hd.
  - eapply (IH (Z.to_nat (order c entry - order c d))); [lia | done | done].
Qed.

(** Two blocks on each other's chains are equal. *)
Lemma tree_antisym a b :
  a ∈ post_order c → rtc (idom_step c) a b → rtc (idom_step c) b a → a = b.
Proof.
  intros Ha Hab Hba.
  destruct (finished_order _ _ _ Htr a Ha) as [_ Hr].
  destruct (climbs_chain c 0 a b tree_climbs Hab Ha) as [Hb Hle]; [lia |].
  destruct (finished_order _ _ _ Htr b Hb) as [_ Hrb].
  destruct (climbs_chain c 0 b a tree_climbs Hba Hb) as [_ Hle']; [lia |].
  eapply order_inj; [done.. | lia].
Qed.

Lemma path_source l x y : path c x l y → x ∈ l ∧ y ∈ l.
Proof.
  induction 1 as [| l y z _ [IH _] Hz].
  - split; by left.
  - split; apply elem_of_app; [by left | right; by left].
Qed.

(** Every block on the path from the entry block is a recorded block. *)
Lemma path_finished l b :
  path c entry l b → b ∈ post_order c → ∀ d, rtc (idom_step c) b d → d ∈ l.
Proof.
  induction 1 as [| l y z Hpath IH Hz]; intros Hb d Hd.
  - apply idom_step_fixed in Hd; [| apply tree_entry_fixed]. subst d. by left.
  - apply elem_of_app. apply rtc_inv in Hd as [<- | (w & Hstep & Hrest)];
      [right; by left |].
    unfold idom_step in Hstep. subst w.
    destruct (decide (z = entry)) as [-> | Hne].
    { rewrite tree_entry_fixed in Hrest.
      apply idom_step_fixed in Hrest; [| apply tree_entry_fixed]. subst d.
      right. by left. }
    left. apply (proj1 Hedges) in Hz.
    destruct (Hlater z y Hb Hz) as [Hy Hlt].
    apply IH; [done |]. etrans; [| exact Hrest].
    destruct (finished_order _ _ _ Htr z Hb) as [_ Hr].
    apply (Hnear z Hb ltac:(lia) Hne). done.
Qed.

(** The chain of a finished block holds exactly its dominators. *)
Lemma tree_dominators b d :
  b ∈ post_order c → rtc (idom_step c) b d ↔ dominates c entry d b.
Proof.
  intros Hb. split.
  - intros Hd l Hl. by eapply path_finished.
  - destruct (order_entry _ _ _ Htr) as [Hein Heord].
    remember (Z.to_nat (order c entry - order c b)) as m eqn:Hm.
    revert b Hb Hm. induction (lt_wf m) as [m _ IH]. intros b Hb Hm Hdom.
    destruct (decide (d = b)) as [-> | Hdb]; [done |].
    destruct (decide (b = entry)) as [-> | Hne].
    { destruct Hdb. specialize (Hdom [entry] (path_start c entry)).
      by apply list_elem_of_singleton in Hdom. }
    destruct (finished_order _ _ _ Htr b Hb) as [_ Hr].
    eapply rtc_l; [reflexivity |].
    apply (Hnear b Hb ltac:(lia) Hne). intros p Hp.
    destruct (Hlater b p Hb Hp) as [Hpin Hlt].
    destruct (finished_order _ _ _ Htr p Hpin) as [_ Hrp].
    apply (IH (Z.to_nat (order c entry - order c p))); [lia | done | done |].
    intros l Hl.
    assert (path c entry (l ++ [b]) b) as Hl'.
    { econstructor; [done |]. by apply (proj1 Hedges). }
    apply Hdom in Hl'. apply elem_of_app in Hl' as [? | ?%list_elem_of_singleton]; done.
Qed.

End Tree.

(** ** The builder *)

Lemma idoms_strict_ok entry c :
  entry ∈ post_order c → idoms_strict entry 0 c → idoms_ok entry 0 c.
Proof.
  intros Hein [H1 H2 H3]. split; [done | done |].
  intros b Hb Hk. destruct (decide (b = entry)) as [-> | Hne].
  - exists entry. split_and!; [done | done | lia].
  - destruct (H3 b Hb Hk Hne) as (d & ? & ? & ?). exists d. split_and!; [done.. | lia].
Qed.

Section Builder.

Variable compiler : gmap N SPIRBlock.
Variable entry : N.
Variable c : CFG.
Hypothesis Hzero : compiler !! 0%N = None.
Hypothesis Htr : traversed compiler entry c.
Hypothesis Hio : idoms_strict entry 0 c.

Lemma unfinished_no_dominator b :
  b ∉ post_order c → get_immediate_dominator c b = 0%N.
Proof.
  intros Hb. unfold get_immediate_dominator.
  destruct (immediate_dominators c !! b) as [d|] eqn:Hd; [| done].
  destruct Hb. destruct (is_keys _ _ _ Hio b) as [-> | Hpos]; [by rewrite Hd | |].
  - apply (order_entry _ _ _ Htr).
  - by eapply order_positive_finished.
Qed.

Lemma finished_dominator b :
  b ∈ post_order c → get_immediate_dominator c b ≠ 0%N.
Proof.
  intros Hb. destruct (order_entry _ _ _ Htr) as [Hein _].
  destruct (finished_order _ _ _ Htr b Hb) as [_ Hr].
  destruct (climbs_step c 0 b) as [Hd _]; [by eapply idoms_strict_climbs | done | lia |].
  by eapply finished_nonzero.
Qed.

(** With a budget of twice the number of finished blocks
    [find_common_dominator] returns the nearest common ancestor. *)
Lemma find_common_dominator_total n a b :
  a ∈ post_order c → b ∈ post_order c →
  (2 * length (post_order c) ≤ n)%nat →
  ∃ r, find_common_dominator n c a b = Done r ∧ r ∈ post_order c ∧
       nearest_common_ancestor c [a; b] r.
Proof.
  intros Ha Hb Hn. destruct (order_entry _ _ _ Htr) as [Hein _].
  destruct (finished_order _ _ _ Htr a Ha) as [_ Hra].
  destruct (finished_order _ _ _ Htr b Hb) as [_ Hrb].
  destruct (find_common_dominator_resolved compiler entry c Htr
              (idoms_strict_ok _ _ Hein Hio) n a b)
    as (r & Hr & Hrin & Har & Hbr & _); [done | done | | | lia |].
  { by eapply tree_rooted. }
  { by eapply tree_rooted. }
  exists r. split_and!; [done | done |]. split.
  - intros x [-> | [-> | Hx]%elem_of_cons]%elem_of_cons; [done | done | inversion Hx].
  - intros z Hz.
    eapply (find_common_dominator_nearest compiler entry c 0 n a b r); try done;
      try lia.
    + by eapply idoms_strict_climbs.
    + apply Hz. by left.
    + apply Hz. right. by left.
Qed.

Lemma add_block_unfinished n d b :
  b ∉ post_order c → add_block n c d b = Done d.
Proof.
  intros Hb. unfold add_block.
  by rewrite bool_decide_eq_true_2 by by apply unfinished_no_dominator.
Qed.

Lemma add_block_finished n seen d b :
  (2 * length (post_order c) ≤ n)%nat →
  (∀ x, x ∈ seen → x ∈ post_order c) →
  builder_holds c seen d → b ∈ post_order c →
  ∃ d', add_block n c d b = Done d' ∧ builder_holds c (seen ++ [b]) d'.
Proof.
  intros Hn Hseen Hd Hb. unfold add_block.
  rewrite bool_decide_eq_false_2 by by apply finished_dominator.
  assert (b ≠ 0%N) as Hb0 by by eapply finished_nonzero.
  destruct seen as [|q seen]; simpl in Hd.
  - rewrite bool_decide_eq_true_2 by done. eexists. split; [done |].
    simpl. split; [done |]. split.
    + intros x ->%list_elem_of_singleton. done.
    + intros z Hz. apply Hz. by left.
  - destruct Hd as [Hdin [Hcommon Hnearest]].
    rewrite bool_decide_eq_false_2 by by eapply finished_nonzero.
    case_bool_decide as Hbd.
    + destruct (find_common_dominator_total n b (dominator d)) as (r & -> & Hrin & Hca & Hnca);
        [done.. |].
      simpl. eexists. split; [done |]. simpl. split; [done |]. split.
      * intros x [Hx | ->%list_elem_of_singleton]%(elem_of_app (q :: seen)).
        -- etrans; [by apply Hcommon |]. apply Hca. right. by left.
        -- apply Hca. by left.
      * intros z Hz. apply Hnca.
        intros x [-> | [-> | Hx]%elem_of_cons]%elem_of_cons; [| | inversion Hx].
        -- apply Hz. apply (elem_of_app (q :: seen)). right. by left.
        -- apply Hnearest. intros y Hy. apply Hz.
           apply (elem_of_app (q :: seen)). by left.
    + subst b. eexists. split; [done |]. simpl.
      split; [done |]. split.
      * intros x [Hx | ->%list_elem_of_singleton]%(elem_of_app (q :: seen));
          [by apply Hcommon | done].
      * intros z Hz. apply Hnearest. intros y Hy. apply Hz.
        apply (elem_of_app (q :: seen)). by left.
Qed.

Lemma add_blocks_holds n bs :
  (2 * length (post_order c) ≤ n)%nat →
  ∀ seen d,
  (∀ x, x ∈ seen → x ∈ post_order c) → builder_holds c seen d →
  ∃ d', add_blocks n c d bs = Done d' ∧
        builder_holds c (seen ++ filter (λ b, b ∈ post_order c) bs) d'.
Proof.
  intros Hn. induction bs as [|b bs IH]; intros seen d Hseen Hd; simpl.
  - exists d. by rewrite app_nil_r.
  - destruct (decide (b ∈ post_order c)) as [Hb | Hb].
    + destruct (add_block_finished n seen d b Hn Hseen Hd Hb) as (d1 & -> & Hd1).
      simpl. rewrite filter_cons_True by done.
      replace (seen ++ b :: filter (λ b, b ∈ post_order c) bs)
        with ((seen ++ [b]) ++ filter (λ b, b ∈ post_order c) bs)
        by by rewrite <- app_assoc.
      apply IH; [| done].
      intros x [Hx | ->%list_elem_of_singleton]%elem_of_app; [by apply Hseen | done].
    + rewrite add_block_unfinished by done. simpl.
      rewrite filter_cons_False by done. by apply IH.
Qed.

(** The nearest common ancestor of a list of finished blocks is unique. *)
Lemma nearest_common_ancestor_unique bs bs' r r' :
  (∀ x, x ∈ bs ↔ x ∈ bs') → r ∈ post_order c →
  nearest_common_ancestor c bs r → nearest_common_ancestor c bs' r' → r = r'.
Proof.
  intros Hsame Hr [Hc Hn] [Hc' Hn'].
  eapply (tree_antisym compiler entry c); [done.. | |].
  - apply Hn. intros x Hx. apply Hc'. by apply Hsame.
  - apply Hn'. intros x Hx. apply Hc. by apply Hsame.
Qed.

End Builder.

(** ** [find_loop_dominator] *)

Lemma scan_predecessors_returns compiler x preds :
  (∀ p, p ∈ preds → is_Some (compiler !! p)) →
  ∃ found ig, scan_predecessors compiler x preds = Done (found, ig) ∧
              (found = 0%N ∨ found ∈ preds).
Proof.
  induction preds as [|p preds IH]; intros Hps; simpl.
  - eexists _, _. split; [done | by left].
  - destruct (Hps p) as [blk Hblk]; [by left |].
    unfold get_SPIRBlock. rewrite Hblk. simpl.
    repeat case_bool_decide.
    + eexists _, _. split; [done | right; by left].
    + eexists _, _. split; [done | right; by left].
    + destruct IH as (found & ig & -> & Hfound); [intros q Hq; apply Hps; by right |].
      eexists _, _. split; [done |]. destruct Hfound; [by left | right; by right].
Qed.

Section LoopDominator.

Variable compiler : gmap N SPIRBlock.
Variable entry : N.
Variable c : CFG.
Hypothesis Hzero : compiler !! 0%N = None.
Hypothesis Htr : traversed compiler entry c.
Hypothesis Hlater : preds_finish_later c.

Lemma pred_later x p :
  p ∈ get_preceding_edges c x → p ∈ post_order c ∧ order c x < order c p.
Proof.
  intros Hp. destruct (decide (x ∈ post_order c)) as [Hx | Hx]; [by apply Hlater |].
  destruct (finished_pred _ _ _ Htr _ _ Hp) as [Hpin _]. split; [done |].
  destruct (finished_order _ _ _ Htr p Hpin) as [_ Hr].
  unfold order at 1. rewrite (unfinished_order _ _ _ Htr x Hx). simpl. lia.
Qed.

Lemma find_loop_dominator_returns n :
  ∀ x, Z.of_nat (length (post_order c)) - order c x < Z.of_nat n →
  ∃ r, find_loop_dominator compiler n c x = Done r ∧
       (r = 0%N ∨ (loop_header compiler c r ∧ order c x < order c r)).
Proof.
  induction n as [|n IH]; intros x Hn; cbn [find_loop_dominator];
    case_bool_decide as Hx0;
    try (exists x; split; [done | by left]).
  { exfalso. destruct (decide (x ∈ post_order c)) as [Hx | Hx].
    - destruct (finished_order _ _ _ Htr x Hx). lia.
    - unfold order in Hn. rewrite (unfinished_order _ _ _ Htr x Hx) in Hn.
      simpl in Hn. lia. }
  destruct (preceding_edges c !! x) as [[|front rest]|] eqn:Hpreds;
    try (exists 0%N; split; [done | by left]).
  assert (get_preceding_edges c x = front :: rest) as Hget
    by (unfold get_preceding_edges; by rewrite Hpreds).
  assert (∀ p, p ∈ front :: rest → p ∈ post_order c ∧ order c x < order c p) as Hps.
  { intros p Hp. apply pred_later. by rewrite Hget. }
  destruct (scan_predecessors_returns compiler x (front :: rest))
    as (found & ig & -> & Hfound).
  { intros p Hp. eapply finished_block; [done |]. by apply Hps. }
  cbn [mbind outcome_bind].
  set (next := if bool_decide (found = 0%N) then front else found).
  assert (next ∈ front :: rest) as Hnext.
  { unfold next. case_bool_decide; [by left |]. by destruct Hfound. }
  destruct (Hps next Hnext) as [Hnin Hnlt].
  destruct (finished_order _ _ _ Htr next Hnin) as [_ Hnr].
  destruct (IH next) as (r & Hr & Hres); [lia |].
  assert (∃ r', find_loop_dominator compiler n c next = Done r' ∧
                (r' = 0%N ∨ loop_header compiler c r' ∧ order c x < order c r'))
    as Hrec.
  { exists r. split; [done |]. destruct Hres as [-> | [Hh Hlt]]; [by left | right].
    split; [done | lia]. }
  destruct (negb ig && bool_decide (next ≠ 0%N)); [| done].
  destruct (finished_block _ _ _ Htr next Hnin) as [blk Hblk].
  unfold get_SPIRBlock. rewrite Hblk. cbn [mbind outcome_bind].
  case_bool_decide as Hm; [| done].
  exists next. split; [done |]. right. split; [| done]. split; [done |]. by exists blk.
Qed.

End LoopDominator.

Lemma constructed_reachable compiler func fuel cfg :
  CFG_new compiler func fuel = Done cfg →
  Z.of_nat (length (post_order cfg)) < 2 ^ 31 →
  ∀ b, b ∈ post_order cfg ↔ rtc (branches_to compiler) (entry_block func) b.
Proof.
  intros Hnew Hsmall b.
  destruct (CFG_new_phases _ _ _ _ Hnew) as (c & Hc & _ & Hg).
  destruct Hg as (_ & Hpo & _). rewrite Hpo.
  apply (traversal_reachable _ _ _ _ Hc). by rewrite <- Hpo.
Qed.

Lemma constructed_graph compiler func fuel cfg :
  CFG_new compiler func fuel = Done cfg →
  Z.of_nat (length (post_order cfg)) < 2 ^ 31 →
  edges_real compiler cfg ∧ edges_complete compiler cfg.
Proof.
  intros Hnew Hsmall.
  destruct (CFG_new_phases _ _ _ _ Hnew) as (c & Hc & _ & Hg).
  destruct Hg as (Hvo & Hpo & _ & Hs & _).
  destruct (traversal_graph _ _ _ _ Hc) as [Hreal Hcomplete]; [by rewrite <- Hpo |].
  unfold edges_real, edges_complete, target_settled, get_succeeding_edges.
  rewrite Hs, Hvo, Hpo. done.
Qed.

Lemma lift_continue_block_dominator_result compiler func cfg d d' :
  lift_continue_block_dominator compiler func cfg d = Done d' →
  d' = d ∨ d' = {| dominator := entry_block func |}.
Proof.
  unfold lift_continue_block_dominator. case_bool_decide; [intros [= <-]; by left |].
  intros Hl. inv_bind Hl. inv_bind Hl. inv_bind Hl. injection Hl as <-.
  destruct x1; [by right | by left].
Qed.

Lemma scan_predecessors_selection compiler x preds found :
  scan_predecessors compiler x preds = Done (found, false) → found ≠ 0%N →
  ∃ blk, compiler !! found = Some blk ∧ merge blk = MergeSelection.
Proof.
  induction preds as [|p preds IH]; simpl; [by intros [= <-] |].
  intros Hs Hne. inv_bind Hs. unfold get_SPIRBlock in Hx.
  destruct (compiler !! p) as [blk|] eqn:Hblk; [| done]. injection Hx as <-.
  case_bool_decide; [done |]. case_bool_decide as Hsel; [| by apply IH].
  injection Hs as <-. exists blk. by destruct Hsel.
Qed.

Lemma scan_predecessors_front compiler x front rest found blk :
  scan_predecessors compiler x (front :: rest) = Done (found, false) →
  compiler !! front = Some blk →
  ¬ (merge blk = MergeLoop ∧ merge_block blk = x).
Proof.
  simpl. unfold get_SPIRBlock. intros Hs Hblk. rewrite Hblk in Hs. simpl in Hs.
  by case_bool_decide.
Qed.

(** What [find_loop_dominator] returns is 0 or a loop header: the first
    recorded predecessor of a block [x], which is not its merge block. *)
Lemma find_loop_dominator_header compiler n c :
  ∀ b r, find_loop_dominator compiler n c b = Done r →
  r = 0%N ∨
  ∃ blk x, compiler !! r = Some blk ∧ merge blk = MergeLoop ∧
           head (get_preceding_edges c x) = Some r ∧ merge_block blk ≠ x.
Proof.
  induction n as [|n IH]; intros b r; cbn [find_loop_dominator];
    case_bool_decide as Hb0; try done; try (intros [= <-]; by left).
  destruct (preceding_edges c !! b) as [[|front rest]|] eqn:Hpreds;
    try (intros [= <-]; by left).
  intros Hr. inv_bind Hr. destruct x as [found ig].
  set (next := if bool_decide (found = 0%N) then front else found) in Hr.
  destruct (negb ig && bool_decide (next ≠ 0%N)) eqn:Hgo; [| by eapply IH].
  inv_bind Hr. case_bool_decide as Hm; [| by eapply IH].
  injection Hr as <-. right.
  apply andb_true_iff in Hgo as [Hig Hnz]. apply negb_true_iff in Hig. subst ig.
  unfold get_SPIRBlock in Hx0. destruct (compiler !! next) as [blk|] eqn:Hblk; [| done].
  injection Hx0 as <-.
  assert (next = front) as Hnext.
  { unfold next in *. case_bool_decide as Hf; [done |].
    destruct (scan_predecessors_selection _ _ _ _ Hx Hf) as (blk' & Hblk' & Hsel).
    congruence. }
  rewrite Hnext in *. exists blk, b. split_and!; [done | done | |].
  - unfold get_preceding_edges. by rewrite Hpreds.
  - intros Hmb. by eapply scan_predecessors_front.
Qed.

Lemma dowhile_preds_finish_later : preds_finish_later dowhile_cfg.
Proof.
  intros b p Hb Hp. apply list_elem_of_In in Hb. vm_compute in Hb.
  destruct Hb as [<- | [<- | [<- | [<- | []]]]];
    apply list_elem_of_In in Hp; vm_compute in Hp;
    repeat (destruct Hp as [<- | Hp];
            [split; [apply list_elem_of_In; vm_compute; tauto | by vm_compute] |]);
    destruct Hp.
Qed.

(** ** Properties of the traversal *)

(** X1. On a constructed CFG [post_order] holds exactly the blocks that
    the branch targets lead to from the entry block, and each of them is a
    block of the store. *)
Theorem post_order_reachable compiler func fuel cfg :
  CFG_new compiler func fuel = Done cfg →
  Z.of_nat (length (post_order cfg)) < 2 ^ 31 →
  ∀ b, (b ∈ post_order cfg ↔ rtc (branches_to compiler) (entry_block func) b) ∧
       (b ∈ post_order cfg → is_Some (compiler !! b)).
Proof.
  intros Hnew Hsmall b. split; [by eapply constructed_reachable |].
  eapply finished_block. by eapply constructed_traversed.
Qed.

Lemma post_order_reachable_witness :
  (4%N ∈ post_order dowhile_cfg ↔ rtc (branches_to dowhile_blocks) 1%N 4%N) ∧
  (4%N ∈ post_order dowhile_cfg → is_Some (dowhile_blocks !! 4%N)).
Proof.
  apply (post_order_reachable dowhile_blocks dowhile_func 8 dowhile_cfg);
    vm_compute; reflexivity.
Defined.

(** X2. On a constructed CFG [post_order] has no duplicates and ends with
    the entry block; the block at index [i] is the block of visit order
    [i + 1], and a block outside [post_order] has no visit order. *)
Theorem visit_order_indexes_post_order compiler func fuel cfg :
  CFG_new compiler func fuel = Done cfg →
  Z.of_nat (length (post_order cfg)) < 2 ^ 31 →
  NoDup (post_order cfg) ∧
  last (post_order cfg) = Some (entry_block func) ∧
  (∀ (i : nat) b, post_order cfg !! i = Some b ↔
                  visit_order cfg !! b = Some (Z.of_nat i + 1)) ∧
  (∀ b, b ∉ post_order cfg → visit_order cfg !! b = None).
Proof.
  intros Hnew Hsmall.
  pose proof (constructed_traversed _ _ _ _ Hnew Hsmall) as Htr.
  pose proof (tr_order _ _ _ Htr) as Hok.
  split_and!; [apply Hok | apply Htr | | by eapply unfinished_order].
  intros i b. split; [apply (ok_finished _ _ Hok) |].
  intros Hv. destruct (ok_visited _ _ Hok _ _ Hv) as [? | (j & Hj & Hij)]; [lia |].
  by replace i with j by lia.
Qed.

Lemma visit_order_indexes_post_order_witness :
  NoDup (post_order dowhile_cfg) ∧
  last (post_order dowhile_cfg) = Some 1%N ∧
  (∀ (i : nat) b, post_order dowhile_cfg !! i = Some b ↔
                  visit_order dowhile_cfg !! b = Some (Z.of_nat i + 1)) ∧
  (∀ b, b ∉ post_order dowhile_cfg → visit_order dowhile_cfg !! b = None).
Proof.
  apply (visit_order_indexes_post_order dowhile_blocks dowhile_func 8 dowhile_cfg);
    vm_compute; reflexivity.
Defined.

(** X3. On a constructed CFG [t] is a recorded successor of [f] exactly
    when [f] is finished and either [t] is a branch target of [f] that
    finished before [f], or [f] is a loop header with merge block [t]. *)
Theorem succeeding_edges_characterized compiler func fuel cfg :
  CFG_new compiler func fuel = Done cfg →
  Z.of_nat (length (post_order cfg)) < 2 ^ 31 →
  ∀ f t, t ∈ get_succeeding_edges cfg f ↔
         f ∈ post_order cfg ∧
         ((branches_to compiler f t ∧ order cfg t < order cfg f) ∨
          implied_edge compiler f t).
Proof.
  intros Hnew Hsmall f t.
  pose proof (constructed_traversed _ _ _ _ Hnew Hsmall) as Htr.
  destruct (constructed_edges _ _ _ _ Hnew) as [Hedges Hloops].
  destruct (constructed_graph _ _ _ _ Hnew Hsmall) as [Hreal Hcomplete].
  split.
  - intros Ht. pose proof (proj1 (proj1 Hedges f t) Ht) as Hf.
    destruct (finished_pred _ _ _ Htr _ _ Hf) as [Hfin [Himp | [_ Hlt]]];
      [by auto | split; [done |]].
    destruct (Hreal f t Ht) as [Hb | Himp]; [left | by right]. done.
  - intros [Hf [[Hb Hlt] | Himp]]; [| by apply Hloops].
    destruct (Hcomplete f t Hf Hb) as [Hs | [Hz | (vf & vt & Hvf & Hvt & Hle)]].
    + done.
    + pose proof (tr_done _ _ _ Htr _ _ Hz). lia.
    + unfold order in Hlt. rewrite Hvf, Hvt in Hlt. simpl in Hlt. lia.
Qed.

Lemma succeeding_edges_characterized_witness :
  4%N ∈ get_succeeding_edges dowhile_cfg 2 ↔
  2%N ∈ post_order dowhile_cfg ∧
  ((branches_to dowhile_blocks 2 4 ∧ order dowhile_cfg 4 < order dowhile_cfg 2) ∨
   implied_edge dowhile_blocks 2 4).
Proof.
  apply (succeeding_edges_characterized dowhile_blocks dowhile_func 8 dowhile_cfg);
    vm_compute; reflexivity.
Defined.

(** X4. On a constructed CFG [get_immediate_dominator] is non-zero exactly
    for the blocks that the branch targets lead to from the entry block:
    the test by which [add_block] skips a block is exact. *)
Theorem immediate_dominator_iff_reachable compiler func fuel cfg :
  CFG_new compiler func fuel = Done cfg →
  Z.of_nat (length (post_order cfg)) < 2 ^ 31 →
  compiler !! 0%N = None →
  ∀ b, get_immediate_dominator cfg b ≠ 0%N ↔
       rtc (branches_to compiler) (entry_block func) b.
Proof.
  intros Hnew Hsmall Hzero b.
  pose proof (constructed_traversed _ _ _ _ Hnew Hsmall) as Htr.
  pose proof (constructed_idoms _ _ _ _ Hnew Hsmall Hzero) as Hio.
  rewrite <- (constructed_reachable _ _ _ _ Hnew Hsmall).
  unfold get_immediate_dominator. split.
  - intros Hne. destruct (immediate_dominators cfg !! b) as [d|] eqn:Hd; [| done].
    destruct (io_keys _ _ _ Hio b) as [-> | Hpos]; [by rewrite Hd | |].
    + apply (order_entry _ _ _ Htr).
    + by eapply order_positive_finished.
  - intros Hb. destruct (finished_order _ _ _ Htr b Hb) as [_ Hr].
    destruct (io_done _ _ _ Hio b Hb) as (d & -> & Hdin & _); [lia |]. simpl.
    by eapply finished_nonzero.
Qed.

Lemma immediate_dominator_iff_reachable_witness :
  get_immediate_dominator dowhile_cfg 4 ≠ 0%N ↔ rtc (branches_to dowhile_blocks) 1%N 4%N.
Proof.
  apply (immediate_dominator_iff_reachable dowhile_blocks dowhile_func 8 dowhile_cfg);
    vm_compute; reflexivity.
Defined.

(** X5. Once the CFG is constructed no block is left in progress:
    [is_back_edge] answers false for every finished block, and its
    assertion fails for every other block. *)
Theorem is_back_edge_after_construction compiler func fuel cfg :
  CFG_new compiler func fuel = Done cfg →
  Z.of_nat (length (post_order cfg)) < 2 ^ 31 →
  ∀ b, (b ∈ post_order cfg → is_back_edge cfg b = Done false) ∧
       (b ∉ post_order cfg → is_back_edge cfg b = AssertionFailed).
Proof.
  intros Hnew Hsmall b.
  pose proof (constructed_traversed _ _ _ _ Hnew Hsmall) as Htr.
  unfold is_back_edge. split; intros Hb.
  - destruct (finished_order _ _ _ Htr b Hb) as [-> Hr].
    f_equal. apply Z.eqb_neq. lia.
  - by rewrite (unfinished_order _ _ _ Htr b Hb).
Qed.

Lemma is_back_edge_after_construction_witness :
  (2%N ∈ post_order dowhile_cfg → is_back_edge dowhile_cfg 2 = Done false) ∧
  (2%N ∉ post_order dowhile_cfg → is_back_edge dowhile_cfg 2 = AssertionFailed).
Proof.
  apply (is_back_edge_after_construction dowhile_blocks dowhile_func 8 dowhile_cfg);
    vm_compute; reflexivity.
Defined.

(** ** Properties of the dominators *)

Lemma builder_holds_filter c bs d :
  builder_holds c (filter (λ b, b ∈ post_order c) bs) d →
  ((∀ b, b ∈ bs → b ∉ post_order c) → dominator d = 0%N) ∧
  ((∃ b, b ∈ bs ∧ b ∈ post_order c) →
     dominator d ∈ post_order c ∧
     nearest_common_ancestor c (filter (λ b, b ∈ post_order c) bs) (dominator d)).
Proof.
  intros Hd. destruct (filter (λ b, b ∈ post_order c) bs) as [|q l] eqn:Hf.
  - split; [done |]. intros (b & Hb & Hfin).
    assert (b ∈ filter (λ b, b ∈ post_order c) bs) as Hin
      by by apply list_elem_of_filter.
    rewrite Hf in Hin. inversion Hin.
  - split; [| done]. intros Hnone.
    assert (q ∈ filter (λ b, b ∈ post_order c) bs) as Hin by (rewrite Hf; by left).
    apply list_elem_of_filter in Hin as [Hq Hqin]. by destruct (Hnone q).
Qed.

Section ConstructedTree.

Variable compiler : gmap N SPIRBlock.
Variable func : SPIRFunction.
Variable fuel : nat.
Variable cfg : CFG.
Hypothesis Hnew : CFG_new compiler func fuel = Done cfg.
Hypothesis Hsmall : Z.of_nat (length (post_order cfg)) < 2 ^ 31.
Hypothesis Hzero : compiler !! 0%N = None.
Hypothesis Hlater : preds_finish_later cfg.

Lemma tree_traversed : traversed compiler (entry_block func) cfg.
Proof. by eapply constructed_traversed. Qed.

Lemma tree_strict : idoms_strict (entry_block func) 0 cfg.
Proof. by eapply constructed_nearest. Qed.

Lemma tree_nearest : idoms_nearest (entry_block func) 0 cfg.
Proof. by eapply constructed_nearest. Qed.

Lemma tree_chain_dominates b d :
  b ∈ post_order cfg →
  rtc (idom_step cfg) b d ↔ dominates cfg (entry_block func) d b.
Proof.
  eapply tree_dominators;
    [apply tree_traversed | by eapply constructed_edges | done
    | apply tree_strict | apply tree_nearest].
Qed.

Lemma tree_nearest_dominator bs r :
  (∀ b, b ∈ bs → b ∈ post_order cfg) → r ∈ post_order cfg →
  nearest_common_ancestor cfg bs r →
  (∀ b, b ∈ bs → dominates cfg (entry_block func) r b) ∧
  (∀ z, (∀ b, b ∈ bs → dominates cfg (entry_block func) z b) →
        dominates cfg (entry_block func) z r).
Proof.
  intros Hbs Hr [Hcommon Hnearest]. split.
  - intros b Hb. apply tree_chain_dominates; [by apply Hbs | by apply Hcommon].
  - intros z Hz. apply tree_chain_dominates; [done |]. apply Hnearest.
    intros b Hb. apply tree_chain_dominates; [by apply Hbs | by apply Hz].
Qed.

Lemma add_blocks_returns n bs :
  (2 * length (post_order cfg) ≤ n)%nat →
  ∃ d, add_blocks n cfg DominatorBuilder_new bs = Done d ∧
       builder_holds cfg (filter (λ b, b ∈ post_order cfg) bs) d.
Proof.
  intros Hn.
  apply (add_blocks_holds compiler (entry_block func) cfg Hzero tree_traversed
           tree_strict n bs Hn [] DominatorBuilder_new); [| done].
  intros x Hx. inversion Hx.
Qed.

End ConstructedTree.

(** X6. When every recorded predecessor finished later than its successor,
    the immediate dominators form the dominator tree of the recorded graph:
    [d] lies on the chain of immediate dominators of a finished block [b]
    exactly when every walk from the entry block to [b] along the recorded
    edges passes through [d]. *)
Theorem dominator_chain_exact compiler func fuel cfg :
  CFG_new compiler func fuel = Done cfg →
  Z.of_nat (length (post_order cfg)) < 2 ^ 31 →
  compiler !! 0%N = None →
  preds_finish_later cfg →
  ∀ b d, b ∈ post_order cfg →
         (rtc (idom_step cfg) b d ↔ dominates cfg (entry_block func) d b).
Proof. intros Hnew Hsmall Hzero Hlater b d. by eapply tree_chain_dominates. Qed.

Lemma dominator_chain_exact_witness :
  4%N ∈ post_order dowhile_cfg ∧
  (rtc (idom_step dowhile_cfg) 4%N 2%N ↔ dominates dowhile_cfg 1%N 2%N 4%N).
Proof.
  split; [apply list_elem_of_In; vm_compute; tauto |].
  apply (dominator_chain_exact dowhile_blocks dowhile_func 8 dowhile_cfg);
    [vm_compute; reflexivity | vm_compute; reflexivity | vm_compute; reflexivity
    | apply dowhile_preds_finish_later | apply list_elem_of_In; vm_compute; tauto].
Defined.

(** X7. Under the same condition a finished block with exactly one recorded
    predecessor has that predecessor as its immediate dominator. *)
Theorem single_predecessor_dominates compiler func fuel cfg :
  CFG_new compiler func fuel = Done cfg →
  Z.of_nat (length (post_order cfg)) < 2 ^ 31 →
  compiler !! 0%N = None →
  preds_finish_later cfg →
  ∀ b p, b ∈ post_order cfg → get_preceding_edges cfg b = [p] →
         get_immediate_dominator cfg b = p.
Proof.
  intros Hnew Hsmall Hzero Hlater b p Hb Hp.
  pose proof (tree_traversed _ _ _ _ Hnew Hsmall) as Htr.
  destruct (Hlater b p Hb) as [Hpin Hlt]; [rewrite Hp; by left |].
  destruct (order_entry _ _ _ Htr) as [_ Heord].
  destruct (finished_order _ _ _ Htr b Hb) as [_ Hr].
  destruct (finished_order _ _ _ Htr p Hpin) as [_ Hrp].
  destruct (tree_nearest _ _ _ _ Hnew Hsmall Hzero Hlater b Hb) as [Hcommon Hnearest];
    [lia | intros ->; lia |].
  rewrite Hp in Hcommon, Hnearest. symmetry.
  eapply (tree_antisym compiler (entry_block func) cfg); [done | | done | |].
  - by eapply tree_strict.
  - apply Hcommon. by left.
  - apply Hnearest. by intros x ->%list_elem_of_singleton.
Qed.

Lemma single_predecessor_dominates_witness :
  get_immediate_dominator dowhile_cfg 3 = 2%N.
Proof.
  apply (single_predecessor_dominates dowhile_blocks dowhile_func 8 dowhile_cfg);
    [vm_compute; reflexivity | vm_compute; reflexivity | vm_compute; reflexivity
    | apply dowhile_preds_finish_later | apply list_elem_of_In; vm_compute; tauto
    | vm_compute; reflexivity].
Defined.

(** X8. Under the same condition [find_common_dominator] returns, within
    twice the number of finished blocks iterations, the nearest common
    dominator of two finished blocks: it dominates both, and every block
    that dominates both dominates it. *)
Theorem find_common_dominator_nearest_dominator compiler func fuel cfg n a b :
  CFG_new compiler func fuel = Done cfg →
  Z.of_nat (length (post_order cfg)) < 2 ^ 31 →
  compiler !! 0%N = None →
  preds_finish_later cfg →
  a ∈ post_order cfg → b ∈ post_order cfg →
  (2 * length (post_order cfg) ≤ n)%nat →
  ∃ r, find_common_dominator n cfg a b = Done r ∧
       dominates cfg (entry_block func) r a ∧
       dominates cfg (entry_block func) r b ∧
       ∀ z, dominates cfg (entry_block func) z a →
            dominates cfg (entry_block func) z b →
            dominates cfg (entry_block func) z r.
Proof.
  intros Hnew Hsmall Hzero Hlater Ha Hb Hn.
  destruct (find_common_dominator_total compiler (entry_block func) cfg
              (tree_traversed _ _ _ _ Hnew Hsmall)
              (tree_strict _ _ _ _ Hnew Hsmall Hzero Hlater) n a b Ha Hb Hn)
    as (r & Hr & Hrin & Hnca).
  destruct (tree_nearest_dominator _ _ _ _ Hnew Hsmall Hzero Hlater [a; b] r)
    as [Hdom Hnear]; [| done | done |].
  { intros x [-> | [-> | Hx]%elem_of_cons]%elem_of_cons; [done | done | inversion Hx]. }
  exists r. split_and!; [done | | |].
  - apply Hdom. by left.
  - apply Hdom. right. by left.
  - intros z Hza Hzb. apply Hnear.
    intros x [-> | [-> | Hx]%elem_of_cons]%elem_of_cons; [done | done | inversion Hx].
Qed.

Lemma find_common_dominator_nearest_dominator_witness :
  ∃ r, find_common_dominator 8 dowhile_cfg 3 4 = Done r ∧
       dominates dowhile_cfg 1%N r 3%N ∧ dominates dowhile_cfg 1%N r 4%N ∧
       ∀ z, dominates dowhile_cfg 1%N z 3%N → dominates dowhile_cfg 1%N z 4%N →
            dominates dowhile_cfg 1%N z r.
Proof.
  apply (find_common_dominator_nearest_dominator dowhile_blocks dowhile_func 8);
    [vm_compute; reflexivity | vm_compute; reflexivity | vm_compute; reflexivity
    | apply dowhile_preds_finish_later | apply list_elem_of_In; vm_compute; tauto
    | apply list_elem_of_In; vm_compute; tauto | vm_compute; lia].
Defined.

(** X9. Under the same condition a sequence of [add_block] calls on a new
    builder returns; the dominator stays 0 when no added block was reached
    by the traversal, and otherwise it is the nearest common dominator of
    the added blocks that were reached, the others being ignored. *)
Theorem add_blocks_nearest_common_dominator compiler func fuel cfg n bs :
  CFG_new compiler func fuel = Done cfg →
  Z.of_nat (length (post_order cfg)) < 2 ^ 31 →
  compiler !! 0%N = None →
  preds_finish_later cfg →
  (2 * length (post_order cfg) ≤ n)%nat →
  ∃ d, add_blocks n cfg DominatorBuilder_new bs = Done d ∧
    ((∀ b, b ∈ bs → b ∉ post_order cfg) → dominator d = 0%N) ∧
    ((∃ b, b ∈ bs ∧ b ∈ post_order cfg) →
       dominator d ∈ post_order cfg ∧
       (∀ b, b ∈ bs → b ∈ post_order cfg →
             dominates cfg (entry_block func) (dominator d) b) ∧
       (∀ z, (∀ b, b ∈ bs → b ∈ post_order cfg →
                   dominates cfg (entry_block func) z b) →
             dominates cfg (entry_block func) z (dominator d))).
Proof.
  intros Hnew Hsmall Hzero Hlater Hn.
  destruct (add_blocks_returns _ _ _ _ Hnew Hsmall Hzero Hlater n bs Hn) as (d & Hd & Hh).
  apply builder_holds_filter in Hh as [Hnone Hsome].
  exists d. split_and!; [done | done |].
  intros Hex. destruct (Hsome Hex) as [Hdin Hnca]. split; [done |].
  destruct (tree_nearest_dominator _ _ _ _ Hnew Hsmall Hzero Hlater _ _
              (λ x Hx, proj1 (proj1 (list_elem_of_filter _ _ x) Hx)) Hdin Hnca)
    as [Hdom Hnear].
  split.
  - intros b Hb Hfin. apply Hdom. by apply list_elem_of_filter.
  - intros z Hz. apply Hnear. intros b [Hfin Hb]%list_elem_of_filter. by apply Hz.
Qed.

Lemma add_blocks_nearest_common_dominator_witness :
  ∃ d, add_blocks 8 dowhile_cfg DominatorBuilder_new [3%N; 7%N; 4%N] = Done d ∧
    ((∀ b, b ∈ [3%N; 7%N; 4%N] → b ∉ post_order dowhile_cfg) → dominator d = 0%N) ∧
    ((∃ b, b ∈ [3%N; 7%N; 4%N] ∧ b ∈ post_order dowhile_cfg) →
       dominator d ∈ post_order dowhile_cfg ∧
       (∀ b, b ∈ [3%N; 7%N; 4%N] → b ∈ post_order dowhile_cfg →
             dominates dowhile_cfg 1%N (dominator d) b) ∧
       (∀ z, (∀ b, b ∈ [3%N; 7%N; 4%N] → b ∈ post_order dowhile_cfg →
                   dominates dowhile_cfg 1%N z b) →
             dominates dowhile_cfg 1%N z (dominator d))).
Proof.
  apply (add_blocks_nearest_common_dominator dowhile_blocks dowhile_func 8);
    [vm_compute; reflexivity | vm_compute; reflexivity | vm_compute; reflexivity
    | apply dowhile_preds_finish_later | vm_compute; lia].
Defined.

(** X10. Under the same condition the builder does not depend on the order
    or the multiplicity of the [add_block] calls: two sequences that add
    the same blocks give the same result. *)
Theorem add_blocks_order_independent compiler func fuel cfg n bs bs' :
  CFG_new compiler func fuel = Done cfg →
  Z.of_nat (length (post_order cfg)) < 2 ^ 31 →
  compiler !! 0%N = None →
  preds_finish_later cfg →
  (2 * length (post_order cfg) ≤ n)%nat →
  (∀ x, x ∈ bs ↔ x ∈ bs') →
  add_blocks n cfg DominatorBuilder_new bs = add_blocks n cfg DominatorBuilder_new bs'.
Proof.
  intros Hnew Hsmall Hzero Hlater Hn Hsame.
  destruct (add_blocks_returns _ _ _ _ Hnew Hsmall Hzero Hlater n bs Hn)
    as ([r] & -> & Hh).
  destruct (add_blocks_returns _ _ _ _ Hnew Hsmall Hzero Hlater n bs' Hn)
    as ([r'] & -> & Hh').
  apply builder_holds_filter in Hh as [Hnone Hsome].
  apply builder_holds_filter in Hh' as [Hnone' Hsome'].
  simpl in *. f_equal. f_equal.
  destruct (decide (Exists (λ b, b ∈ post_order cfg) bs)) as [Hex | Hnex].
  - apply Exists_exists in Hex as (b & Hb & Hfin).
    destruct Hsome as [Hrin Hnca]; [by exists b |].
    destruct Hsome' as [Hrin' Hnca']; [exists b; split; [by apply Hsame | done] |].
    eapply (nearest_common_ancestor_unique compiler (entry_block func) cfg);
      [by eapply tree_traversed | by eapply tree_strict | | done | done | done].
    intros x. rewrite !list_elem_of_filter, Hsame. done.
  - rewrite Hnone, Hnone'; [done | |].
    + intros b Hb Hfin. apply Hnex, Exists_exists. exists b.
      split; [by apply Hsame | done].
    + intros b Hb Hfin. apply Hnex, Exists_exists. by exists b.
Qed.

Lemma add_blocks_order_independent_witness :
  add_blocks 8 dowhile_cfg DominatorBuilder_new [3%N; 4%N; 3%N]
  = add_blocks 8 dowhile_cfg DominatorBuilder_new [4%N; 3%N].
Proof.
  apply (add_blocks_order_independent dowhile_blocks dowhile_func 8);
    [vm_compute; reflexivity | vm_compute; reflexivity | vm_compute; reflexivity
    | apply dowhile_preds_finish_later | vm_compute; lia |].
  intros x. rewrite !elem_of_cons. tauto.
Defined.

(** X11. On a constructed CFG [lift_continue_block_dominator] is
    idempotent: a second call leaves the result of the first unchanged (the
    entry block, to which a dominator is lifted, has no branch target of
    greater visit order). *)
Theorem lift_continue_block_dominator_idempotent compiler func fuel cfg d d' :
  CFG_new compiler func fuel = Done cfg →
  Z.of_nat (length (post_order cfg)) < 2 ^ 31 →
  lift_continue_block_dominator compiler func cfg d = Done d' →
  lift_continue_block_dominator compiler func cfg d' = Done d'.
Proof.
  intros Hnew Hsmall Hd.
  destruct (lift_continue_block_dominator_result _ _ _ _ _ Hd) as [-> | ->]; [done |].
  destruct (decide (entry_block func = 0%N)) as [He | He].
  { unfold lift_continue_block_dominator. simpl.
    by rewrite bool_decide_eq_true_2. }
  pose proof (constructed_traversed _ _ _ _ Hnew Hsmall) as Htr.
  destruct (lift_continue_block_dominator_returns compiler func fuel cfg
              {| dominator := entry_block func |} Hnew Hsmall) as [d2 Hd2].
  { apply (order_entry _ _ _ Htr). }
  by destruct (lift_continue_block_dominator_result _ _ _ _ _ Hd2) as [-> | ->].
Qed.

Lemma lift_continue_block_dominator_idempotent_witness :
  lift_continue_block_dominator dowhile_blocks dowhile_func dowhile_cfg
    {| dominator := 1%N |} = Done {| dominator := 1%N |}.
Proof.
  apply (lift_continue_block_dominator_idempotent dowhile_blocks dowhile_func 8
           dowhile_cfg {| dominator := 3%N |});
    vm_compute; reflexivity.
Defined.

(** X12. When every recorded predecessor finished later than its successor,
    [find_loop_dominator] returns for every block identifier within one
    iteration per finished block and one more, without raising; the result
    is 0 or a finished loop header of greater visit order than the
    block. *)
Theorem find_loop_dominator_returns_header compiler func fuel cfg n b :
  CFG_new compiler func fuel = Done cfg →
  Z.of_nat (length (post_order cfg)) < 2 ^ 31 →
  compiler !! 0%N = None →
  preds_finish_later cfg →
  (length (post_order cfg) < n)%nat →
  ∃ r, find_loop_dominator compiler n cfg b = Done r ∧
       (r = 0%N ∨ (loop_header compiler cfg r ∧ order cfg b < order cfg r)).
Proof.
  intros Hnew Hsmall Hzero Hlater Hn.
  pose proof (constructed_traversed _ _ _ _ Hnew Hsmall) as Htr.
  apply (find_loop_dominator_returns compiler (entry_block func) cfg Htr Hlater).
  assert (0 ≤ order cfg b); [| lia].
  destruct (decide (b ∈ post_order cfg)) as [Hb | Hb].
  - destruct (finished_order _ _ _ Htr b Hb). lia.
  - unfold order. by rewrite (unfinished_order _ _ _ Htr b Hb).
Qed.

Lemma find_loop_dominator_returns_header_witness :
  ∃ r, find_loop_dominator dowhile_blocks 5 dowhile_cfg 3 = Done r ∧
       (r = 0%N ∨ (loop_header dowhile_blocks dowhile_cfg r ∧
                   order dowhile_cfg 3 < order dowhile_cfg r)).
Proof.
  apply (find_loop_dominator_returns_header dowhile_blocks dowhile_func 8);
    [vm_compute; reflexivity | vm_compute; reflexivity | vm_compute; reflexivity
    | apply dowhile_preds_finish_later | vm_compute; lia].
Defined.

(** X13. Whatever the CFG, a result of [find_loop_dominator] other than 0
    is a loop header of the store: the first recorded predecessor of some
    block that is not its merge block. *)
Theorem find_loop_dominator_loop_header compiler n c b r :
  find_loop_dominator compiler n c b = Done r →
  r = 0%N ∨
  ∃ blk x, compiler !! r = Some blk ∧ merge blk = MergeLoop ∧
           head (get_preceding_edges c x) = Some r ∧ merge_block blk ≠ x.
Proof. apply find_loop_dominator_header. Qed.

Lemma find_loop_dominator_loop_header_witness :
  2%N = 0%N ∨
  ∃ blk x, dowhile_blocks !! 2%N = Some blk ∧ merge blk = MergeLoop ∧
           head (get_preceding_edges dowhile_cfg x) = Some 2%N ∧ merge_block blk ≠ x.
Proof.
  apply (find_loop_dominator_loop_header dowhile_blocks 5 dowhile_cfg 3 2).
  vm_compute; reflexivity.
Defined.

(** ** The outcome of the traversal *)

Section TraversalOutcome.

Variable compiler : gmap N SPIRBlock.
Hypothesis Hsmall : Z.of_nat (size compiler) < 2 ^ 31.

Lemma branch_to_outcome n from t c :
  (∀ c b, order_ok compiler c → preds_ok c →
     (size compiler < n + size (visit_order c))%nat →
     (∃ ok c', post_order_visit compiler n c b = Done (ok, c')) ∨
     (post_order_visit compiler n c b = Thrown ∧ leads_outside compiler b)) →
  order_ok compiler c → preds_ok c → visit_order c !! from = Some 0 →
  (size compiler < n + size (visit_order c))%nat →
  (∃ c', branch_to (post_order_visit compiler n) from t c = Done c' ∧
     order_ok compiler c' ∧ preds_ok c' ∧ visit_order c' !! from = Some 0 ∧
     (size compiler < n + size (visit_order c'))%nat) ∨
  (branch_to (post_order_visit compiler n) from t c = Thrown ∧
   leads_outside compiler t).
Proof.
  intros IH Hok Hpreds Hfrom Hn. unfold branch_to.
  destruct (IH c t Hok Hpreds Hn) as [(ok & c1 & Hvisit) | [Hthrown Hout]].
  2:{ right. by rewrite Hthrown. }
  left. rewrite Hvisit. simpl. eexists. split; [done |].
  apply post_order_visit_visits in Hvisit.
  assert (visits_all compiler c from [t] (if ok then add_branch from t c1 else c1))
    as Hall by (econstructor; [done | constructor]).
  destruct (proj2 (visits_order compiler) _ _ _ _ Hall) as (Hok' & Hprog & Hpreds');
    [by left | done.. |].
  split_and!; [done | done | by apply Hprog |].
  pose proof (visited_size c _ (proj1 (proj2 (visits_targets compiler) _ _ _ _ Hall))).
  lia.
Qed.

Lemma visit_cases_outcome n from cs c :
  (∀ c b, order_ok compiler c → preds_ok c →
     (size compiler < n + size (visit_order c))%nat →
     (∃ ok c', post_order_visit compiler n c b = Done (ok, c')) ∨
     (post_order_visit compiler n c b = Thrown ∧ leads_outside compiler b)) →
  order_ok compiler c → preds_ok c → visit_order c !! from = Some 0 →
  (size compiler < n + size (visit_order c))%nat →
  (∃ c', visit_cases (post_order_visit compiler n) from cs c = Done c' ∧
     order_ok compiler c' ∧ preds_ok c' ∧ visit_order c' !! from = Some 0 ∧
     (size compiler < n + size (visit_order c'))%nat) ∨
  (visit_cases (post_order_visit compiler n) from cs c = Thrown ∧
   ∃ t, t ∈ map block cs ∧ leads_outside compiler t).
Proof.
  intros IH. revert c.
  induction cs as [|target cs IHcs]; intros c Hok Hpreds Hfrom Hn; simpl.
  - left. by eexists.
  - destruct (branch_to_outcome n from (block target) c IH Hok Hpreds Hfrom Hn)
      as [(c1 & -> & Hok1 & Hpreds1 & Hfrom1 & Hn1) | [-> Hout]].
    + simpl. destruct (IHcs c1 Hok1 Hpreds1 Hfrom1 Hn1) as [? | [? (t & Ht & Hout)]];
        [by left | right].
      split; [done |]. exists t. split; [by right | done].
    + right. split; [done |]. exists (block target). split; [by left | done].
Qed.

Lemma visit_targets_outcome n from blk c :
  (∀ c b, order_ok compiler c → preds_ok c →
     (size compiler < n + size (visit_order c))%nat →
     (∃ ok c', post_order_visit compiler n c b = Done (ok, c')) ∨
     (post_order_visit compiler n c b = Thrown ∧ leads_outside compiler b)) →
  order_ok compiler c → preds_ok c → visit_order c !! from = Some 0 →
  (size compiler < n + size (visit_order c))%nat →
  (∃ c', visit_targets (post_order_visit compiler n) from blk c = Done c') ∨
  (visit_targets (post_order_visit compiler n) from blk c = Thrown ∧
   ∃ t, t ∈ branch_targets blk ∧ leads_outside compiler t).
Proof.
  intros IH Hok Hpreds Hfrom Hn.
  unfold visit_targets, branch_targets. destruct (terminator blk).
  - destruct (branch_to_outcome n from (next_block blk) c IH Hok Hpreds Hfrom Hn)
      as [(c1 & -> & _) | [-> Hout]]; [left; by eexists | right].
    split; [done |]. eexists. split; [by left | done].
  - destruct (branch_to_outcome n from (true_block blk) c IH Hok Hpreds Hfrom Hn)
      as [(c1 & -> & Hok1 & Hpreds1 & Hfrom1 & Hn1) | [-> Hout]].
    2:{ right. split; [done |]. eexists. split; [by left | done]. }
    simpl.
    destruct (branch_to_outcome n from (false_block blk) c1 IH Hok1 Hpreds1 Hfrom1 Hn1)
      as [(c2 & -> & _) | [-> Hout]]; [left; by eexists | right].
    split; [done |]. eexists. split; [right; by left | done].
  - destruct (visit_cases_outcome n from (cases blk) c IH Hok Hpreds Hfrom Hn)
      as [(c1 & -> & Hok1 & Hpreds1 & Hfrom1 & Hn1) | [-> (t & Ht & Hout)]].
    2:{ right. split; [done |]. exists t. split; [apply elem_of_app; by left | done]. }
    simpl. case_bool_decide as Hdef; [| left; by eexists].
    destruct (branch_to_outcome n from (default_block blk) c1 IH Hok1 Hpreds1 Hfrom1 Hn1)
      as [(c2 & -> & _) | [-> Hout]]; [left; by eexists | right].
    split; [done |]. eexists. split; [| done]. apply elem_of_app. right. by left.
  - left. by eexists.
  - left. by eexists.
Qed.

(** With a budget of one more than the number of blocks not yet seen, a
    call returns, or throws because a block it leads to is missing. *)
Lemma post_order_visit_outcome n :
  ∀ c b, order_ok compiler c → preds_ok c →
    (size compiler < n + size (visit_order c))%nat →
    (∃ ok c', post_order_visit compiler n c b = Done (ok, c')) ∨
    (post_order_visit compiler n c b = Thrown ∧ leads_outside compiler b).
Proof.
  induction n as [|n IH]; intros c b Hok Hpreds Hn.
  { pose proof (visited_bounded compiler c Hok). lia. }
  simpl. destruct (Z.leb_spec 0 (default (-1) (visit_order c !! b))) as [Hle | Hlt].
  - left. unfold is_back_edge.
    destruct (visit_order c !! b) as [v|]; simpl; [by eauto |]. simpl in Hle. lia.
  - pose proof (order_ok_unvisited _ _ _ Hok Hlt) as Hb.
    unfold get_SPIRBlock. destruct (compiler !! b) as [blk|] eqn:Hblk; simpl.
    2:{ right. split; [done |]. by exists b. }
    destruct (visit_targets_outcome n b blk (set_visit_order c b 0) IH)
      as [[c1 ->] | [-> (t & Ht & x & Hx & Hnone)]].
    + by eapply order_ok_mark.
    + intros x Hx. apply has_later_pred_mark; [done | by apply Hpreds].
    + simpl. apply lookup_insert_eq.
    + simpl. rewrite map_size_insert_None by done. lia.
    + left. simpl. by eauto.
    + right. split; [done |]. exists x. split; [| done].
      eapply rtc_l; [| done]. by exists blk.
Qed.

End TraversalOutcome.

(** X14. With a budget above the number of blocks of the store (fewer than
    2^31), [build_post_order_visit_order] returns when every block that the
    branch targets lead to from the entry block is in the store, and throws
    when one of them is missing; no assertion fires. *)
Theorem traversal_outcome compiler func n :
  Z.of_nat (size compiler) < 2 ^ 31 → (size compiler < n)%nat →
  ((∀ b, rtc (branches_to compiler) (entry_block func) b → is_Some (compiler !! b)) →
   ∃ c, build_post_order_visit_order compiler func n CFG_empty = Done c) ∧
  ((∃ b, rtc (branches_to compiler) (entry_block func) b ∧ compiler !! b = None) →
   build_post_order_visit_order compiler func n CFG_empty = Thrown).
Proof.
  intros Hsmall Hn.
  assert ((∃ c, build_post_order_visit_order compiler func n CFG_empty = Done c) ∨
          (build_post_order_visit_order compiler func n CFG_empty = Thrown ∧
           leads_outside compiler (entry_block func))) as Hcases.
  { unfold build_post_order_visit_order.
    change (post_order_visit compiler n _ (entry_block func))
      with (post_order_visit compiler n CFG_empty (entry_block func)).
    destruct (post_order_visit_outcome compiler Hsmall n CFG_empty (entry_block func))
      as [(ok & c & ->) | [-> Hout]].
    - apply order_ok_empty.
    - intros x Hx. inversion Hx.
    - simpl. rewrite map_size_empty. lia.
    - left. by eexists.
    - by right. }
  split.
  - intros Hin. destruct Hcases as [? | [_ (x & Hx & Hnone)]]; [done |].
    destruct (Hin x Hx) as [blk Hblk]. congruence.
  - intros (b & Hb & Hnone). destruct Hcases as [[c Hc] | [? _]]; [| done].
    pose proof (traversal_traversed_store _ _ _ _ Hc Hsmall) as Htr.
    apply (traversal_reachable _ _ _ _ Hc (tr_small _ _ _ Htr)) in Hb.
    destruct (finished_block _ _ _ Htr b Hb) as [blk Hblk]. congruence.
Qed.

Lemma traversal_outcome_witness :
  ((∀ b, rtc (branches_to dowhile_blocks) 1%N b → is_Some (dowhile_blocks !! b)) →
   ∃ c, build_post_order_visit_order dowhile_blocks dowhile_func 5 CFG_empty = Done c) ∧
  ((∃ b, rtc (branches_to dowhile_blocks) 1%N b ∧ dowhile_blocks !! b = None) →
   build_post_order_visit_order dowhile_blocks dowhile_func 5 CFG_empty = Thrown).
Proof.
  apply (traversal_outcome dowhile_blocks dowhile_func 5); [vm_compute; reflexivity |].
  vm_compute. lia.
Defined.

(** ** Immediate dominators and predecessors *)

(** X15. When every recorded predecessor finished later than its successor,
    the immediate dominator of a finished block other than the entry block
    dominates each of its recorded predecessors; in particular the
    immediate dominator of a finished merge block dominates the loop
    header, so that it is the header or a block above it. *)
Theorem immediate_dominator_dominates_predecessors compiler func fuel cfg :
  CFG_new compiler func fuel = Done cfg →
  Z.of_nat (length (post_order cfg)) < 2 ^ 31 →
  compiler !! 0%N = None →
  preds_finish_later cfg →
  (∀ b p, b ∈ post_order cfg → b ≠ entry_block func →
          p ∈ get_preceding_edges cfg b →
          dominates cfg (entry_block func) (get_immediate_dominator cfg b) p) ∧
  (∀ h m, loop_header compiler cfg h → implied_edge compiler h m →
          m ∈ post_order cfg →
          dominates cfg (entry_block func) (get_immediate_dominator cfg m) h).
Proof.
  intros Hnew Hsmall Hzero Hlater.
  pose proof (tree_traversed _ _ _ _ Hnew Hsmall) as Htr.
  assert (∀ b p, b ∈ post_order cfg → b ≠ entry_block func →
            p ∈ get_preceding_edges cfg b →
            dominates cfg (entry_block func) (get_immediate_dominator cfg b) p) as Hpred.
  { intros b p Hb Hne Hp. destruct (Hlater b p Hb Hp) as [Hpin _].
    apply (tree_chain_dominates _ _ _ _ Hnew Hsmall Hzero Hlater); [done |].
    destruct (finished_order _ _ _ Htr b Hb) as [_ Hr].
    by apply (tree_nearest _ _ _ _ Hnew Hsmall Hzero Hlater b Hb ltac:(lia) Hne). }
  split; [done |].
  intros h m [Hh _] Himp Hm.
  destruct (constructed_edges _ _ _ _ Hnew) as [Hedges Hloops].
  assert (h ∈ get_preceding_edges cfg m) as Hp.
  { apply (proj1 Hedges). by apply Hloops. }
  apply Hpred; [done | | done].
  intros ->. destruct (Hlater _ _ Hm Hp) as [_ Hlt].
  destruct (order_entry _ _ _ Htr) as [_ Heord].
  destruct (finished_order _ _ _ Htr h Hh). lia.
Qed.

Lemma immediate_dominator_dominates_predecessors_witness :
  (∀ b p, b ∈ post_order dowhile_cfg → b ≠ 1%N →
          p ∈ get_preceding_edges dowhile_cfg b →
          dominates dowhile_cfg 1%N (get_immediate_dominator dowhile_cfg b) p) ∧
  (∀ h m, loop_header dowhile_blocks dowhile_cfg h → implied_edge dowhile_blocks h m →
          m ∈ post_order dowhile_cfg →
          dominates dowhile_cfg 1%N (get_immediate_dominator dowhile_cfg m) h).
Proof.
  apply (immediate_dominator_dominates_predecessors dowhile_blocks dowhile_func 8);
    [vm_compute; reflexivity | vm_compute; reflexivity | vm_compute; reflexivity
    | apply dowhile_preds_finish_later].
Defined.

(** X16. On a constructed CFG every finished block other than the entry
    block has a recorded predecessor that finished later, so that the test
    [pred.empty()] of [build_immediate_dominators] can only hold for the
    entry block; when every recorded predecessor finished later, the entry
    block has none. *)
Theorem only_entry_without_predecessors compiler func fuel cfg :
  CFG_new compiler func fuel = Done cfg →
  Z.of_nat (length (post_order cfg)) < 2 ^ 31 →
  (∀ b, b ∈ post_order cfg → b ≠ entry_block func →
        ∃ p, p ∈ get_preceding_edges cfg b ∧ p ∈ post_order cfg ∧
             order cfg b < order cfg p) ∧
  (preds_finish_later cfg → get_preceding_edges cfg (entry_block func) = []).
Proof.
  intros Hnew Hsmall.
  pose proof (constructed_traversed _ _ _ _ Hnew Hsmall) as Htr.
  split; [intros b; by apply (finished_later_pred _ _ _ Htr) |].
  intros Hlater. destruct (order_entry _ _ _ Htr) as [Hein Heord].
  destruct (get_preceding_edges cfg (entry_block func)) as [|p l] eqn:Hp; [done |].
  destruct (Hlater (entry_block func) p Hein) as [Hpin Hlt]; [rewrite Hp; by left |].
  destruct (finished_order _ _ _ Htr p Hpin). lia.
Qed.

Lemma only_entry_without_predecessors_witness :
  (∀ b, b ∈ post_order dowhile_cfg → b ≠ 1%N →
        ∃ p, p ∈ get_preceding_edges dowhile_cfg b ∧ p ∈ post_order dowhile_cfg ∧
             order dowhile_cfg b < order dowhile_cfg p) ∧
  (preds_finish_later dowhile_cfg → get_preceding_edges dowhile_cfg 1%N = []).
Proof.
  apply (only_entry_without_predecessors dowhile_blocks dowhile_func 8);
    vm_compute; reflexivity.
Defined.

(** ** The recorded successors in order *)

Lemma succeeding_add_branch_from from to c :
  get_succeeding_edges (add_branch from to c) from
  = add_unique (get_succeeding_edges c from) to.
Proof. unfold get_succeeding_edges, add_branch. simpl. by rewrite lookup_insert_eq. Qed.

Lemma succeeding_add_branch_other from to c f :
  f ≠ from → get_succeeding_edges (add_branch from to c) f = get_succeeding_edges c f.
Proof.
  intros Hne. unfold get_succeeding_edges, add_branch. simpl.
  by rewrite lookup_insert_ne.
Qed.

Lemma succeeding_finish_block_from b blk c :
  get_succeeding_edges (finish_block b blk c) b
  = foldl add_unique (get_succeeding_edges c b) (implied_targets blk).
Proof.
  change (get_succeeding_edges (finish_block b blk c) b) with
    (get_succeeding_edges
       (match merge blk with MergeLoop => add_branch b (merge_block blk) c | _ => c end) b).
  unfold implied_targets. destruct (merge blk); simpl; [done | | done].
  apply succeeding_add_branch_from.
Qed.

Lemma succeeding_finish_block_other b blk c f :
  f ≠ b → get_succeeding_edges (finish_block b blk c) f = get_succeeding_edges c f.
Proof.
  intros Hne.
  change (get_succeeding_edges (finish_block b blk c) f) with
    (get_succeeding_edges
       (match merge blk with MergeLoop => add_branch b (merge_block blk) c | _ => c end) f).
  destruct (merge blk); [done | | done]. by apply succeeding_add_branch_other.
Qed.

Section TraversalFrame.

Variable compiler : gmap N SPIRBlock.

(** A call changes neither the visit order nor the successors of a block
    that was visited before it. *)
Lemma visits_frame :
  (∀ c t ok c', visits compiler c t ok c' →
     ∀ f, visited c f →
          visit_order c' !! f = visit_order c !! f ∧
          get_succeeding_edges c' f = get_succeeding_edges c f) ∧
  (∀ c from ts c', visits_all compiler c from ts c' →
     ∀ f, visited c f →
          visit_order c' !! f = visit_order c !! f ∧
          (f ≠ from → get_succeeding_edges c' f = get_succeeding_edges c f)).
Proof.
  apply (visits_mutind compiler
    (λ c t ok c',
       ∀ f, visited c f →
            visit_order c' !! f = visit_order c !! f ∧
            get_succeeding_edges c' f = get_succeeding_edges c f)
    (λ c from ts c',
       ∀ f, visited c f →
            visit_order c' !! f = visit_order c !! f ∧
            (f ≠ from → get_succeeding_edges c' f = get_succeeding_edges c f))).
  - done.
  - intros c b blk c1 Hlt _ _ IH f Hf.
    assert (f ≠ b) as Hne by (intros ->; unfold visited in Hf; lia).
    destruct (IH f) as [Hvo Hs].
    { unfold visited. simpl. by rewrite lookup_insert_ne. }
    split.
    + rewrite visit_order_finish_block, lookup_insert_ne, Hvo by done.
      simpl. by rewrite lookup_insert_ne.
    + rewrite succeeding_finish_block_other, Hs by done. done.
  - done.
  - intros c from t ts ok c1 c2 _ IH1 _ IH2 f Hf.
    destruct (IH1 f Hf) as [Hvo1 Hs1].
    destruct (IH2 f) as [Hvo2 Hs2].
    { unfold visited. rewrite visit_order_branch, Hvo1. done. }
    split.
    + by rewrite Hvo2, visit_order_branch.
    + intros Hne. rewrite Hs2 by done. destruct ok; [| done].
      by rewrite succeeding_add_branch_other.
Qed.

End TraversalFrame.

Lemma filter_ext_in {A : Type} (P Q : A → Prop)
    `{!∀ x, Decision (P x)} `{!∀ x, Decision (Q x)} (l : list A) :
  (∀ x, x ∈ l → P x ↔ Q x) → filter P l = filter Q l.
Proof.
  induction l as [|a l IH]; intros Hl; [done |].
  rewrite !filter_cons. rewrite IH by (intros x Hx; apply Hl; by right).
  destruct (decide (P a)) as [Hp | Hp], (decide (Q a)) as [Hq | Hq]; try done.
  - destruct Hq. apply Hl; [by left | done].
  - destruct Hp. apply Hl; [by left | done].
Qed.

Section TraversalSuccessors.

Variable compiler : gmap N SPIRBlock.

Lemma order_ok_visited c b :
  order_ok compiler c → is_Some (visit_order c !! b) → visited c b.
Proof.
  intros Hok [v Hv]. unfold visited. rewrite Hv. simpl.
  destruct (ok_visited _ _ Hok _ _ Hv) as [-> | (i & _ & ->)]; lia.
Qed.

Lemma successors_exact_finish c b blk :
  order_ok compiler c → visit_order c !! b = Some 0 →
  compiler !! b = Some blk →
  Z.of_nat (length (post_order c)) < 2 ^ 31 - 1 →
  (∀ t, t ∈ branch_targets blk → visited c t) →
  get_succeeding_edges c b
    = foldl add_unique [] (filter (λ t, 0 < order c t) (branch_targets blk)) →
  successors_exact compiler c →
  successors_exact compiler (finish_block b blk c).
Proof.
  intros Hok Hb Hblk Hlen Hts Hsucc Hexact f blk' Hf Hblk'.
  set (n := Z.of_nat (length (post_order c)) + 1).
  assert (order (finish_block b blk c) b = n) as Hbn.
  { unfold order. rewrite visit_order_finish_block, lookup_insert_eq, (ok_count _ _ Hok).
    simpl. by rewrite u32_incr_small by lia. }
  assert (∀ x, x ≠ b → order (finish_block b blk c) x = order c x) as Hother.
  { intros x Hx. unfold order. by rewrite visit_order_finish_block, lookup_insert_ne. }
  assert (order c b = 0) as Hb0 by (unfold order; by rewrite Hb).
  assert (∀ x, order c x ≤ Z.of_nat (length (post_order c))) as Hmax.
  { intros x. unfold order. destruct (visit_order c !! x) as [v|] eqn:Hv; simpl; [| lia].
    destruct (ok_visited _ _ Hok _ _ Hv) as [-> | (i & Hi & ->)]; [lia |].
    apply lookup_lt_Some in Hi. lia. }
  assert (∀ x, visited c x → visited (finish_block b blk c) x) as Hvis.
  { intros x Hx. unfold visited. rewrite visit_order_finish_block.
    destruct (decide (b = x)) as [-> | Hne].
    - rewrite lookup_insert_eq. simpl. rewrite (ok_count _ _ Hok), u32_incr_small; lia.
    - by rewrite lookup_insert_ne. }
  rewrite post_order_finish_block in Hf.
  apply elem_of_app in Hf as [Hf | ->%list_elem_of_singleton].
  - destruct (order_ok_finished_pos _ _ _ Hok Hf) as (vf & Hvf & Hpos & Hle).
    assert (f ≠ b) as Hfb by (intros ->; rewrite Hb in Hvf; injection Hvf as <-; lia).
    destruct (Hexact f blk' Hf Hblk') as [Hts' Hsf]. split; [by auto |].
    rewrite succeeding_finish_block_other, Hsf, (Hother f) by done.
    f_equal. f_equal. apply filter_ext_in. intros t Ht.
    destruct (decide (t = b)) as [-> | Htb]; [| by rewrite Hother].
    rewrite Hbn, Hb0. specialize (Hmax f). lia.
  - rewrite Hblk in Hblk'. injection Hblk' as <-. split; [by auto |].
    rewrite succeeding_finish_block_from, Hsucc, <- foldl_app. f_equal. f_equal.
    apply filter_ext_in. intros t Ht. rewrite Hbn.
    destruct (decide (t = b)) as [-> | Htb].
    + rewrite Hbn, Hb0. lia.
    + rewrite Hother by done. specialize (Hmax t). unfold n. lia.
Qed.

Lemma visits_successors :
  (∀ c t ok c', visits compiler c t ok c' →
     few_blocks compiler c' → order_ok compiler c → preds_ok c →
     unvisited_no_successors c → successors_exact compiler c →
     unvisited_no_successors c' ∧ successors_exact compiler c') ∧
  (∀ c from ts c', visits_all compiler c from ts c' →
     few_blocks compiler c' → order_ok compiler c → preds_ok c →
     visit_order c !! from = Some 0 →
     unvisited_no_successors c → successors_exact compiler c →
     unvisited_no_successors c' ∧ successors_exact compiler c' ∧
     get_succeeding_edges c' from
       = foldl add_unique (get_succeeding_edges c from)
           (filter (λ t, 0 < order c' t) ts)).
Proof.
  apply (visits_mutind compiler
    (λ c t ok c',
       few_blocks compiler c' → order_ok compiler c → preds_ok c →
       unvisited_no_successors c → successors_exact compiler c →
       unvisited_no_successors c' ∧ successors_exact compiler c')
    (λ c from ts c',
       few_blocks compiler c' → order_ok compiler c → preds_ok c →
       visit_order c !! from = Some 0 →
       unvisited_no_successors c → successors_exact compiler c →
       unvisited_no_successors c' ∧ successors_exact compiler c' ∧
       get_succeeding_edges c' from
         = foldl add_unique (get_succeeding_edges c from)
             (filter (λ t, 0 < order c' t) ts))).
  - done.
  - (* first visit *)
    intros c b blk c1 Hlt Hblk Hall IH Hfew Hok Hpreds Hnone Hexact.
    pose proof (order_ok_unvisited _ _ _ Hok Hlt) as Hb.
    assert (few_blocks compiler c1) as Hfew1.
    { eapply few_blocks_earlier; [| done].
      rewrite post_order_finish_block, length_app. lia. }
    assert (order_ok compiler (set_visit_order c b 0)) as Hok0
      by by eapply order_ok_mark.
    assert (preds_ok (set_visit_order c b 0)) as Hpreds0.
    { intros x Hx. apply has_later_pred_mark; [done | by apply Hpreds]. }
    assert (visit_order (set_visit_order c b 0) !! b = Some 0) as Hb0
      by (simpl; apply lookup_insert_eq).
    destruct (proj2 (visits_order compiler) _ _ _ _ Hall Hfew1 Hok0 Hpreds0 Hb0)
      as (Hok1 & Hprog1 & _).
    assert (visit_order c1 !! b = Some 0) as Hb1 by by apply Hprog1.
    destruct IH as (Hnone1 & Hexact1 & Hsucc); [done.. | | |].
    { intros f Hf. simpl in Hf. apply lookup_insert_None in Hf as [Hf _].
      by apply Hnone. }
    { intros f blk' Hf Hblk'. destruct (Hexact f blk' Hf Hblk') as [Hts Hsf].
      destruct (order_ok_finished_pos _ _ _ Hok Hf) as (vf & Hvf & Hpos & _).
      assert (f ≠ b) as Hfb by (intros ->; congruence).
      assert (∀ x, x ≠ b → order (set_visit_order c b 0) x = order c x) as Hother.
      { intros x Hx. unfold order. simpl. by rewrite lookup_insert_ne. }
      split.
      - intros t Ht. unfold visited. simpl.
        destruct (decide (b = t)) as [-> | Hne]; [by rewrite lookup_insert_eq |].
        rewrite lookup_insert_ne by done. by apply Hts.
      - change (get_succeeding_edges (set_visit_order c b 0) f)
          with (get_succeeding_edges c f).
        rewrite Hsf. f_equal. f_equal.
        apply filter_ext_in. intros t Ht. rewrite (Hother f) by done.
        destruct (decide (t = b)) as [-> | Htb]; [| by rewrite Hother].
        assert (order c b = 0) as -> by (unfold order; by rewrite Hb).
        assert (order (set_visit_order c b 0) b = 0) as ->
          by (unfold order; simpl; by rewrite lookup_insert_eq).
        done. }
    assert (Z.of_nat (length (post_order c1)) < 2 ^ 31 - 1) as Hlen.
    { pose proof (order_ok_room _ _ _ Hok1 Hb1). destruct Hfew as [Hsz | Hsz]; [lia |].
      rewrite post_order_finish_block, length_app in Hsz. simpl in Hsz. lia. }
    split.
    + intros f Hf. rewrite visit_order_finish_block in Hf.
      apply lookup_insert_None in Hf as [Hf Hne].
      rewrite succeeding_finish_block_other by done. by apply Hnone1.
    + apply successors_exact_finish; [done.. | | | done].
      * intros t Ht. apply order_ok_visited; [done |].
        by apply (proj2 (visits_targets compiler) _ _ _ _ Hall).
      * rewrite Hsucc.
        change (get_succeeding_edges (set_visit_order c b 0) b)
          with (get_succeeding_edges c b).
        by rewrite (Hnone b Hb).
  - intros c from _ _ _ _ Hnone Hexact. by split_and!.
  - (* one guarded call, then the remaining targets *)
    intros c from t ts ok c1 c2 Hvis IH1 Hrest IH2 Hfew Hok Hpreds Hfrom Hnone Hexact.
    pose proof (proj2 (visits_length compiler) _ _ _ _ Hrest) as Hlen.
    assert (few_blocks compiler (if ok then add_branch from t c1 else c1)) as Hfew1'
      by by eapply few_blocks_earlier.
    assert (few_blocks compiler c1) as Hfew1
      by (unfold few_blocks in *; by rewrite post_order_branch in Hfew1').
    assert (visits_all compiler c from [t] (if ok then add_branch from t c1 else c1))
      as Hone by (econstructor; [done | constructor]).
    destruct (proj2 (visits_order compiler) _ _ _ _ Hone Hfew1' Hok Hpreds Hfrom)
      as (Hok1' & Hprog1' & Hpreds1').
    destruct (proj1 (visits_order compiler) _ _ _ _ Hvis Hfew1 Hok Hpreds)
      as (Hok1 & _ & Hans & _).
    assert (visit_order (if ok then add_branch from t c1 else c1) !! from = Some 0)
      as Hfrom1' by by apply Hprog1'.
    destruct (proj2 (visits_order compiler) _ _ _ _ Hrest Hfew Hok1' Hpreds1' Hfrom1')
      as (Hok2 & Hprog2 & _).
    destruct IH1 as (Hnone1 & Hexact1); [done.. |].
    assert (visited c from) as Hvfrom by (unfold visited; by rewrite Hfrom).
    destruct (proj1 (visits_frame compiler) _ _ _ _ Hvis from Hvfrom) as [_ Hs1].
    assert (visit_order c1 !! from = Some 0) as Hfrom1
      by by rewrite visit_order_branch in Hfrom1'.
    destruct IH2 as (Hnone2 & Hexact2 & Hsucc2); [done.. | | |].
    { destruct ok; [| done]. intros f Hf.
      rewrite succeeding_add_branch_other; [by apply Hnone1 |]. intros ->.
      change (visit_order c1 !! from = None) in Hf. congruence. }
    { destruct ok; [| done]. intros f blk Hf Hblk.
      destruct (Hexact1 f blk Hf Hblk) as [Hts Hsf]. split; [done |].
      rewrite succeeding_add_branch_other; [done |]. intros ->.
      by destruct (order_ok_in_progress _ _ _ Hok1 Hfrom1). }
    split_and!; [done | done |].
    rewrite Hsucc2, filter_cons. destruct ok.
    + rewrite succeeding_add_branch_from, Hs1.
      rewrite decide_True; [done |].
      destruct (order_ok_finished_pos _ _ _ Hok1 Hans) as (v & Hv & Hpos & _).
      assert (visited (add_branch from t c1) t) as Hvt
        by (unfold visited; simpl; rewrite Hv; simpl; lia).
      destruct (proj2 (visits_frame compiler) _ _ _ _ Hrest t Hvt) as [Hvo2 _].
      unfold order. rewrite Hvo2. simpl. rewrite Hv. done.
    + destruct Hans as [-> Hz]. rewrite decide_False; [done |].
      assert (visit_order c2 !! t = Some 0) as Hz2 by by apply Hprog2.
      unfold order. rewrite Hz2. simpl. lia.
Qed.

End TraversalSuccessors.

Lemma traversal_successors compiler func fuel c :
  build_post_order_visit_order compiler func fuel CFG_empty = Done c →
  Z.of_nat (length (post_order c)) < 2 ^ 31 →
  unvisited_no_successors c ∧ successors_exact compiler c.
Proof.
  intros Hc Hsmall. unfold build_post_order_visit_order in Hc. inv_bind Hc.
  destruct x as [ok c']. injection Hc as ->.
  apply post_order_visit_visits in Hx.
  apply (proj1 (visits_successors compiler) _ _ _ _ Hx);
    [by right | apply order_ok_empty | by intros x Hin; inversion Hin | |].
  - intros f _. unfold get_succeeding_edges. simpl. by rewrite lookup_empty.
  - intros f blk Hf. inversion Hf.
Qed.

(** X17. On a constructed CFG the list [succeeding_edges[f]] of a finished
    block is, in this order and with repetitions dropped by [add_unique]:
    the branch targets of [f] that finished before [f], in the order of the
    terminator, then the merge block if [f] is a loop header.  A block that
    is not finished has no recorded successor. *)
Theorem succeeding_edges_listed compiler func fuel cfg :
  CFG_new compiler func fuel = Done cfg →
  Z.of_nat (length (post_order cfg)) < 2 ^ 31 →
  (∀ f blk, f ∈ post_order cfg → compiler !! f = Some blk →
     get_succeeding_edges cfg f =
       foldl add_unique []
         (filter (λ t, order cfg t < order cfg f) (branch_targets blk)
          ++ implied_targets blk)) ∧
  (∀ f, f ∉ post_order cfg → get_succeeding_edges cfg f = []).
Proof.
  intros Hnew Hsmall.
  pose proof (constructed_traversed _ _ _ _ Hnew Hsmall) as Htr.
  destruct (CFG_new_phases _ _ _ _ Hnew) as (c & Hc & _ & Hg).
  destruct Hg as (Hvo & Hpo & _ & Hs & _).
  destruct (traversal_successors _ _ _ _ Hc) as [Hnone Hexact]; [by rewrite <- Hpo |].
  assert (∀ f, get_succeeding_edges cfg f = get_succeeding_edges c f) as Hsucc
    by (intros f; unfold get_succeeding_edges; by rewrite Hs).
  assert (∀ x, order cfg x = order c x) as Hord
    by (intros x; unfold order; by rewrite Hvo).
  split.
  - intros f blk Hf Hblk. rewrite Hpo in Hf.
    destruct (Hexact f blk Hf Hblk) as [Hts Hsf]. rewrite Hsucc, Hsf. f_equal. f_equal.
    apply filter_ext_in. intros t Ht. rewrite !Hord.
    specialize (Hts t Ht). unfold visited in Hts. rewrite <- Hvo in Hts.
    destruct (visit_order cfg !! t) as [v|] eqn:Hv; simpl in Hts; [| lia].
    pose proof (tr_done _ _ _ Htr _ _ Hv).
    assert (order c t = v) as -> by (rewrite <- Hord; unfold order; by rewrite Hv).
    lia.
  - intros f Hf. rewrite Hsucc. apply Hnone. rewrite <- Hvo.
    by eapply unfinished_order.
Qed.

Lemma succeeding_edges_listed_witness :
  (∀ f blk, f ∈ post_order dowhile_cfg → dowhile_blocks !! f = Some blk →
     get_succeeding_edges dowhile_cfg f =
       foldl add_unique []
         (filter (λ t, order dowhile_cfg t < order dowhile_cfg f) (branch_targets blk)
          ++ implied_targets blk)) ∧
  (∀ f, f ∉ post_order dowhile_cfg → get_succeeding_edges dowhile_cfg f = []).
Proof.
  apply (succeeding_edges_listed dowhile_blocks dowhile_func 8 dowhile_cfg);
    vm_compute; reflexivity.
Defined.

(** ** Recording an edge twice, and connectedness *)

Lemma add_unique_idem l v : add_unique (add_unique l v) v = add_unique l v.
Proof.
  unfold add_unique at 2 3. case_bool_decide as Hv.
  - unfold add_unique. by rewrite bool_decide_eq_true_2.
  - unfold add_unique. rewrite bool_decide_eq_true_2; [done |].
    apply elem_of_app. right. by left.
Qed.

(** X18. [add_branch] is idempotent: recording an edge a second time
    changes neither adjacency list. *)
Theorem add_branch_idempotent from to c :
  add_branch from to (add_branch from to c) = add_branch from to c.
Proof.
  unfold add_branch. simpl. rewrite !lookup_insert_eq. simpl.
  rewrite !add_unique_idem, !insert_insert_eq. done.
Qed.

Section Connected.

Variable compiler : gmap N SPIRBlock.
Variable entry : N.
Variable c : CFG.
Hypothesis Htr : traversed compiler entry c.
Hypothesis Hedges : edges_ok c.

Lemma finished_path b : b ∈ post_order c → ∃ l, path c entry l b.
Proof.
  intros Hb. destruct (order_entry _ _ _ Htr) as [Hein Heord].
  remember (Z.to_nat (order c entry - order c b)) as m eqn:Hm.
  revert b Hb Hm. induction (lt_wf m) as [m _ IH]. intros b Hb Hm.
  destruct (decide (b = entry)) as [-> | Hne]; [exists [entry]; constructor |].
  destruct (finished_later_pred _ _ _ Htr b Hb Hne) as (p & Hp & Hpin & Hlt).
  destruct (finished_order _ _ _ Htr p Hpin) as [_ Hrp].
  destruct (finished_order _ _ _ Htr b Hb) as [_ Hrb].
  destruct (IH (Z.to_nat (order c entry - order c p))) with (b := p) as [l Hl];
    [lia | done | done |].
  exists (l ++ [b]). econstructor; [done |]. by apply (proj1 Hedges).
Qed.

End Connected.

(** X19. On a constructed CFG every finished block is reached from the
    entry block by a walk along the recorded edges: dropping the back edges
    disconnects nothing. *)
Theorem recorded_graph_connected compiler func fuel cfg :
  CFG_new compiler func fuel = Done cfg →
  Z.of_nat (length (post_order cfg)) < 2 ^ 31 →
  ∀ b, b ∈ post_order cfg → ∃ l, path cfg (entry_block func) l b.
Proof.
  intros Hnew Hsmall b Hb. eapply finished_path; [| | done].
  - by eapply constructed_traversed.
  - by eapply constructed_edges.
Qed.

Lemma recorded_graph_connected_witness : ∃ l, path dowhile_cfg 1%N l 4%N.
Proof.
  apply (recorded_graph_connected dowhile_blocks dowhile_func 8 dowhile_cfg);
    [vm_compute; reflexivity | vm_compute; reflexivity
    | apply list_elem_of_In; vm_compute; tauto].
Defined.

(** X20. When every recorded predecessor finished later than its successor,
    a sequence of [add_block] calls on a new builder followed by
    [lift_continue_block_dominator] returns, and the resulting dominator
    dominates every added block that the traversal reached. *)
Theorem lifted_dominator_dominates compiler func fuel cfg n bs :
  CFG_new compiler func fuel = Done cfg →
  Z.of_nat (length (post_order cfg)) < 2 ^ 31 →
  compiler !! 0%N = None →
  preds_finish_later cfg →
  (2 * length (post_order cfg) ≤ n)%nat →
  ∃ d d', add_blocks n cfg DominatorBuilder_new bs = Done d ∧
          lift_continue_block_dominator compiler func cfg d = Done d' ∧
          ∀ b, b ∈ bs → b ∈ post_order cfg →
               dominates cfg (entry_block func) (dominator d') b.
Proof.
  intros Hnew Hsmall Hzero Hlater Hn.
  pose proof (constructed_traversed _ _ _ _ Hnew Hsmall) as Htr.
  destruct (add_blocks_returns _ _ _ _ Hnew Hsmall Hzero Hlater n bs Hn) as (d & Hd & Hh).
  apply builder_holds_filter in Hh as [Hnone Hsome].
  destruct (decide (Exists (λ b, b ∈ post_order cfg) bs)) as [Hex | Hnex].
  - apply Exists_exists in Hex as (b0 & Hb0 & Hfin0).
    destruct Hsome as [Hdin [Hcommon _]]; [by exists b0 |].
    destruct (lift_continue_block_dominator_returns compiler func fuel cfg d
                Hnew Hsmall Hdin) as [d' Hd'].
    exists d, d'. split_and!; [done | done |]. intros b Hb Hfin.
    apply (tree_chain_dominates _ _ _ _ Hnew Hsmall Hzero Hlater); [done |].
    destruct (lift_continue_block_dominator_result _ _ _ _ _ Hd') as [-> | ->].
    + apply Hcommon. by apply list_elem_of_filter.
    + simpl. eapply tree_rooted; [done | | done].
      by eapply tree_strict.
  - exists d, d. split_and!; [done | |].
    + unfold lift_continue_block_dominator. rewrite bool_decide_eq_true_2; [done |].
      apply Hnone. intros b Hb Hfin. apply Hnex, Exists_exists. by exists b.
    + intros b Hb Hfin. destruct Hnex. apply Exists_exists. by exists b.
Qed.

Lemma lifted_dominator_dominates_witness :
  ∃ d d', add_blocks 8 dowhile_cfg DominatorBuilder_new [3%N; 4%N] = Done d ∧
          lift_continue_block_dominator dowhile_blocks dowhile_func dowhile_cfg d
            = Done d' ∧
          ∀ b, b ∈ [3%N; 4%N] → b ∈ post_order dowhile_cfg →
               dominates dowhile_cfg 1%N (dominator d') b.
Proof.
  apply (lifted_dominator_dominates dowhile_blocks dowhile_func 8);
    [vm_compute; reflexivity | vm_compute; reflexivity | vm_compute; reflexivity
    | apply dowhile_preds_finish_later | vm_compute; lia].
Defined.

(** ** Loop dominators of the do/while shape *)

Lemma find_loop_dominator_no_predecessors compiler n c b :
  get_preceding_edges c b = [] → find_loop_dominator compiler (S n) c b = Done 0%N.
Proof.
  intros Hp. cbn [find_loop_dominator]. case_bool_decide as Hb; [by subst |].
  unfold get_preceding_edges in Hp.
  by destruct (preceding_edges c !! b) as [[|front rest]|].
Qed.

Lemma find_loop_dominator_step compiler n c b front rest found ig :
  b ≠ 0%N → get_preceding_edges c b = front :: rest →
  scan_predecessors compiler b (front :: rest) = Done (found, ig) →
  find_loop_dominator compiler (S n) c b =
  let next := if bool_decide (found = 0%N) then front else found in
  if negb ig && bool_decide (next ≠ 0%N)
  then blk ← get_SPIRBlock compiler next;
       if bool_decide (merge blk = MergeLoop) then Done next
       else find_loop_dominator compiler n c next
  else find_loop_dominator compiler n c next.
Proof.
  intros Hb Hp Hscan. cbn [find_loop_dominator]. rewrite bool_decide_eq_false_2 by done.
  unfold get_preceding_edges in Hp.
  destruct (preceding_edges c !! b) as [l|]; simpl in Hp; [| done]. subst l.
  by rewrite Hscan.
Qed.

Section DoWhileLoop.

Variable compiler : gmap N SPIRBlock.
Variables E H B M : N.
Variables bE bH bB bM : SPIRBlock.
Hypothesis HE : compiler !! E = Some bE.
Hypothesis HH : compiler !! H = Some bH.
Hypothesis HB : compiler !! B = Some bB.
Hypothesis HM : compiler !! M = Some bM.
Hypothesis Hzero : compiler !! 0%N = None.
Hypothesis Hdistinct : NoDup [E; H; B; M].
Hypothesis HmE : merge bE ≠ MergeLoop.
Hypothesis HmH : merge bH = MergeLoop ∧ merge_block bH = M.
Hypothesis HmB : merge bB ≠ MergeLoop.

Variable c : CFG.
Hypothesis HpE : get_preceding_edges c E = [].
Hypothesis HpH : get_preceding_edges c H = [E].
Hypothesis HpB : get_preceding_edges c B = [H].
Hypothesis HpM : get_preceding_edges c M = [B; H].

Lemma dowhile_loop_entry n : find_loop_dominator compiler (S n) c E = Done 0%N.
Proof. by apply find_loop_dominator_no_predecessors. Qed.

Lemma dowhile_loop_header n : find_loop_dominator compiler (S (S n)) c H = Done 0%N.
Proof.
  assert (E ≠ 0%N ∧ H ≠ 0%N) as [HEz HHz] by (split; intros ->; congruence).
  assert (∃ found, scan_predecessors compiler H [E] = Done (found, false) ∧
                   (found = 0%N ∨ found = E)) as (found & Hscan & Hfound).
  { simpl. unfold get_SPIRBlock. rewrite HE. simpl.
    rewrite bool_decide_eq_false_2 by (by intros [? _]).
    case_bool_decide; eauto. }
  erewrite find_loop_dominator_step; [| done | done | done]. cbv zeta.
  assert ((if bool_decide (found = 0%N) then E else found) = E) as ->.
  { case_bool_decide; [done |]. by destruct Hfound. }
  rewrite bool_decide_eq_true_2 by done. simpl.
  unfold get_SPIRBlock. rewrite HE. simpl. rewrite bool_decide_eq_false_2 by done.
  apply dowhile_loop_entry.
Qed.

Lemma dowhile_loop_latch n : find_loop_dominator compiler (S n) c B = Done H.
Proof.
  destruct (ids_distinct _ _ _ _ Hdistinct) as (? & ? & ? & ? & ? & ?).
  destruct HmH as [HmH1 HmH2].
  assert (B ≠ 0%N ∧ H ≠ 0%N) as [HBz HHz] by (split; intros ->; congruence).
  erewrite find_loop_dominator_step; [| done | done |].
  2:{ simpl. unfold get_SPIRBlock. rewrite HH. simpl.
      rewrite bool_decide_eq_false_2 by (intros [_ ?]; congruence).
      rewrite bool_decide_eq_false_2 by (intros [? _]; congruence). done. }
  cbv zeta. rewrite (bool_decide_eq_true_2 (0%N = 0%N)) by done.
  rewrite bool_decide_eq_true_2 by done. simpl.
  unfold get_SPIRBlock. rewrite HH. simpl. by rewrite bool_decide_eq_true_2.
Qed.

Lemma dowhile_loop_merge n :
  ¬ (merge bB = MergeSelection ∧ next_block bB = M) →
  find_loop_dominator compiler (S (S (S n))) c M = Done 0%N.
Proof.
  intros Hsel. destruct HmH as [HmH1 HmH2].
  assert (M ≠ 0%N ∧ H ≠ 0%N) as [HMz HHz] by (split; intros ->; congruence).
  erewrite find_loop_dominator_step; [| done | done |].
  2:{ simpl. unfold get_SPIRBlock. rewrite HB. simpl.
      rewrite bool_decide_eq_false_2 by (by intros [? _]).
      rewrite bool_decide_eq_false_2 by done.
      rewrite HH. simpl. by rewrite bool_decide_eq_true_2. }
  cbv zeta. rewrite (bool_decide_eq_false_2 (H = 0%N)) by done. simpl.
  apply dowhile_loop_header.
Qed.

End DoWhileLoop.

(** X21. For every function of the do/while shape the construction returns
    and [find_loop_dominator] gives the loop header for the latch, and 0
    for the entry block, for the header and, unless the latch is a
    selection header that continues at the merge block, for the merge
    block. *)
Theorem dowhile_loop_dominators compiler E H B M n :
  dowhile_shaped compiler E H B M →
  compiler !! 0%N = None →
  ∃ cfg, CFG_new compiler {| entry_block := E |} (4 + n) = Done cfg ∧
         find_loop_dominator compiler (1 + n) cfg B = Done H ∧
         find_loop_dominator compiler (2 + n) cfg H = Done 0%N ∧
         find_loop_dominator compiler (1 + n) cfg E = Done 0%N ∧
         ((∀ bB, compiler !! B = Some bB →
                 ¬ (merge bB = MergeSelection ∧ next_block bB = M)) →
          find_loop_dominator compiler (3 + n) cfg M = Done 0%N).
Proof.
  intros (Hnd & (bE & HE & HtE) & (bH & HH & HtH) & (bB & HB & HtB) & (bM & HM & HtM)) Hzero.
  destruct (ids_distinct E H B M Hnd) as (? & ? & ? & ? & ? & ?).
  assert (∃ cfg, build_immediate_dominators {| entry_block := E |} (4 + n)
                   (dowhile_traversed E H B M) = Done cfg ∧
                 graph_eq (dowhile_traversed E H B M) cfg ∧
                 get_immediate_dominator cfg M = H) as (cfg & Hcfg & Hg & _)
    by (eapply dowhile_dominators; eassumption).
  exists cfg. unfold CFG_new.
  rewrite (dowhile_traversal_result compiler E H B M bE bH bB bM HE HH HB HM Hnd HtE HtH HtB HtM).
  rewrite bind_Done_l. split; [done |].
  destruct Hg as (_ & _ & _ & _ & Hp).
  assert (get_preceding_edges cfg E = [] ∧ get_preceding_edges cfg H = [E] ∧
          get_preceding_edges cfg B = [H] ∧ get_preceding_edges cfg M = [B; H])
    as (HpE & HpH & HpB & HpM).
  { rewrite !Hp. unfold get_preceding_edges. cbn [preceding_edges dowhile_traversed].
    split_and!; by lookups. }
  destruct HtE as (_ & _ & HmE), HtH as (_ & _ & HmH), HtB as (_ & HmB & _).
  split_and!.
  - exact (dowhile_loop_latch compiler E H B M bH bB HH HB Hzero Hnd HmH
             cfg HpH HpB HpM n).
  - exact (dowhile_loop_header compiler E H B M bE bH HE HH Hzero Hnd HmE
             cfg HpE HpH HpB HpM n).
  - by eapply dowhile_loop_entry.
  - intros Hsel.
    exact (dowhile_loop_merge compiler E H B M bE bH bB bM HE HH HB HM Hzero Hnd
             HmE HmH HmB cfg HpE HpH HpB HpM n (Hsel bB HB)).
Qed.

Lemma dowhile_loop_dominators_witness :
  ∃ cfg, CFG_new dowhile_blocks {| entry_block := 1%N |} (4 + 0) = Done cfg ∧
         find_loop_dominator dowhile_blocks (1 + 0) cfg 3 = Done 2%N ∧
         find_loop_dominator dowhile_blocks (2 + 0) cfg 2 = Done 0%N ∧
         find_loop_dominator dowhile_blocks (1 + 0) cfg 1 = Done 0%N ∧
         ((∀ bB, dowhile_blocks !! 3%N = Some bB →
                 ¬ (merge bB = MergeSelection ∧ next_block bB = 4%N)) →
          find_loop_dominator dowhile_blocks (3 + 0) cfg 4 = Done 0%N).
Proof.
  apply (dowhile_loop_dominators dowhile_blocks 1 2 3 4 0); [| vm_compute; reflexivity].
  split_and!.
  - repeat constructor; rewrite ?elem_of_cons, ?elem_of_nil; intuition discriminate.
  - eexists. split_and!; vm_compute; (reflexivity || discriminate).
  - eexists. split_and!; vm_compute; reflexivity.
  - eexists. split; [vm_compute; reflexivity |]. split; [reflexivity |].
    split; [discriminate |]. left. split; reflexivity.
  - eexists. split; [vm_compute; reflexivity |]. split; [by left | discriminate].
Defined.

(** ** Loop headers that dominate their merge blocks *)

Section Stack.

Variable compiler : gmap N SPIRBlock.
Variable entry : N.

Lemma on_stack_reachable c x :
  on_stack compiler entry c x → rtc (branches_to compiler) entry x.
Proof.
  induction 1 as [| y x _ IH _ Hyx]; [done |]. by eapply rtc_r.
Qed.

Lemma on_stack_mono c c' x :
  (∀ y, visit_order c !! y = Some 0 → visit_order c' !! y = Some 0) →
  on_stack compiler entry c x → on_stack compiler entry c' x.
Proof.
  intros Hmono. induction 1 as [| y x _ IH Hy Hyx]; [constructor |].
  econstructor; [done | by apply Hmono | done].
Qed.

Lemma on_stack_avoiding c h x :
  (∀ y, visit_order c !! y = Some 0 → y ≠ h) → x ≠ h →
  on_stack compiler entry c x → reach_avoiding compiler entry h x.
Proof.
  intros Hh Hx Hstack. induction Hstack as [| y x _ IH Hy Hyx]; [by constructor |].
  econstructor; [| done | done]. apply IH. by apply Hh.
Qed.

(** When the block [b] is about to finish, a block that the branches lead
    to and that was not visited yet is reached without passing through
    [b]. *)
Lemma unvisited_avoiding c c1 b blk :
  order_ok compiler c1 → targets_ok compiler c1 → stack_ok compiler entry c →
  visit_order c !! b = None → visit_order c1 !! b = Some 0 →
  (∀ x, visit_order c1 !! x = Some 0 → x = b ∨ visit_order c !! x = Some 0) →
  compiler !! b = Some blk →
  (∀ t, t ∈ branch_targets blk → is_Some (visit_order c1 !! t)) →
  ∀ x, rtc (branches_to compiler) entry x → visit_order c1 !! x = None →
       reach_avoiding compiler entry b x.
Proof.
  intros Hok1 Hts1 Hstack Hb Hb1 Hprog Hblk Htargets.
  apply (rtc_ind_r (λ x, visit_order c1 !! x = None →
                         reach_avoiding compiler entry b x)).
  - intros He. constructor. intros ->. congruence.
  - intros y x _ Hyx IH Hx.
    assert (x ≠ b) as Hxb by (intros ->; congruence).
    destruct (visit_order c1 !! y) as [v|] eqn:Hy.
    2:{ econstructor; [by apply IH | done | done]. }
    destruct (ok_visited _ _ Hok1 _ _ Hy) as [-> | (i & Hi & ->)].
    + destruct (Hprog y Hy) as [-> | Hyc].
      * destruct Hyx as (blk' & Hblk' & Ht). rewrite Hblk in Hblk'.
        injection Hblk' as <-. destruct (Htargets x Ht) as [? ?]. congruence.
      * econstructor; [| done | done].
        eapply on_stack_avoiding; [| | by apply Hstack].
        -- intros z Hz ->. congruence.
        -- intros ->. congruence.
    + destruct Hyx as (blk' & Hblk' & Ht).
      destruct (Hts1 y blk' x) as [? ?]; [by eapply list_elem_of_lookup_2 | done.. |].
      congruence.
Qed.

End Stack.

Section TraversalMerges.

Variable compiler : gmap N SPIRBlock.
Variable entry : N.
Hypothesis Hdom : headers_dominate_merges compiler entry.

Lemma merges_first_finish c c1 b blk :
  order_ok compiler c → order_ok compiler c1 → targets_ok compiler c1 →
  stack_ok compiler entry c → on_stack compiler entry c b →
  visit_order c !! b = None → visit_order c1 !! b = Some 0 →
  (∀ x, visit_order c1 !! x = Some 0 → x = b ∨ visit_order c !! x = Some 0) →
  compiler !! b = Some blk →
  (∀ t, t ∈ branch_targets blk → is_Some (visit_order c1 !! t)) →
  Z.of_nat (length (post_order c1)) < 2 ^ 31 - 1 →
  merges_first compiler entry c1 →
  merges_first compiler entry (finish_block b blk c1).
Proof.
  intros Hok Hok1 Hts1 Hstack Honb Hb Hb1 Hprog Hblk Htargets Hlen Hfirst.
  intros h blk' Hh Hblk' Hm Hreach.
  assert (order (finish_block b blk c1) b = Z.of_nat (length (post_order c1)) + 1)
    as Hbn.
  { unfold order. rewrite visit_order_finish_block, lookup_insert_eq, (ok_count _ _ Hok1).
    simpl. by rewrite u32_incr_small by lia. }
  assert (∀ x, x ≠ b → order (finish_block b blk c1) x = order c1 x) as Hother.
  { intros x Hx. unfold order. by rewrite visit_order_finish_block, lookup_insert_ne. }
  assert (∀ x, x ∈ post_order c1 → x ≠ b) as Hfin.
  { intros x Hx ->. by destruct (order_ok_in_progress _ _ _ Hok1 Hb1). }
  rewrite post_order_finish_block in Hh. rewrite post_order_finish_block.
  apply elem_of_app in Hh as [Hh | ->%list_elem_of_singleton].
  - destruct (Hfirst h blk' Hh Hblk' Hm Hreach) as [Hmin Hlt].
    split; [apply elem_of_app; by left |].
    rewrite !Hother by by apply Hfin. done.
  - rewrite Hblk in Hblk'. injection Hblk' as <-.
    destruct (Hdom b blk (on_stack_reachable _ _ _ _ Honb) Hblk Hm) as [Hne Havoid].
    destruct (visit_order c1 !! merge_block blk) as [v|] eqn:Hv.
    2:{ destruct Havoid.
        by eapply (unvisited_avoiding compiler entry c c1 b blk). }
    destruct (ok_visited _ _ Hok1 _ _ Hv) as [-> | (i & Hi & ->)].
    { destruct Havoid. destruct (Hprog _ Hv) as [? | Hc]; [done |].
      eapply on_stack_avoiding; [| done | by apply Hstack].
      intros z Hz ->. congruence. }
    split; [apply elem_of_app; left; by eapply list_elem_of_lookup_2 |].
    rewrite Hother, Hbn by done. unfold order. rewrite Hv. simpl.
    apply lookup_lt_Some in Hi. lia.
Qed.

Lemma visits_merges :
  (∀ c t ok c', visits compiler c t ok c' →
     few_blocks compiler c' → order_ok compiler c → preds_ok c →
     targets_ok compiler c → stack_ok compiler entry c →
     on_stack compiler entry c t →
     merges_first compiler entry c → merges_first compiler entry c') ∧
  (∀ c from ts c', visits_all compiler c from ts c' →
     few_blocks compiler c' → order_ok compiler c → preds_ok c →
     targets_ok compiler c → stack_ok compiler entry c →
     visit_order c !! from = Some 0 →
     (∀ t, t ∈ ts → branches_to compiler from t) →
     merges_first compiler entry c → merges_first compiler entry c').
Proof.
  apply (visits_mutind compiler
    (λ c t ok c',
       few_blocks compiler c' → order_ok compiler c → preds_ok c →
       targets_ok compiler c → stack_ok compiler entry c →
       on_stack compiler entry c t →
       merges_first compiler entry c → merges_first compiler entry c')
    (λ c from ts c',
       few_blocks compiler c' → order_ok compiler c → preds_ok c →
       targets_ok compiler c → stack_ok compiler entry c →
       visit_order c !! from = Some 0 →
       (∀ t, t ∈ ts → branches_to compiler from t) →
       merges_first compiler entry c → merges_first compiler entry c')).
  - done.
  - (* first visit *)
    intros c b blk c1 Hlt Hblk Hall IH Hfew Hok Hpreds Hts Hstack Hon Hfirst.
    pose proof (order_ok_unvisited _ _ _ Hok Hlt) as Hb.
    assert (few_blocks compiler c1) as Hfew1.
    { eapply few_blocks_earlier; [| done].
      rewrite post_order_finish_block, length_app. lia. }
    assert (order_ok compiler (set_visit_order c b 0)) as Hok0
      by by eapply order_ok_mark.
    assert (preds_ok (set_visit_order c b 0)) as Hpreds0.
    { intros x Hx. apply has_later_pred_mark; [done | by apply Hpreds]. }
    assert (visit_order (set_visit_order c b 0) !! b = Some 0) as Hb0
      by (simpl; apply lookup_insert_eq).
    assert (targets_ok compiler (set_visit_order c b 0)) as Hts0.
    { intros x blk' t Hx Hblk' Ht. simpl.
      destruct (decide (b = t)) as [-> | Hne]; [by rewrite lookup_insert_eq |].
      rewrite lookup_insert_ne by done. by eapply Hts. }
    assert (∀ y, visit_order c !! y = Some 0 →
                 visit_order (set_visit_order c b 0) !! y = Some 0) as Hmark.
    { intros y Hy. simpl. rewrite lookup_insert_ne; [done |]. intros <-. congruence. }
    assert (stack_ok compiler entry (set_visit_order c b 0)) as Hstack0.
    { intros x Hx. simpl in Hx. destruct (decide (b = x)) as [<- | Hne].
      - by eapply on_stack_mono.
      - rewrite lookup_insert_ne in Hx by done.
        eapply on_stack_mono; [done |]. by apply Hstack. }
    destruct (proj2 (visits_order compiler) _ _ _ _ Hall Hfew1 Hok0 Hpreds0 Hb0)
      as (Hok1 & Hprog1 & _).
    assert (visit_order c1 !! b = Some 0) as Hb1 by by apply Hprog1.
    destruct (proj2 (visits_targets compiler) _ _ _ _ Hall) as (_ & Htargets & Hts1).
    specialize (Hts1 Hts0).
    assert (merges_first compiler entry c1) as Hfirst1.
    { apply IH; try done.
      - intros t Ht. by exists blk.
      - intros h blk' Hh Hblk' Hm Hreach.
        destruct (Hfirst h blk' Hh Hblk' Hm Hreach) as [Hmin Hlt'].
        split; [done |].
        destruct (order_ok_finished_pos _ _ _ Hok Hh) as (vh & Hvh & _).
        destruct (order_ok_finished_pos _ _ _ Hok Hmin) as (vm & Hvm & _).
        assert (b ≠ h) as Hbh by (intros Heq; rewrite Heq in Hb; congruence).
        assert (b ≠ merge_block blk') as Hbm
          by (intros Heq; rewrite Heq in Hb; congruence).
        unfold order in *. simpl. by rewrite !lookup_insert_ne by done. }
    eapply (merges_first_finish c c1); try done.
    + intros x Hx. apply Hprog1 in Hx. simpl in Hx.
      destruct (decide (b = x)) as [<- | Hne]; [by left | right].
      by rewrite lookup_insert_ne in Hx.
    + pose proof (order_ok_room _ _ _ Hok1 Hb1). destruct Hfew as [Hsz | Hsz]; [lia |].
      rewrite post_order_finish_block, length_app in Hsz. simpl in Hsz. lia.
  - done.
  - (* one guarded call, then the remaining targets *)
    intros c from t ts ok c1 c2 Hvis IH1 Hrest IH2 Hfew Hok Hpreds Hts Hstack Hfrom
      Htargets Hfirst.
    pose proof (proj2 (visits_length compiler) _ _ _ _ Hrest) as Hlen.
    assert (few_blocks compiler (if ok then add_branch from t c1 else c1)) as Hfew1'
      by by eapply few_blocks_earlier.
    assert (few_blocks compiler c1) as Hfew1
      by (unfold few_blocks in *; by rewrite post_order_branch in Hfew1').
    assert (visits_all compiler c from [t] (if ok then add_branch from t c1 else c1))
      as Hone by (econstructor; [done | constructor]).
    destruct (proj2 (visits_order compiler) _ _ _ _ Hone Hfew1' Hok Hpreds Hfrom)
      as (Hok1' & Hprog1' & Hpreds1').
    destruct (proj2 (visits_targets compiler) _ _ _ _ Hone) as (_ & _ & Hts1').
    specialize (Hts1' Hts).
    assert (merges_first compiler entry c1) as Hfirst1.
    { apply IH1; try done. econstructor; [by apply Hstack | done |].
      apply Htargets. by left. }
    apply IH2; try done.
    + intros x Hx. apply Hprog1' in Hx.
      eapply on_stack_mono; [| by apply Hstack]. intros y Hy. by apply Hprog1'.
    + by apply Hprog1'.
    + intros t' Ht'. apply Htargets. by right.
    + destruct ok; done.
Qed.

End TraversalMerges.

Lemma traversal_merges compiler func fuel c :
  headers_dominate_merges compiler (entry_block func) →
  build_post_order_visit_order compiler func fuel CFG_empty = Done c →
  Z.of_nat (length (post_order c)) < 2 ^ 31 →
  merge_finishes_first compiler c.
Proof.
  intros Hdom Hc Hsmall.
  pose proof (traversal_reachable _ _ _ _ Hc Hsmall) as Hreach.
  unfold build_post_order_visit_order in Hc. inv_bind Hc.
  destruct x as [ok c']. injection Hc as ->.
  apply post_order_visit_visits in Hx.
  assert (merges_first compiler (entry_block func) c) as Hfirst.
  { apply (proj1 (visits_merges compiler (entry_block func) Hdom) _ _ _ _ Hx);
      [by right | apply order_ok_empty | by intros x Hin; inversion Hin | | | |].
    - intros x blk t Hin. inversion Hin.
    - intros x Hx'. simpl in Hx'. by rewrite lookup_empty in Hx'.
    - constructor.
    - intros h blk Hh. inversion Hh. }
  intros h t Hh (blk & Hblk & Hm & <-) Ht.
  apply (Hfirst h blk Hh Hblk Hm). by apply Hreach.
Qed.

Lemma traversal_outcome_cases compiler func n :
  Z.of_nat (size compiler) < 2 ^ 31 → (size compiler < n)%nat →
  (∃ c, build_post_order_visit_order compiler func n CFG_empty = Done c) ∨
  (build_post_order_visit_order compiler func n CFG_empty = Thrown ∧
   leads_outside compiler (entry_block func)).
Proof.
  intros Hsmall Hn. unfold build_post_order_visit_order.
  change (post_order_visit compiler n _ (entry_block func))
    with (post_order_visit compiler n CFG_empty (entry_block func)).
  destruct (post_order_visit_outcome compiler Hsmall n CFG_empty (entry_block func))
    as [(ok & c & ->) | [-> Hout]].
  - apply order_ok_empty.
  - intros x Hx. inversion Hx.
  - simpl. rewrite map_size_empty. lia.
  - left. by eexists.
  - by right.
Qed.

Lemma constructed_merges compiler func fuel cfg :
  CFG_new compiler func fuel = Done cfg →
  Z.of_nat (length (post_order cfg)) < 2 ^ 31 →
  headers_dominate_merges compiler (entry_block func) →
  preds_finish_later cfg.
Proof.
  intros Hnew Hsmall Hdom.
  destruct (CFG_new_phases _ _ _ _ Hnew) as (c & Hc & _ & Hg).
  pose proof Hg as (_ & Hpo & _).
  assert (Z.of_nat (length (post_order c)) < 2 ^ 31) as Hsmall' by by rewrite <- Hpo.
  pose proof (traversal_traversed _ _ _ _ Hc Hsmall') as Htr.
  eapply preds_finish_later_graph_eq; [done |].
  eapply merge_finishes_first_preds; [done |].
  by eapply traversal_merges.
Qed.

(** X22. If every loop header that the branches lead to dominates its merge
    block (no branch path from the entry block reaches the merge block
    without passing through the header, which is another block), then on
    the constructed CFG every recorded predecessor of a finished block
    finished later than the block. *)
Theorem headers_dominating_merges_structured compiler func fuel cfg :
  CFG_new compiler func fuel = Done cfg →
  Z.of_nat (length (post_order cfg)) < 2 ^ 31 →
  headers_dominate_merges compiler (entry_block func) →
  preds_finish_later cfg.
Proof. apply constructed_merges. Qed.

(** X23. For a store of fewer than 2^31 blocks in which identifier 0 names
    no block, a function whose reachable blocks are all in the store and
    whose loop headers dominate their merge blocks is given a CFG: with a
    budget above twice the number of blocks the constructor returns,
    without exception or failed assertion. *)
Theorem construction_returns_structured compiler func n :
  Z.of_nat (size compiler) < 2 ^ 31 →
  compiler !! 0%N = None →
  (∀ b, rtc (branches_to compiler) (entry_block func) b → is_Some (compiler !! b)) →
  headers_dominate_merges compiler (entry_block func) →
  (2 * size compiler < n)%nat →
  ∃ cfg, CFG_new compiler func n = Done cfg.
Proof.
  intros Hsize Hzero Hin Hdom Hn.
  assert (0 < size compiler)%nat as Hpos.
  { destruct (Hin (entry_block func)) as [blk Hblk]; [done |].
    destruct (decide (size compiler = 0%nat)) as [He | ?]; [| lia].
    apply map_size_empty_inv in He. rewrite He, lookup_empty in Hblk. done. }
  destruct (traversal_outcome_cases compiler func n Hsize) as [[c Hc] | [_ Hout]];
    [lia | |].
  2:{ destruct Hout as (x & Hx & Hnone). destruct (Hin x Hx). congruence. }
  unfold CFG_new. rewrite Hc. simpl.
  pose proof (traversal_traversed_store _ _ _ _ Hc Hsize) as Htr.
  pose proof (finished_bounded _ _ (tr_order _ _ _ Htr)) as Hlen.
  pose proof (traversal_merges _ _ _ _ Hdom Hc (tr_small _ _ _ Htr)) as Hfirst.
  destruct func as [entry]. simpl in *.
  pose proof (merge_finishes_first_preds _ _ _ Htr Hfirst) as Hlater.
  pose proof (build_immediate_dominators_returns compiler entry Hzero n c Htr Hlater)
    as Hret.
  destruct (build_immediate_dominators _ n c) as [cfg | | |];
    simpl in Hret; [by exists cfg | done | done | lia].
Qed.

Lemma dowhile_avoiding_header x : reach_avoiding dowhile_blocks 1 2 x → x = 1%N.
Proof.
  induction 1 as [| y x _ -> (blk & Hblk & Ht) Hne]; [done |].
  vm_compute in Hblk. injection Hblk as <-.
  apply list_elem_of_In in Ht. vm_compute in Ht. destruct Ht as [<- | []]. done.
Qed.

Lemma dowhile_headers_dominate_merges : headers_dominate_merges dowhile_blocks 1.
Proof.
  intros h blk _ Hblk Hm.
  apply elem_of_map_to_list, list_elem_of_In in Hblk. vm_compute in Hblk.
  destruct Hblk as [[= <- <-] | [[= <- <-] | [[= <- <-] | [[= <- <-] | []]]]];
    try discriminate Hm.
  split; [done |]. intros Hra. apply dowhile_avoiding_header in Hra. done.
Qed.

Lemma dowhile_reachable_in_store b :
  rtc (branches_to dowhile_blocks) 1%N b → is_Some (dowhile_blocks !! b).
Proof.
  revert b. apply rtc_ind_r; [by eexists |].
  intros y x _ (blk & Hblk & Ht) _.
  apply elem_of_map_to_list, list_elem_of_In in Hblk. vm_compute in Hblk.
  destruct Hblk as [[= <- <-] | [[= <- <-] | [[= <- <-] | [[= <- <-] | []]]]];
    apply list_elem_of_In in Ht; vm_compute in Ht;
    repeat (destruct Ht as [<- | Ht]; [vm_compute; by eexists |]); destruct Ht.
Qed.

Lemma headers_dominating_merges_structured_witness :
  headers_dominate_merges dowhile_blocks 1 ∧ preds_finish_later dowhile_cfg.
Proof.
  split; [apply dowhile_headers_dominate_merges |].
  apply (headers_dominating_merges_structured dowhile_blocks dowhile_func 8);
    [vm_compute; reflexivity | vm_compute; reflexivity
    | apply dowhile_headers_dominate_merges].
Defined.

Lemma construction_returns_structured_witness :
  ∃ cfg, CFG_new dowhile_blocks dowhile_func 9 = Done cfg.
Proof.
  apply (construction_returns_structured dowhile_blocks dowhile_func 9);
    [vm_compute; reflexivity | vm_compute; reflexivity
    | apply dowhile_reachable_in_store | apply dowhile_headers_dominate_merges
    | vm_compute; lia].
Defined.

(** ** Calls that cannot fail, and the smallest function *)

Section NoFailure.

Variable compiler : gmap N SPIRBlock.
Variable entry : N.
Variable c : CFG.
Hypothesis Htr : traversed compiler entry c.

Lemma find_loop_dominator_no_failure n b :
  no_failure (find_loop_dominator compiler n c b).
Proof.
  revert b. induction n as [|n IH]; intros b; cbn [find_loop_dominator];
    case_bool_decide as Hb0; try done.
  destruct (preceding_edges c !! b) as [[|front rest]|] eqn:Hpreds; try done.
  assert (∀ p, p ∈ front :: rest → p ∈ post_order c) as Hps.
  { intros p Hp. eapply finished_pred; [done |].
    unfold get_preceding_edges. by rewrite Hpreds. }
  destruct (scan_predecessors_returns compiler b (front :: rest))
    as (found & ig & -> & Hfound).
  { intros p Hp. eapply finished_block; [done |]. by apply Hps. }
  cbn [mbind outcome_bind].
  set (next := if bool_decide (found = 0%N) then front else found).
  assert (next ∈ front :: rest) as Hnext.
  { unfold next. case_bool_decide; [by left |]. by destruct Hfound. }
  destruct (negb ig && bool_decide (next ≠ 0%N)); [| apply IH].
  destruct (finished_block _ _ _ Htr next (Hps next Hnext)) as [blk Hblk].
  unfold get_SPIRBlock. rewrite Hblk. cbn [mbind outcome_bind].
  case_bool_decide; [done | apply IH].
Qed.

Hypothesis Hzero : compiler !! 0%N = None.
Hypothesis Hio : idoms_ok entry 0 c.

Lemma idoms_ok_step b :
  b ∈ post_order c → get_immediate_dominator c b ∈ post_order c.
Proof.
  intros Hb. destruct (finished_order _ _ _ Htr b Hb) as [_ Hr].
  destruct (io_done _ _ _ Hio b Hb) as (d & Hd & Hdin & _); [lia |].
  unfold get_immediate_dominator. by rewrite Hd.
Qed.

Lemma find_common_dominator_no_failure n a b :
  a ∈ post_order c → b ∈ post_order c →
  match find_common_dominator n c a b with
  | Done r => r ∈ post_order c
  | OutOfFuel => True
  | _ => False
  end.
Proof.
  revert a b. induction n as [|n IH]; intros a b Ha Hb; simpl;
    case_bool_decide; try done.
  rewrite (get_visit_order_finished _ _ _ Htr a Ha),
          (get_visit_order_finished _ _ _ Htr b Hb). simpl.
  destruct (order c a <? order c b); apply IH; auto using idoms_ok_step.
Qed.

Lemma add_block_no_failure n d b :
  dominator d = 0%N ∨ dominator d ∈ post_order c →
  match add_block n c d b with
  | Done d' =>
      (dominator d' = 0%N ∨ dominator d' ∈ post_order c) ∧
      (dominator d ≠ 0%N → rtc (idom_step c) (dominator d) (dominator d')) ∧
      (b ∈ post_order c → rtc (idom_step c) b (dominator d'))
  | OutOfFuel => True
  | _ => False
  end.
Proof.
  intros Hd. unfold add_block. case_bool_decide as Hb.
  { split_and!; [done | done |]. intros Hfin.
    pose proof (idoms_ok_step b Hfin) as Hstep. rewrite Hb in Hstep.
    by destruct (finished_nonzero _ _ _ Htr _ Hzero Hstep). }
  assert (b ∈ post_order c) as Hfin.
  { unfold get_immediate_dominator in Hb.
    destruct (immediate_dominators c !! b) as [x|] eqn:Hx; [| done].
    destruct (io_keys _ _ _ Hio b) as [-> | Hpos]; [by rewrite Hx | |].
    - apply (order_entry _ _ _ Htr).
    - by eapply order_positive_finished. }
  case_bool_decide as Hd0.
  { simpl. split_and!; [by right | done | done]. }
  destruct Hd as [? | Hdin]; [done |].
  case_bool_decide as Hne.
  - pose proof (find_common_dominator_no_failure n b (dominator d) Hfin Hdin) as Hr.
    destruct (find_common_dominator n c b (dominator d)) as [r | | |] eqn:Hfcd;
      try done.
    destruct (find_common_dominator_chain _ _ _ _ _ Hfcd) as [Hbr Hdr].
    simpl. split_and!; [by right | done | done].
  - split_and!; [by right | done |]. intros _. by rewrite Hne.
Qed.

Lemma add_blocks_no_failure n bs :
  ∀ d, dominator d = 0%N ∨ dominator d ∈ post_order c →
  match add_blocks n c d bs with
  | Done d' =>
      (dominator d' = 0%N ∨ dominator d' ∈ post_order c) ∧
      (dominator d ≠ 0%N → rtc (idom_step c) (dominator d) (dominator d')) ∧
      (∀ b, b ∈ bs → b ∈ post_order c → rtc (idom_step c) b (dominator d'))
  | OutOfFuel => True
  | _ => False
  end.
Proof.
  induction bs as [|b bs IH]; intros d Hd; simpl.
  { split_and!; [done | done |]. intros b Hb. inversion Hb. }
  pose proof (add_block_no_failure n d b Hd) as H1.
  destruct (add_block n c d b) as [d1 | | |]; try done. simpl.
  destruct H1 as (Hd1 & Hchain & Hb).
  specialize (IH d1 Hd1). destruct (add_blocks n c d1 bs) as [d2 | | |]; try done.
  destruct IH as (Hd2 & Hchain2 & Hbs).
  assert (dominator d1 = 0%N → ∀ x, x ∈ post_order c →
            rtc (idom_step c) x (dominator d1) → False) as Hnz.
  { intros H0 x Hx Hrtc. rewrite H0 in Hrtc.
    assert (0%N ∈ post_order c); [| by eapply finished_nonzero].
    clear -Hrtc Hx Htr Hio. remember 0%N as z.
    induction Hrtc as [| x y z Hstep _ IHr]; [by subst |].
    unfold idom_step in Hstep. subst y. apply IHr; [| done]. by apply idoms_ok_step. }
  split_and!; [done | |].
  - intros Hdn. etrans; [by apply Hchain | apply Hchain2].
    intros H0. destruct Hd as [? | Hdin]; [done |]. eapply Hnz; [done.. |]. by apply Hchain.
  - intros x [-> | Hx]%elem_of_cons Hfin; [| by apply Hbs].
    etrans; [by apply Hb | apply Hchain2]. intros H0. eapply Hnz; [done.. |]. by apply Hb.
Qed.

End NoFailure.

(** X24. On a constructed CFG [find_loop_dominator] raises neither the
    exception of [Compiler::get] nor an assertion, for any block identifier
    and any budget: every recorded predecessor is a block of the store. *)
Theorem find_loop_dominator_never_fails compiler func fuel cfg :
  CFG_new compiler func fuel = Done cfg →
  Z.of_nat (length (post_order cfg)) < 2 ^ 31 →
  ∀ n b, find_loop_dominator compiler n cfg b ≠ Thrown ∧
         find_loop_dominator compiler n cfg b ≠ AssertionFailed.
Proof.
  intros Hnew Hsmall n b.
  pose proof (constructed_traversed _ _ _ _ Hnew Hsmall) as Htr.
  pose proof (find_loop_dominator_no_failure compiler _ cfg Htr n b) as Hno.
  by destruct (find_loop_dominator compiler n cfg b).
Qed.

Lemma find_loop_dominator_never_fails_witness :
  find_loop_dominator selfloop_blocks 5 selfloop_cfg 1 ≠ Thrown ∧
  find_loop_dominator selfloop_blocks 5 selfloop_cfg 1 ≠ AssertionFailed.
Proof.
  apply (find_loop_dominator_never_fails selfloop_blocks selfloop_func 8 selfloop_cfg);
    vm_compute; reflexivity.
Defined.

(** X25. On a constructed CFG, whatever its shape, a sequence of
    [add_block] calls on a new builder fails no assertion; when it returns,
    the dominator is 0 or a finished block, and it lies on the chain of
    immediate dominators of every added block that the traversal
    reached. *)
Theorem add_blocks_never_fail compiler func fuel cfg :
  CFG_new compiler func fuel = Done cfg →
  Z.of_nat (length (post_order cfg)) < 2 ^ 31 →
  compiler !! 0%N = None →
  ∀ n bs,
    add_blocks n cfg DominatorBuilder_new bs ≠ Thrown ∧
    add_blocks n cfg DominatorBuilder_new bs ≠ AssertionFailed ∧
    ∀ d, add_blocks n cfg DominatorBuilder_new bs = Done d →
         (dominator d = 0%N ∨ dominator d ∈ post_order cfg) ∧
         ∀ b, b ∈ bs → b ∈ post_order cfg → rtc (idom_step cfg) b (dominator d).
Proof.
  intros Hnew Hsmall Hzero n bs.
  pose proof (constructed_traversed _ _ _ _ Hnew Hsmall) as Htr.
  pose proof (constructed_idoms _ _ _ _ Hnew Hsmall Hzero) as Hio.
  pose proof (add_blocks_no_failure compiler _ cfg Htr Hzero Hio n bs
                DominatorBuilder_new (or_introl eq_refl)) as Hno.
  destruct (add_blocks n cfg DominatorBuilder_new bs) as [d | | |]; try done.
  split_and!; [done | done |]. intros d' [= <-]. by destruct Hno as (? & _ & ?).
Qed.

Lemma add_blocks_never_fail_witness :
  add_blocks 5 selfloop_cfg DominatorBuilder_new [1%N; 7%N; 1%N] ≠ Thrown ∧
  add_blocks 5 selfloop_cfg DominatorBuilder_new [1%N; 7%N; 1%N] ≠ AssertionFailed ∧
  ∀ d, add_blocks 5 selfloop_cfg DominatorBuilder_new [1%N; 7%N; 1%N] = Done d →
       (dominator d = 0%N ∨ dominator d ∈ post_order selfloop_cfg) ∧
       ∀ b, b ∈ [1%N; 7%N; 1%N] → b ∈ post_order selfloop_cfg →
            rtc (idom_step selfloop_cfg) b (dominator d).
Proof.
  apply (add_blocks_never_fail selfloop_blocks selfloop_func 8 selfloop_cfg);
    vm_compute; reflexivity.
Defined.

Lemma visit_targets_none visit from blk c :
  branch_targets blk = [] → visit_targets visit from blk c = Done c.
Proof.
  unfold branch_targets, visit_targets. destruct (terminator blk); try done.
  intros [Hcases Hdef]%app_eq_nil. apply map_eq_nil in Hcases. rewrite Hcases. simpl.
  by case_bool_decide.
Qed.

(** X26. A function whose entry block has no branch target and is no loop
    header is given, with any budget, the CFG of one block: the entry block
    has visit order 1 and is its own immediate dominator, and no edge is
    recorded. *)
Theorem single_block_function compiler func blk n :
  compiler !! entry_block func = Some blk →
  branch_targets blk = [] → merge blk ≠ MergeLoop →
  ∃ cfg, CFG_new compiler func (S n) = Done cfg ∧
         post_order cfg = [entry_block func] ∧
         visit_order cfg = {[ entry_block func := 1 ]} ∧
         immediate_dominators cfg = {[ entry_block func := entry_block func ]} ∧
         ∀ b, get_succeeding_edges cfg b = [] ∧ get_preceding_edges cfg b = [].
Proof.
  intros Hblk Hts Hm. eexists. split.
  - unfold CFG_new. rewrite build_post_order_visit_order_fresh.
    erewrite post_order_visit_unvisited; [| apply lookup_empty | done].
    rewrite visit_targets_none by done. simpl.
    unfold build_immediate_dominators, finish_block. destruct (merge blk) eqn:Hmerge;
      [| done |]; simpl; unfold dominate_block; simpl; rewrite lookup_empty; simpl;
      reflexivity.
  - simpl. split_and!; try done.
    + by rewrite insert_insert_eq.
    + intros b. unfold get_succeeding_edges, get_preceding_edges. simpl.
      rewrite lookup_empty. split; [done |].
      destruct (decide (entry_block func = b)) as [-> | Hne].
      * by rewrite lookup_insert_eq.
      * by rewrite lookup_insert_ne, lookup_empty.
Qed.

Lemma single_block_function_witness :
  ∃ cfg, CFG_new chain_blocks {| entry_block := 3%N |} (S 0) = Done cfg ∧
         post_order cfg = [3%N] ∧
         visit_order cfg = {[ 3%N := 1 ]} ∧
         immediate_dominators cfg = {[ 3%N := 3%N ]} ∧
         ∀ b, get_succeeding_edges cfg b = [] ∧ get_preceding_edges cfg b = [].
Proof.
  apply (single_block_function chain_blocks {| entry_block := 3%N |}
           (mk_block Return MergeNone 0 0 0 0) 0);
    [vm_compute; reflexivity | reflexivity | discriminate].
Defined.

(** ** Dominance in the program *)

Lemma reach_avoiding_reachable compiler entry d x :
  reach_avoiding compiler entry d x → rtc (branches_to compiler) entry x.
Proof. induction 1 as [| y x _ IH Hyx _]; [done |]. by eapply rtc_r. Qed.

Section BranchDominance.

Variable compiler : gmap N SPIRBlock.
Variable entry : N.
Variable c : CFG.
Hypothesis Hfinished : ∀ b, rtc (branches_to compiler) entry b → b ∈ post_order c.
Hypothesis Hback : back_edges_to_dominators compiler entry c.

(** A block reached in the program without passing through [d] is also
    reached along the recorded edges without passing through [d], and so
    are the blocks that dominate it. *)
Lemma reach_avoiding_recorded d x :
  reach_avoiding compiler entry d x →
  recorded_avoiding c entry d x ∧
  ∀ b, branch_dominates compiler entry b x → recorded_avoiding c entry d b.
Proof.
  induction 1 as [Hed | y x Hy [IH1 IH2] Hyx Hxd].
  - assert (recorded_avoiding c entry d entry) as Hq.
    { exists [entry]. split; [constructor |]. by intros ->%list_elem_of_singleton. }
    split; [done |]. intros b [-> | Hb]; [done |].
    destruct (decide (entry = b)) as [<- | Hne]; [done |].
    destruct Hb. by constructor.
  - assert (recorded_avoiding c entry d x) as Hq.
    { destruct (decide (x ∈ get_succeeding_edges c y)) as [Hrec | Hrec].
      - destruct IH1 as (l & Hl & Hdl). exists (l ++ [x]). split; [by econstructor |].
        intros [? | ->%list_elem_of_singleton]%elem_of_app; done.
      - apply IH2. apply Hback; [| done..].
        by eapply Hfinished, reach_avoiding_reachable. }
    split; [done |]. intros b Hb.
    destruct (decide (b = x)) as [-> | Hbx]; [done |].
    destruct Hb as [? | Hb]; [done |]. apply IH2.
    destruct (decide (b = y)) as [-> | Hby]; [by left | right].
    intros Hra. destruct Hb. by econstructor.
Qed.

Lemma dominates_branch_dominates d b :
  dominates c entry d b → branch_dominates compiler entry d b.
Proof.
  intros Hdom. destruct (decide (d = b)) as [-> | Hne]; [by left | right].
  intros Hra. destruct (reach_avoiding_recorded d b Hra) as [(l & Hl & Hdl) _].
  destruct Hdl. by apply Hdom.
Qed.

End BranchDominance.

(** X27. Take a constructed CFG of a function whose loop headers dominate
    their merge blocks and whose unrecorded branches, the back edges, lead
    to dominators of their source.  Then every block on the chain of
    immediate dominators of a finished block [b] dominates [b] in the
    program itself: no path of branches from the entry block reaches [b]
    without passing through it. *)
Theorem dominator_chain_dominates_branches compiler func fuel cfg :
  CFG_new compiler func fuel = Done cfg →
  Z.of_nat (length (post_order cfg)) < 2 ^ 31 →
  compiler !! 0%N = None →
  headers_dominate_merges compiler (entry_block func) →
  back_edges_to_dominators compiler (entry_block func) cfg →
  ∀ b d, b ∈ post_order cfg → rtc (idom_step cfg) b d →
         branch_dominates compiler (entry_block func) d b.
Proof.
  intros Hnew Hsmall Hzero Hdom Hback b d Hb Hchain.
  pose proof (constructed_merges _ _ _ _ Hnew Hsmall Hdom) as Hlater.
  eapply dominates_branch_dominates; [| done |].
  - intros x Hx. by apply (constructed_reachable _ _ _ _ Hnew Hsmall).
  - by apply (tree_chain_dominates _ _ _ _ Hnew Hsmall Hzero Hlater).
Qed.

(** X28. Under the same conditions a sequence of [add_block] calls on a
    new builder returns, [lift_continue_block_dominator] returns on its
    result, and the dominator before and after the lift dominates, in the
    program itself, every added block that the traversal reached. *)
Theorem builder_dominator_dominates_branches compiler func fuel cfg n bs :
  CFG_new compiler func fuel = Done cfg →
  Z.of_nat (length (post_order cfg)) < 2 ^ 31 →
  compiler !! 0%N = None →
  headers_dominate_merges compiler (entry_block func) →
  back_edges_to_dominators compiler (entry_block func) cfg →
  (2 * length (post_order cfg) ≤ n)%nat →
  ∃ d d', add_blocks n cfg DominatorBuilder_new bs = Done d ∧
          lift_continue_block_dominator compiler func cfg d = Done d' ∧
          ∀ b, b ∈ bs → b ∈ post_order cfg →
               branch_dominates compiler (entry_block func) (dominator d) b ∧
               branch_dominates compiler (entry_block func) (dominator d') b.
Proof.
  intros Hnew Hsmall Hzero Hdom Hback Hn.
  pose proof (constructed_merges _ _ _ _ Hnew Hsmall Hdom) as Hlater.
  pose proof (constructed_traversed _ _ _ _ Hnew Hsmall) as Htr.
  assert (∀ x, rtc (branches_to compiler) (entry_block func) x → x ∈ post_order cfg)
    as Hfin by (intros x Hx; by apply (constructed_reachable _ _ _ _ Hnew Hsmall)).
  destruct (add_blocks_returns _ _ _ _ Hnew Hsmall Hzero Hlater n bs Hn) as (d & Hd & Hh).
  apply builder_holds_filter in Hh as [Hnone Hsome].
  destruct (decide (Exists (λ b, b ∈ post_order cfg) bs)) as [Hex | Hnex].
  - apply Exists_exists in Hex as (b0 & Hb0 & Hfin0).
    destruct Hsome as [Hdin [Hcommon _]]; [by exists b0 |].
    destruct (lift_continue_block_dominator_returns compiler func fuel cfg d
                Hnew Hsmall Hdin) as [d' Hd'].
    exists d, d'. split_and!; [done | done |]. intros b Hb Hbfin.
    assert (rtc (idom_step cfg) b (dominator d)) as Hbd
      by (apply Hcommon; by apply list_elem_of_filter).
    assert (∀ z, rtc (idom_step cfg) b z →
                 branch_dominates compiler (entry_block func) z b) as Hreal.
    { intros z Hz. eapply dominates_branch_dominates; [done | done |].
      by apply (tree_chain_dominates _ _ _ _ Hnew Hsmall Hzero Hlater). }
    split; [by apply Hreal |]. apply Hreal.
    destruct (lift_continue_block_dominator_result _ _ _ _ _ Hd') as [-> | ->]; [done |].
    simpl. eapply tree_rooted; [done | | done]. by eapply tree_strict.
  - exists d, d. split_and!; [done | |].
    + unfold lift_continue_block_dominator. rewrite bool_decide_eq_true_2; [done |].
      apply Hnone. intros b Hb Hbfin. apply Hnex, Exists_exists. by exists b.
    + intros b Hb Hbfin. destruct Hnex. apply Exists_exists. by exists b.
Qed.

Lemma dowhile_back_edges_to_dominators :
  back_edges_to_dominators dowhile_blocks 1 dowhile_cfg.
Proof.
  intros f t Hf (blk & Hblk & Ht) Hnot.
  apply list_elem_of_In in Hf. vm_compute in Hf.
  destruct Hf as [<- | [<- | [<- | [<- | []]]]];
    vm_compute in Hblk; injection Hblk as <-;
    apply list_elem_of_In in Ht; vm_compute in Ht;
    repeat (destruct Ht as [<- | Ht];
            [try (destruct Hnot; apply list_elem_of_In; vm_compute; tauto) |]);
    try destruct Ht.
  right. intros Hra. by apply dowhile_avoiding_header in Hra.
Qed.

Lemma dominator_chain_dominates_branches_witness :
  branch_dominates dowhile_blocks 1 2 4.
Proof.
  apply (dominator_chain_dominates_branches dowhile_blocks dowhile_func 8 dowhile_cfg);
    [vm_compute; reflexivity | vm_compute; reflexivity | vm_compute; reflexivity
    | apply dowhile_headers_dominate_merges | apply dowhile_back_edges_to_dominators
    | apply list_elem_of_In; vm_compute; tauto |].
  eapply rtc_l; [reflexivity |]. vm_compute. reflexivity.
Defined.

Lemma builder_dominator_dominates_branches_witness :
  ∃ d d', add_blocks 8 dowhile_cfg DominatorBuilder_new [3%N; 4%N] = Done d ∧
          lift_continue_block_dominator dowhile_blocks dowhile_func dowhile_cfg d
            = Done d' ∧
          ∀ b, b ∈ [3%N; 4%N] → b ∈ post_order dowhile_cfg →
               branch_dominates dowhile_blocks 1 (dominator d) b ∧
               branch_dominates dowhile_blocks 1 (dominator d') b.
Proof.
  apply (builder_dominator_dominates_branches dowhile_blocks dowhile_func 8);
    [vm_compute; reflexivity | vm_compute; reflexivity | vm_compute; reflexivity
    | apply dowhile_headers_dominate_merges | apply dowhile_back_edges_to_dominators
    | vm_compute; lia].
Defined.

(** ** The blocks the construction reads, and associativity *)

Section Locality.

Variables compiler compiler' : gmap N SPIRBlock.

Lemma branch_to_agree visit visit' from t c :
  (∀ c, visit' c t = visit c t) →
  branch_to visit' from t c = branch_to visit from t c.
Proof. intros Hv. unfold branch_to. by rewrite Hv. Qed.

Lemma visit_cases_agree visit visit' from cs c :
  (∀ t c, t ∈ map block cs → visit' c t = visit c t) →
  visit_cases visit' from cs c = visit_cases visit from cs c.
Proof.
  revert c. induction cs as [|target cs IH]; intros c Hv; simpl; [done |].
  rewrite (branch_to_agree visit visit') by (intros c'; apply Hv; by left).
  destruct (branch_to visit from (block target) c) as [c1 | | |]; simpl; try done.
  apply IH. intros t c' Ht. apply Hv. by right.
Qed.

Lemma visit_targets_agree visit visit' from blk c :
  (∀ t c, t ∈ branch_targets blk → visit' c t = visit c t) →
  visit_targets visit' from blk c = visit_targets visit from blk c.
Proof.
  unfold visit_targets, branch_targets. intros Hv. destruct (terminator blk).
  - apply branch_to_agree. intros c'. apply Hv. by left.
  - rewrite (branch_to_agree visit visit') by (intros c'; apply Hv; by left).
    destruct (branch_to visit from (true_block blk) c) as [c1 | | |]; simpl; try done.
    apply branch_to_agree. intros c'. apply Hv. right. by left.
  - rewrite (visit_cases_agree visit visit')
      by (intros t c' Ht; apply Hv, elem_of_app; by left).
    destruct (visit_cases visit from (cases blk) c) as [c1 | | |]; simpl; try done.
    case_bool_decide; [| done]. apply branch_to_agree. intros c'.
    apply Hv, elem_of_app. right. by left.
  - done.
  - done.
Qed.

Lemma post_order_visit_agree n :
  ∀ c b, agree_from compiler compiler' b →
         post_order_visit compiler' n c b = post_order_visit compiler n c b.
Proof.
  induction n as [|n IH]; intros c b Hagree; [done |]. simpl.
  destruct (0 <=? default (-1) (visit_order c !! b)); [done |].
  unfold get_SPIRBlock. rewrite (Hagree b) by done.
  destruct (compiler !! b) as [blk|] eqn:Hblk; [| done]. simpl.
  rewrite (visit_targets_agree (post_order_visit compiler n)
             (post_order_visit compiler' n)); [done |].
  intros t c' Ht. apply IH. intros x Hx. apply Hagree.
  eapply rtc_l; [| done]. by exists blk.
Qed.

End Locality.

(** X29. The construction reads only the blocks that the branches lead to
    from the entry block: two stores that hold the same blocks under those
    identifiers give the same outcome, the same CFG or the same failure,
    with every budget. *)
Theorem construction_reads_reachable_blocks compiler compiler' func n :
  (∀ x, rtc (branches_to compiler) (entry_block func) x →
        compiler' !! x = compiler !! x) →
  CFG_new compiler' func n = CFG_new compiler func n.
Proof.
  intros Hagree. unfold CFG_new, build_post_order_visit_order.
  by rewrite (post_order_visit_agree compiler compiler' n _ _ Hagree).
Qed.

Lemma construction_reads_reachable_blocks_witness :
  CFG_new (<[9%N := mk_block Direct MergeLoop 1 1 0 0]> dowhile_blocks) dowhile_func 8
  = CFG_new dowhile_blocks dowhile_func 8.
Proof.
  apply (construction_reads_reachable_blocks dowhile_blocks).
  intros x Hx. apply dowhile_reachable_in_store in Hx as [blk Hblk].
  rewrite lookup_insert_ne; [done |]. intros <-. vm_compute in Hblk. discriminate.
Defined.

(** X30. On a constructed CFG whose predecessors finish later,
    [find_common_dominator] is associative on finished blocks: the common
    dominator of three blocks does not depend on the pair taken first. *)
Theorem find_common_dominator_associative compiler func fuel cfg n a b c :
  CFG_new compiler func fuel = Done cfg →
  Z.of_nat (length (post_order cfg)) < 2 ^ 31 →
  compiler !! 0%N = None →
  preds_finish_later cfg →
  a ∈ post_order cfg → b ∈ post_order cfg → c ∈ post_order cfg →
  (2 * length (post_order cfg) ≤ n)%nat →
  ∃ ab bc r, find_common_dominator n cfg a b = Done ab ∧
             find_common_dominator n cfg b c = Done bc ∧
             find_common_dominator n cfg ab c = Done r ∧
             find_common_dominator n cfg a bc = Done r.
Proof.
  intros Hnew Hsmall Hzero Hlater Ha Hb Hc Hn.
  pose proof (tree_traversed _ _ _ _ Hnew Hsmall) as Htr.
  pose proof (tree_strict _ _ _ _ Hnew Hsmall Hzero Hlater) as Hio.
  destruct (find_common_dominator_total _ _ _ Htr Hio n a b Ha Hb Hn)
    as (ab & Hab & Habin & Hab1 & Hab2).
  destruct (find_common_dominator_total _ _ _ Htr Hio n b c Hb Hc Hn)
    as (bc & Hbc & Hbcin & Hbc1 & Hbc2).
  destruct (find_common_dominator_total _ _ _ Htr Hio n ab c Habin Hc Hn)
    as (r & Hr & Hrin & Hr1 & Hr2).
  destruct (find_common_dominator_total _ _ _ Htr Hio n a bc Ha Hbcin Hn)
    as (r' & Hr' & Hrin' & Hr1' & Hr2').
  exists ab, bc, r. split_and!; [done.. |].
  rewrite Hr'. f_equal. symmetry.
  eapply (tree_antisym compiler (entry_block func) cfg); [done | done | done | |].
  - apply Hr2. intros x [-> | [-> | Hx]%elem_of_cons]%elem_of_cons; [| | inversion Hx].
    + apply Hab2. intros y [-> | [-> | Hy]%elem_of_cons]%elem_of_cons; [| | inversion Hy].
      * apply Hr1'. by left.
      * etrans; [apply Hbc1; by left |]. apply Hr1'. right. by left.
    + etrans; [apply Hbc1; right; by left |]. apply Hr1'. right. by left.
  - apply Hr2'. intros x [-> | [-> | Hx]%elem_of_cons]%elem_of_cons; [| | inversion Hx].
    + etrans; [apply Hab1; by left |]. apply Hr1. by left.
    + apply Hbc2. intros y [-> | [-> | Hy]%elem_of_cons]%elem_of_cons; [| | inversion Hy].
      * etrans; [apply Hab1; right; by left |]. apply Hr1. by left.
      * apply Hr1. right. by left.
Qed.

Lemma find_common_dominator_associative_witness :
  ∃ ab bc r, find_common_dominator 8 dowhile_cfg 3 4 = Done ab ∧
             find_common_dominator 8 dowhile_cfg 4 2 = Done bc ∧
             find_common_dominator 8 dowhile_cfg ab 2 = Done r ∧
             find_common_dominator 8 dowhile_cfg 3 bc = Done r.
Proof.
  apply (find_common_dominator_associative dowhile_blocks dowhile_func 8);
    [vm_compute; reflexivity | vm_compute; reflexivity | vm_compute; reflexivity
    | apply dowhile_preds_finish_later | apply list_elem_of_In; vm_compute; tauto
    | apply list_elem_of_In; vm_compute; tauto
    | apply list_elem_of_In; vm_compute; tauto | vm_compute; lia].
Defined.

(** * The merge block of a loop is dominated by the header *)

Lemma recorded_flow_avoiding compiler c entry h l x :
  edges_real compiler c → path c entry l x → h ∉ l →
  flow_avoiding compiler entry h x.
Proof.
  intros Hreal. induction 1 as [| l y z _ IH Hz]; intros Hh.
  - constructor. intros <-. apply Hh. by left.
  - apply (fa_step _ _ _ y).
    + apply IH. intros Hin. apply Hh, elem_of_app. by left.
    + by apply Hreal.
    + intros ->. apply Hh, elem_of_app. right. by left.
Qed.

Lemma flow_dominates_dominates compiler c entry h b :
  edges_real compiler c → flow_dominates compiler entry h b → dominates c entry h b.
Proof.
  intros Hreal [-> | Hna] l Hl.
  - by apply path_source in Hl as [_ ?].
  - destruct (decide (h ∈ l)) as [? | Hnot]; [done |].
    destruct Hna. by eapply recorded_flow_avoiding.
Qed.

(** The constructor returns for a function whose reachable blocks are in
    the store and whose loop headers dominate their merge blocks. *)
Lemma CFG_new_structured compiler func n :
  Z.of_nat (size compiler) < 2 ^ 31 →
  compiler !! 0%N = None →
  (∀ b, rtc (branches_to compiler) (entry_block func) b → is_Some (compiler !! b)) →
  headers_dominate_merges compiler (entry_block func) →
  (2 * size compiler < n)%nat →
  ∃ cfg, CFG_new compiler func n = Done cfg ∧
         Z.of_nat (length (post_order cfg)) < 2 ^ 31 ∧
         preds_finish_later cfg.
Proof.
  intros Hsize Hzero Hin Hdom Hn.
  assert (0 < size compiler)%nat as Hpos.
  { destruct (Hin (entry_block func)) as [blk Hblk]; [done |].
    destruct (decide (size compiler = 0%nat)) as [He | ?]; [| lia].
    apply map_size_empty_inv in He. rewrite He, lookup_empty in Hblk. done. }
  destruct (traversal_outcome_cases compiler func n Hsize) as [[c Hc] | [_ Hout]];
    [lia | |].
  2:{ destruct Hout as (x & Hx & Hnone). destruct (Hin x Hx). congruence. }
  pose proof (traversal_traversed_store _ _ _ _ Hc Hsize) as Htr.
  pose proof (finished_bounded _ _ (tr_order _ _ _ Htr)) as Hlen.
  pose proof (traversal_merges _ _ _ _ Hdom Hc (tr_small _ _ _ Htr)) as Hfirst.
  assert (∃ cfg, CFG_new compiler func n = Done cfg) as [cfg Hnew].
  { unfold CFG_new. rewrite Hc. simpl. destruct func as [entry]. simpl in *.
    pose proof (merge_finishes_first_preds _ _ _ Htr Hfirst) as Hlater.
    pose proof (build_immediate_dominators_returns compiler entry Hzero n c Htr Hlater)
      as Hret.
    destruct (build_immediate_dominators _ n c) as [cfg | | |];
      simpl in Hret; [by exists cfg | done | done | lia]. }
  exists cfg. split; [done |].
  assert (Z.of_nat (length (post_order cfg)) < 2 ^ 31) as Hsmall.
  { destruct (CFG_new_phases _ _ _ _ Hnew) as (c' & Hc' & _ & _ & -> & _).
    rewrite Hc in Hc'. injection Hc' as <-. lia. }
  split; [done |]. by eapply constructed_merges.
Qed.

(** C2. Take a function whose reachable blocks are in the store and whose
    loop headers dominate their merge blocks, a loop header [H] that the
    branches lead to, and its merge block, which the branches lead to as
    well.  If the merge block is entered from the loop only (every block
    with an edge to it, a branch or the implied edge of a loop header, is
    [H] or is reached from the entry block only through [H]), then the
    construction completes and the immediate dominator of the merge block
    is [H], whatever the body of the loop is and whether or not the
    terminator of [H] branches to the merge block.  The implied edge from
    [H] to the merge block is recorded, and no edge from a block that [H]
    dominates back to [H] is: the back edge of the last block of the body
    is left out. *)
Theorem dowhile_merge_dominated_by_header compiler func H bH n :
  Z.of_nat (size compiler) < 2 ^ 31 →
  compiler !! 0%N = None →
  (∀ b, rtc (branches_to compiler) (entry_block func) b → is_Some (compiler !! b)) →
  headers_dominate_merges compiler (entry_block func) →
  rtc (branches_to compiler) (entry_block func) H →
  compiler !! H = Some bH → merge bH = MergeLoop →
  rtc (branches_to compiler) (entry_block func) (merge_block bH) →
  (∀ p, flows_to compiler p (merge_block bH) →
        flow_dominates compiler (entry_block func) H p) →
  (2 * size compiler < n)%nat →
  ∃ cfg, CFG_new compiler func n = Done cfg ∧
         get_immediate_dominator cfg (merge_block bH) = H ∧
         merge_block bH ∈ get_succeeding_edges cfg H ∧
         ∀ l, flow_dominates compiler (entry_block func) H l →
              H ∉ get_succeeding_edges cfg l.
Proof.
  intros Hsize Hzero Hin Hdom HH HbH Hloop HM Hexits Hn.
  destruct (CFG_new_structured compiler func n Hsize Hzero Hin Hdom Hn)
    as (cfg & Hnew & Hsmall & Hlater).
  exists cfg. split; [done |].
  pose proof (tree_traversed _ _ _ _ Hnew Hsmall) as Htr.
  pose proof (tree_strict _ _ _ _ Hnew Hsmall Hzero Hlater) as Hio.
  destruct (constructed_edges _ _ _ _ Hnew) as [Hedges Hloops].
  destruct (constructed_graph _ _ _ _ Hnew Hsmall) as [Hreal _].
  apply (constructed_reachable _ _ _ _ Hnew Hsmall) in HH, HM.
  assert (∀ b, b ∈ post_order cfg → flow_dominates compiler (entry_block func) H b →
               rtc (idom_step cfg) b H) as Hchain.
  { intros b Hb Hl.
    apply (tree_chain_dominates _ _ _ _ Hnew Hsmall Hzero Hlater); [done |].
    by eapply flow_dominates_dominates. }
  assert (merge_block bH ∈ get_succeeding_edges cfg H) as Hedge
    by (apply Hloops; [done | by exists bH]).
  split_and!; [| done |].
  - destruct (Hdom H bH) as [Hne Hnot];
      [by apply (constructed_reachable _ _ _ _ Hnew Hsmall) | done | done |].
    assert (merge_block bH ≠ entry_block func) as Hentry.
    { intros Heq. destruct (decide (entry_block func = H)) as [He | He]; [congruence |].
      apply Hnot. rewrite Heq. by constructor. }
    destruct (finished_order _ _ _ Htr _ HM) as [_ Hpos].
    destruct (tree_nearest _ _ _ _ Hnew Hsmall Hzero Hlater (merge_block bH))
      as [Hcommon Hnearest]; [done | lia | done |].
    symmetry.
    eapply (tree_antisym compiler (entry_block func) cfg); [done | done | done | |].
    + apply Hcommon. by apply (proj1 Hedges).
    + apply Hnearest. intros p Hp.
      destruct (Hlater _ _ HM Hp) as [Hpin _].
      apply Hchain; [done |]. apply Hexits.
      apply (proj1 Hedges) in Hp. by apply Hreal.
  - intros l Hl Hback. apply (proj1 Hedges) in Hback.
    destruct (Hlater _ _ HH Hback) as [Hlin Hlt].
    destruct (finished_order _ _ _ Htr _ Hlin) as [_ Hpos].
    destruct (climbs_chain cfg 0 l H) as [_ Hle];
      [by eapply idoms_strict_climbs | by apply Hchain | done | lia | lia].
Qed.

Lemma dowhile_break_avoiding_header x :
  flow_avoiding dowhile_break_blocks 1 2 x → x = 1%N.
Proof.
  induction 1 as [| y x _ -> [(blk & Hblk & Ht) | (blk & Hblk & Hm & _)] Hne];
    [done | |]; vm_compute in Hblk; injection Hblk as <-.
  - apply list_elem_of_In in Ht. vm_compute in Ht. destruct Ht as [<- | []]. done.
  - discriminate Hm.
Qed.

Lemma dowhile_break_reach_avoiding_header x :
  reach_avoiding dowhile_break_blocks 1 2 x → x = 1%N.
Proof.
  induction 1 as [| y x _ -> (blk & Hblk & Ht) Hne]; [done |].
  vm_compute in Hblk. injection Hblk as <-.
  apply list_elem_of_In in Ht. vm_compute in Ht. destruct Ht as [<- | []]. done.
Qed.

Lemma dowhile_break_in_store b :
  rtc (branches_to dowhile_break_blocks) 1%N b → is_Some (dowhile_break_blocks !! b).
Proof.
  intros Hb. apply rtc_inv_r in Hb as [<- | (y & _ & blk & Hblk & Ht)];
    [vm_compute; by eexists |].
  apply elem_of_map_to_list, list_elem_of_In in Hblk. vm_compute in Hblk.
  destruct Hblk as [[= <- <-] | [[= <- <-] | [[= <- <-] | [[= <- <-] | [[= <- <-] | []]]]]];
    apply list_elem_of_In in Ht; vm_compute in Ht;
    repeat (destruct Ht as [<- | Ht]; [vm_compute; by eexists |]); destruct Ht.
Qed.

Lemma dowhile_break_headers_dominate_merges :
  headers_dominate_merges dowhile_break_blocks 1.
Proof.
  intros h blk _ Hblk Hm.
  apply elem_of_map_to_list, list_elem_of_In in Hblk. vm_compute in Hblk.
  destruct Hblk as [[= <- <-] | [[= <- <-] | [[= <- <-] | [[= <- <-] | [[= <- <-] | []]]]]];
    try discriminate Hm.
  split; [done |]. intros Hra. by apply dowhile_break_reach_avoiding_header in Hra.
Qed.

Lemma dowhile_merge_dominated_by_header_witness :
  ∃ cfg, CFG_new dowhile_break_blocks {| entry_block := 1%N |} 11 = Done cfg ∧
         get_immediate_dominator cfg 5 = 2%N ∧
         5%N ∈ get_succeeding_edges cfg 2 ∧
         ∀ l, flow_dominates dowhile_break_blocks 1 2 l → 2%N ∉ get_succeeding_edges cfg l.
Proof.
  apply (dowhile_merge_dominated_by_header dowhile_break_blocks {| entry_block := 1%N |}
           2 (mk_block Direct MergeLoop 3 5 0 0) 11).
  - vm_compute. reflexivity.
  - vm_compute. reflexivity.
  - apply dowhile_break_in_store.
  - apply dowhile_break_headers_dominate_merges.
  - eapply rtc_l; [| reflexivity]. eexists. split; [vm_compute; reflexivity |].
    apply list_elem_of_In. vm_compute. tauto.
  - vm_compute. reflexivity.
  - reflexivity.
  - do 2 (eapply rtc_l;
          [eexists; split; [vm_compute; reflexivity | apply list_elem_of_In; vm_compute; tauto] |]).
    eapply rtc_l; [| reflexivity].
    eexists; split; [vm_compute; reflexivity | apply list_elem_of_In; vm_compute; tauto].
  - intros p Hp. destruct (decide (p = 2%N)) as [-> | Hne]; [by left | right].
    intros Hra. apply dowhile_break_avoiding_header in Hra. subst p.
    destruct Hp as [(blk & Hblk & Ht) | (blk & Hblk & Hm & _)];
      vm_compute in Hblk; injection Hblk as <-.
    + apply list_elem_of_In in Ht. vm_compute in Ht. destruct Ht as [[=] | []].
    + discriminate Hm.
  - vm_compute. lia.
Defined.
